(** * WorldServerThread: the per-world simulation host

    A shallow embedding of [WorldServerThread] (StarWorldServerThread.cpp):
    the client registry, the two packet queue maps, fault containment at the
    public boundary, the per-tick [update], the [run] loop with its fidelity
    controller, and the destructor.

    The simulation engine ([WorldServer]) is an external collaborator: it is a
    parameter of the development, a record of operations over an abstract
    engine state, each of which may change that state and may raise.

    Conventions of the embedding:
    - a member function is a function on the host state; one that may raise
      returns a [Res] beside the state it leaves;
    - each public call is followed from its entry to its return.  The calls
      that take [m_mutex] exclude each other.  [pushIncomingPackets] and
      [pullOutgoingPackets] take [m_queueMutex] alone and may run while a
      tick is under way: the host state carries what the other threads are
      about to do with the queues, and the tick lets them in where it
      acquires the queue mutex ([lockQueue]);
    - time is an input: what [run] reads from the tick-rate estimator and
      the storage timer is given to the loop, one record per iteration;
    - [Logger] is a list of entries carried in the host state; [LogMap],
      the thread name and [m_worldId] play no part and are left out;
    - scalars of type [double] are binary64 floats, those of type [float]
      binary32 floats. *)

From Stdlib Require Import Floats Ascii.
From stdpp Require Import gmap list strings.

Set Default Proof Using "Type".
Local Open Scope float_scope.
Local Open Scope nat_scope.

(** ** Faults and results *)

(** Everything the engine raises is a [StarException], which derives from
    [std::exception]; that is the family every handler of this file catches. *)
Inductive exception : Type :=
  | StdException (what : string).

(** The outcome of a call that may raise. *)
Inductive Res (A : Type) : Type :=
  | Ok (a : A)
  | Throw (e : exception).
Arguments Ok {A} a.
Arguments Throw {A} e.

Definition isThrow {A} (r : Res A) : bool :=
  match r with Ok _ => false | Throw _ => true end.

(** [ConnectionId] is an integral client identifier. *)
Abbreviation ConnectionId := N (only parsing).

(** ** WorldServerFidelity *)

(** [enum class WorldServerFidelity { Minimum, Low, Medium, High }]. *)
Inductive WorldServerFidelity : Type := Minimum | Low | Medium | High.

(** [(int)fidelity] *)
Definition fidelityToInt (f : WorldServerFidelity) : Z :=
  match f with Minimum => 0 | Low => 1 | Medium => 2 | High => 3 end%Z.

(** [(WorldServerFidelity)n], used by the source on values in range only;
    out of range the cast saturates here. *)
Definition fidelityOfInt (n : Z) : WorldServerFidelity :=
  if (n <=? 0)%Z then Minimum
  else if (n =? 1)%Z then Low
  else if (n =? 2)%Z then Medium
  else High.

(** ** Log sink *)

Inductive LogEntry : Type :=
  | LogException (e : exception)
      (* Logger::error("WorldServerThread exception caught: {}", ...) *)
  | LogClientException (clientId : ConnectionId) (e : exception)
      (* Logger::error("... caught handling incoming packets for client {}: {}") *)
  | LogSync.
      (* Logger::debug("WorldServer: periodic sync to disk of world {}") *)

(** ** Star::List<ConnectionId>

    [List] is a contiguous array ([std::vector]).  [slots] is the storage as
    the running loop sees it, [count] the number of live elements: erasing
    moves the tail one slot down and shortens the live part, and leaves the
    storage beyond it as it was. *)
Record IdList : Type := mkIdList {
  slots : list ConnectionId;
  count : nat;
}.

Definition idListFrom (ids : list ConnectionId) : IdList :=
  {| slots := ids; count := length ids |}.

(** The live elements, [begin()] to [end()]. *)
Definition idListValues (l : IdList) : list ConnectionId :=
  take (count l) (slots l).

(** [erase(begin() + k)] *)
Definition idListEraseAt (k : nat) (l : IdList) : IdList :=
  {| slots := take k (slots l)
              ++ take (count l - 1 - k) (drop (S k) (slots l))
              ++ drop (count l - 1) (slots l);
     count := count l - 1 |}.

(** The scan of [List::remove(e)]: erase every live element equal to [e]. *)
Fixpoint idListRemoveFrom (fuel i : nat) (e : ConnectionId) (l : IdList) : IdList :=
  match fuel with
  | O => l
  | S fuel' =>
      if decide (i < count l) then
        match slots l !! i with
        | Some x =>
            if decide (x = e) then idListRemoveFrom fuel' i e (idListEraseAt i l)
            else idListRemoveFrom fuel' (S i) e l
        | None => l
        end
      else l
  end.

Definition idListRemove (e : ConnectionId) (l : IdList) : IdList :=
  idListRemoveFrom (count l) 0 e l.

(** ** Auxiliary value types *)

(** [Vec2F] is [Vector<float, 2>]: its components are binary32 values,
    here in the representation of [SpecFloat] (precision 24, maximal
    exponent 128). *)
Definition Vec2F : Type := spec_float * spec_float.

(** [float + float], rounded to binary32. *)
Definition float32Add (x y : spec_float) : spec_float := SFadd 24 128 x y.

(** [operator+] on [Vec2F], component by component. *)
Definition vec2Add (a b : Vec2F) : Vec2F :=
  (float32Add (fst a) (fst b), float32Add (snd a) (snd b)).

Record Player : Type := mkPlayer {
  position : Vec2F;
  feetOffset : Vec2F;
}.

(** ** The engine interface *)

(** The operations of [WorldServer] that the host calls.  [clientIds] and
    [hasClient] are [const] observers and are total; every other operation
    returns its outcome together with the engine state it leaves behind. *)
Record WorldServer (Packet SpawnTarget WorldChunks E : Type) : Type := mkWorldServer {
  ws_clientIds : E → list ConnectionId;
  ws_hasClient : ConnectionId → E → bool;
  ws_spawnTargetValid : SpawnTarget → E → Res bool * E;
  ws_addClient : ConnectionId → SpawnTarget → bool → E → Res bool * E;
  ws_removeClient : ConnectionId → E → Res (list Packet) * E;
  ws_handleIncomingPackets : ConnectionId → list Packet → E → Res unit * E;
  ws_getOutgoingPackets : ConnectionId → E → Res (list Packet) * E;
  ws_clientPlayer : ConnectionId → E → Res (option Player) * E;
  ws_pullNewPlanetType : E → Res (option (string * string)) * E;
  ws_readChunks : E → Res WorldChunks * E;
  ws_setFidelity : WorldServerFidelity → E → Res unit * E;
  ws_update : E → Res unit * E;
  ws_sync : E → Res unit * E;
}.
Arguments ws_clientIds {_ _ _ _} _ _.
Arguments ws_hasClient {_ _ _ _} _ _ _.
Arguments ws_spawnTargetValid {_ _ _ _} _ _ _.
Arguments ws_addClient {_ _ _ _} _ _ _ _ _.
Arguments ws_removeClient {_ _ _ _} _ _ _.
Arguments ws_handleIncomingPackets {_ _ _ _} _ _ _ _.
Arguments ws_getOutgoingPackets {_ _ _ _} _ _ _.
Arguments ws_clientPlayer {_ _ _ _} _ _ _.
Arguments ws_pullNewPlanetType {_ _ _ _} _ _.
Arguments ws_readChunks {_ _ _ _} _ _.
Arguments ws_setFidelity {_ _ _ _} _ _ _.
Arguments ws_update {_ _ _ _} _ _.
Arguments ws_sync {_ _ _ _} _ _.

(** A [WorldServerAction], a callable given the host and the engine.
    It is modelled by what it does to the engine.  Calls it makes back into
    the host through its first argument happen under the recursive lock and
    are the same calls made in sequence by the owner. *)
Definition WorldServerAction (E : Type) : Type := E → Res unit * E.

(** ** The fidelity controller of [run] (lines 296-309) *)

Record FidelityState : Type := mkFidelityState {
  fidelityScore : float;
  automaticFidelity : WorldServerFidelity;
}.

Definition adjustFidelity (fidelityDecrementScore fidelityIncrementScore spareTime : float)
    (st : FidelityState) : FidelityState :=
  (* fidelityScore += spareTime; *)
  let score1 := PrimFloat.add (fidelityScore st) spareTime in
  let auto0 := automaticFidelity st in
  (* if (fidelityScore <= fidelityDecrementScore) { ... } *)
  let '(score2, auto1) :=
    if PrimFloat.leb score1 fidelityDecrementScore then
      (0%float,
       if (fidelityToInt Minimum <? fidelityToInt auto0)%Z
       then fidelityOfInt (fidelityToInt auto0 - 1) else auto0)
    else (score1, auto0) in
  (* if (fidelityScore >= fidelityIncrementScore) { ... } *)
  let '(score3, auto2) :=
    if PrimFloat.leb fidelityIncrementScore score2 then
      (0%float,
       if (fidelityToInt auto1 <? fidelityToInt High)%Z
       then fidelityOfInt (fidelityToInt auto1 + 1) else auto1)
    else (score2, auto1) in
  {| fidelityScore := score3; automaticFidelity := auto2 |}.

(** ** The host *)

Section Host.
Context {Packet SpawnTarget WorldChunks E : Type}.
Context (ws : WorldServer Packet SpawnTarget WorldChunks E).
(** The value-initialised [WorldChunks] that [readChunks] returns on a fault. *)
Context (noChunks : WorldChunks).

(** A queue call made by another thread while a tick is under way. *)
Inductive QueueCall : Type :=
  | OtherPush (clientId : ConnectionId) (packets : list Packet)
  | OtherPull (clientId : ConnectionId).

(** What crossed the boundary to the dispatcher. *)
Inductive QueueEvent : Type :=
  | Pushed (clientId : ConnectionId) (packets : list Packet)
  | Pulled (clientId : ConnectionId) (packets : list Packet).

(** The members of [WorldServerThread], and its surroundings.  [m_pause]
    holds what the shared pause flag currently reads, [None] when no flag
    is set.  [logged] is the log sink.  [otherThreads] is what the other
    threads are about to do with the queues: one batch of queue calls for
    each coming acquisition of [m_queueMutex] by the tick.  [transcript]
    lists, in order, the pushes and pulls made through the dispatcher. *)
Record Host : Type := mkHost {
  m_worldServer : E;
  m_stop : bool;
  m_errorOccurred : bool;
  m_pause : option bool;
  m_clients : gset ConnectionId;
  m_incomingPacketQueue : gmap ConnectionId (list Packet);
  m_outgoingPacketQueue : gmap ConnectionId (list Packet);
  m_updateAction : option (WorldServerAction E);
  logged : list LogEntry;
  otherThreads : list (list QueueCall);
  transcript : list QueueEvent;
}.

Definition withWorldServer (e : E) (h : Host) : Host :=
  mkHost e (m_stop h) (m_errorOccurred h) (m_pause h) (m_clients h)
    (m_incomingPacketQueue h) (m_outgoingPacketQueue h) (m_updateAction h) (logged h)
    (otherThreads h) (transcript h).
Definition withStop (b : bool) (h : Host) : Host :=
  mkHost (m_worldServer h) b (m_errorOccurred h) (m_pause h) (m_clients h)
    (m_incomingPacketQueue h) (m_outgoingPacketQueue h) (m_updateAction h) (logged h)
    (otherThreads h) (transcript h).
Definition withErrorOccurred (b : bool) (h : Host) : Host :=
  mkHost (m_worldServer h) (m_stop h) b (m_pause h) (m_clients h)
    (m_incomingPacketQueue h) (m_outgoingPacketQueue h) (m_updateAction h) (logged h)
    (otherThreads h) (transcript h).
Definition withPause (p : option bool) (h : Host) : Host :=
  mkHost (m_worldServer h) (m_stop h) (m_errorOccurred h) p (m_clients h)
    (m_incomingPacketQueue h) (m_outgoingPacketQueue h) (m_updateAction h) (logged h)
    (otherThreads h) (transcript h).
Definition withClients (c : gset ConnectionId) (h : Host) : Host :=
  mkHost (m_worldServer h) (m_stop h) (m_errorOccurred h) (m_pause h) c
    (m_incomingPacketQueue h) (m_outgoingPacketQueue h) (m_updateAction h) (logged h)
    (otherThreads h) (transcript h).
Definition withIncoming (q : gmap ConnectionId (list Packet)) (h : Host) : Host :=
  mkHost (m_worldServer h) (m_stop h) (m_errorOccurred h) (m_pause h) (m_clients h)
    q (m_outgoingPacketQueue h) (m_updateAction h) (logged h)
    (otherThreads h) (transcript h).
Definition withOutgoing (q : gmap ConnectionId (list Packet)) (h : Host) : Host :=
  mkHost (m_worldServer h) (m_stop h) (m_errorOccurred h) (m_pause h) (m_clients h)
    (m_incomingPacketQueue h) q (m_updateAction h) (logged h)
    (otherThreads h) (transcript h).
Definition withUpdateAction (a : option (WorldServerAction E)) (h : Host) : Host :=
  mkHost (m_worldServer h) (m_stop h) (m_errorOccurred h) (m_pause h) (m_clients h)
    (m_incomingPacketQueue h) (m_outgoingPacketQueue h) a (logged h)
    (otherThreads h) (transcript h).
Definition withLogged (l : list LogEntry) (h : Host) : Host :=
  mkHost (m_worldServer h) (m_stop h) (m_errorOccurred h) (m_pause h) (m_clients h)
    (m_incomingPacketQueue h) (m_outgoingPacketQueue h) (m_updateAction h) l
    (otherThreads h) (transcript h).
Definition withOtherThreads (o : list (list QueueCall)) (h : Host) : Host :=
  mkHost (m_worldServer h) (m_stop h) (m_errorOccurred h) (m_pause h) (m_clients h)
    (m_incomingPacketQueue h) (m_outgoingPacketQueue h) (m_updateAction h) (logged h)
    o (transcript h).
Definition withTranscript (t : list QueueEvent) (h : Host) : Host :=
  mkHost (m_worldServer h) (m_stop h) (m_errorOccurred h) (m_pause h) (m_clients h)
    (m_incomingPacketQueue h) (m_outgoingPacketQueue h) (m_updateAction h) (logged h)
    (otherThreads h) t.

(** *** A state-and-exception monad over the host *)

Definition M (A : Type) : Type := Host → Res A * Host.

Definition ret {A} (a : A) : M A := λ h, (Ok a, h).
Definition raise {A} (e : exception) : M A := λ h, (Throw e, h).
Definition bind {A B} (c : M A) (k : A → M B) : M B :=
  λ h, match c h with
       | (Ok a, h') => k a h'
       | (Throw e, h') => (Throw e, h')
       end.
(** [try { body } catch (std::exception const& e) { handler }] *)
Definition tryCatch {A} (body : M A) (handler : exception → M A) : M A :=
  λ h, match body h with
       | (Ok a, h') => (Ok a, h')
       | (Throw e, h') => handler e h'
       end.
Definition modify (f : Host → Host) : M unit := λ h, (Ok tt, f h).
Definition gets {A} (f : Host → A) : M A := λ h, (Ok (f h), h).

(** A call through [m_worldServer]. *)
Definition engine {A} (op : E → Res A * E) : M A :=
  λ h, let '(r, e') := op (m_worldServer h) in (r, withWorldServer e' h).

Definition logError (entry : LogEntry) : M unit :=
  modify (λ h, withLogged (logged h ++ [entry]) h).

(** The body shared by the handlers of the public operations:
    log the exception, set [m_errorOccurred]. *)
Definition caught (e : exception) : M unit :=
  bind (logError (LogException e)) (λ _, modify (withErrorOccurred true)).

(** *** Queue map primitives *)

(** The list [queue[clientId]] refers to; an absent entry reads as empty. *)
Definition queueAt (q : gmap ConnectionId (list Packet)) (clientId : ConnectionId)
    : list Packet :=
  default [] (q !! clientId).

(** [take(m_incomingPacketQueue[clientId])]: [operator[]] creates the entry
    when absent, [take] moves the list out and leaves an empty one. *)
Definition takeIncoming (clientId : ConnectionId) : M (list Packet) :=
  λ h, (Ok (queueAt (m_incomingPacketQueue h) clientId),
        withIncoming (<[clientId := []]> (m_incomingPacketQueue h)) h).

Definition takeOutgoing (clientId : ConnectionId) : M (list Packet) :=
  λ h, (Ok (queueAt (m_outgoingPacketQueue h) clientId),
        withOutgoing (<[clientId := []]> (m_outgoingPacketQueue h)) h).

(** [m_outgoingPacketQueue[clientId]] evaluated for its reference alone. *)
Definition touchOutgoing (clientId : ConnectionId) : M unit :=
  modify (λ h, withOutgoing
    (<[clientId := queueAt (m_outgoingPacketQueue h) clientId]> (m_outgoingPacketQueue h)) h).

(** [m_outgoingPacketQueue[clientId].appendAll(packets)] *)
Definition appendOutgoing (clientId : ConnectionId) (packets : list Packet) : M unit :=
  modify (λ h, withOutgoing
    (<[clientId := queueAt (m_outgoingPacketQueue h) clientId ++ packets]>
       (m_outgoingPacketQueue h)) h).

(** *** Construction and lifecycle *)

(** [WorldServerThread(server, worldId)] *)
Definition newHost (server : E) : Host :=
  mkHost server false false None ∅ ∅ ∅ None [] [] [].

(** [start()]: clears both flags, then starts the thread. *)
Definition start (h : Host) : Host :=
  withErrorOccurred false (withStop false h).

(** [stop()]: requests the stop, then joins the thread. *)
Definition stop (h : Host) : Host := withStop true h.

(** [setPause(pause)] *)
Definition setPause (pause : option bool) (h : Host) : Host := withPause pause h.

(** [serverErrorOccurred()] *)
Definition serverErrorOccurred (h : Host) : bool := m_errorOccurred h.

(** *** Public operations *)

Definition spawnTargetValid (spawnTarget : SpawnTarget) : M bool :=
  tryCatch
    (engine (ws_spawnTargetValid ws spawnTarget))
    (λ e, bind (caught e) (λ _, ret false)).

Definition addClient (clientId : ConnectionId) (spawnTarget : SpawnTarget) (isLocal : bool)
    : M bool :=
  tryCatch
    (bind (engine (ws_addClient ws clientId spawnTarget isLocal)) (λ accepted,
       if accepted : bool then
         bind (modify (λ h, withClients ({[clientId]} ∪ m_clients h) h)) (λ _, ret true)
       else ret false))
    (λ e, bind (caught e) (λ _, ret false)).

(** The [try] block of [removeClient].  The local [outgoingPackets] is
    declared before the block and assigned inside it, so the block is run
    on the pair of that local and the host: when it raises, the local keeps
    whatever it held at that point. *)
Definition removeClientTry (clientId : ConnectionId) (h : Host)
    : Res unit * (list Packet * Host) :=
  (* auto incomingPackets = take(m_incomingPacketQueue[clientId]); *)
  let '(incomingPackets, h1) :=
    (queueAt (m_incomingPacketQueue h) clientId,
     withIncoming (<[clientId := []]> (m_incomingPacketQueue h)) h) in
  (* if (m_worldServer->hasClient(clientId)) handleIncomingPackets(...) *)
  let '(r1, h2) :=
    if ws_hasClient ws clientId (m_worldServer h1)
    then engine (ws_handleIncomingPackets ws clientId incomingPackets) h1
    else (Ok tt, h1) in
  match r1 with
  | Throw e => (Throw e, ([], h2))
  | Ok _ =>
      (* outgoingPackets = take(m_outgoingPacketQueue[clientId]); *)
      let '(outgoingPackets, h3) :=
        (queueAt (m_outgoingPacketQueue h2) clientId,
         withOutgoing (<[clientId := []]> (m_outgoingPacketQueue h2)) h2) in
      (* if (m_worldServer->hasClient(clientId))
           outgoingPackets.appendAll(m_worldServer->removeClient(clientId)); *)
      if ws_hasClient ws clientId (m_worldServer h3) then
        match engine (ws_removeClient ws clientId) h3 with
        | (Throw e, h4) => (Throw e, (outgoingPackets, h4))
        | (Ok final, h4) => (Ok tt, (outgoingPackets ++ final, h4))
        end
      else (Ok tt, (outgoingPackets, h3))
  end.

Definition removeClient (clientId : ConnectionId) : M (list Packet) :=
  λ h,
    if decide (clientId ∈ m_clients h) then
      let '(r, (outgoingPackets, h1)) := removeClientTry clientId h in
      let h2 := match r with
                | Ok _ => h1
                | Throw e => snd (caught e h1)
                end in
      (* m_clients.remove; m_incomingPacketQueue.remove; m_outgoingPacketQueue.remove *)
      let h3 := withClients (m_clients h2 ∖ {[clientId]}) h2 in
      let h4 := withIncoming (delete clientId (m_incomingPacketQueue h3)) h3 in
      let h5 := withOutgoing (delete clientId (m_outgoingPacketQueue h4)) h4 in
      (Ok outgoingPackets, h5)
    else (Ok [], h).

(** [clients()] *)
Definition clients (h : Host) : list ConnectionId := elements (m_clients h).

(** [hasClient(clientId)] *)
Definition hasClient (clientId : ConnectionId) (h : Host) : bool :=
  bool_decide (clientId ∈ m_clients h).

(** [erroredClients()]: the registry minus the ids the engine lists. *)
Definition erroredClients (h : Host) : list ConnectionId :=
  let unerroredClients : gset ConnectionId :=
    list_to_set (ws_clientIds ws (m_worldServer h)) in
  elements (m_clients h ∖ unerroredClients).

Definition pushIncomingPackets (clientId : ConnectionId) (packets : list Packet) : M unit :=
  modify (λ h, withIncoming
    (<[clientId := queueAt (m_incomingPacketQueue h) clientId ++ packets]>
       (m_incomingPacketQueue h)) h).

Definition pullOutgoingPackets (clientId : ConnectionId) : M (list Packet) :=
  takeOutgoing clientId.

(** *** The dispatcher and the queue mutex *)

Definition note (event : QueueEvent) : M unit :=
  modify (λ h, withTranscript (transcript h ++ [event]) h).

(** A push made through the dispatcher: the call, then its entry in the
    transcript. *)
Definition dispatchPush (clientId : ConnectionId) (packets : list Packet) : M unit :=
  bind (pushIncomingPackets clientId packets) (λ _, note (Pushed clientId packets)).

(** A pull made through the dispatcher. *)
Definition dispatchPull (clientId : ConnectionId) : M (list Packet) :=
  bind (pullOutgoingPackets clientId) (λ packets,
  bind (note (Pulled clientId packets)) (λ _, ret packets)).

Definition runQueueCall (q : QueueCall) : M unit :=
  match q with
  | OtherPush clientId packets => dispatchPush clientId packets
  | OtherPull clientId => bind (dispatchPull clientId) (λ _, ret tt)
  end.

Fixpoint runQueueCalls (qs : list QueueCall) : M unit :=
  match qs with
  | [] => ret tt
  | q :: rest => bind (runQueueCall q) (λ _, runQueueCalls rest)
  end.

(** [RecursiveMutexLocker queueLocker(m_queueMutex)] inside a tick.  The
    tick holds [m_mutex] throughout, so the other threads can only be in
    [pushIncomingPackets] and [pullOutgoingPackets]; since the tick last
    released the queue mutex they may have completed any number of these,
    and all of them are done when the lock is granted. *)
Definition lockQueue : M unit :=
  λ h, match otherThreads h with
       | [] => (Ok tt, h)
       | batch :: later => runQueueCalls batch (withOtherThreads later h)
       end.

Definition playerRevivePosition (clientId : ConnectionId) : M (option Vec2F) :=
  tryCatch
    (bind (engine (ws_clientPlayer ws clientId)) (λ player,
       match player with
       | Some p => ret (Some (vec2Add (position p) (feetOffset p)))
       | None => ret None
       end))
    (λ e, bind (caught e) (λ _, ret None)).

Definition pullNewPlanetType : M (option (string * string)) :=
  tryCatch
    (engine (ws_pullNewPlanetType ws))
    (λ e, bind (caught e) (λ _, ret None)).

(** [executeAction(action)]: the action runs under the lock, outside any
    [try] block. *)
Definition executeAction (action : WorldServerAction E) : M unit :=
  engine action.

Definition setUpdateAction (updateAction : option (WorldServerAction E)) (h : Host) : Host :=
  withUpdateAction updateAction h.

Definition readChunks : M WorldChunks :=
  tryCatch
    (engine (ws_readChunks ws))
    (λ e, bind (caught e) (λ _, ret noChunks)).

(** [sync()] *)
Definition sync : M unit :=
  bind (logError LogSync) (λ _, engine (ws_sync ws)).

(** *** The tick *)

(** The body of the first loop of [update] (lines 325-336) for one
    [clientId]; it returns [unerroredClientIds] as the iteration leaves it.
    In the handler the queue entry is reached through [operator[]] before
    the engine is asked to remove the client; a fault of that removal
    leaves [update]. *)
Definition deliverClient (clientId : ConnectionId) (unerroredClientIds : IdList)
    : M IdList :=
  bind lockQueue (λ _,
  bind (takeIncoming clientId) (λ incomingPackets,
  tryCatch
    (bind (engine (ws_handleIncomingPackets ws clientId incomingPackets))
       (λ _, ret unerroredClientIds))
    (λ e,
       bind (logError (LogClientException clientId e)) (λ _,
       bind lockQueue (λ _,
       bind (touchOutgoing clientId) (λ _,
       bind (engine (ws_removeClient ws clientId)) (λ final,
       bind (appendOutgoing clientId final) (λ _,
       ret (idListRemove clientId unerroredClientIds))))))))).

(** The first loop of [update] (lines 324-337):
    [for (auto clientId : unerroredClientIds)] fixes the end of the
    traversal when it starts and then advances one slot per iteration,
    while the handler erases from the very list being traversed.
    [remaining] is the number of slots left before that end, [i] the slot
    the iterator stands on. *)
Fixpoint deliverLoop (remaining i : nat) (unerroredClientIds : IdList) : M IdList :=
  match remaining with
  | O => ret unerroredClientIds
  | S remaining' =>
      match slots unerroredClientIds !! i with
      | None => ret unerroredClientIds
      | Some clientId =>
          bind (deliverClient clientId unerroredClientIds)
            (λ ids', deliverLoop remaining' (S i) ids')
      end
  end.

(** The body of the second loop of [update] (lines 344-346). *)
Definition collectClient (clientId : ConnectionId) : M unit :=
  bind (engine (ws_getOutgoingPackets ws clientId)) (λ outgoingPackets,
  bind lockQueue (λ _,
  appendOutgoing clientId outgoingPackets)).

(** The second loop of [update] (lines 343-347). *)
Fixpoint collectLoop (ids : list ConnectionId) : M unit :=
  match ids with
  | [] => ret tt
  | clientId :: rest => bind (collectClient clientId) (λ _, collectLoop rest)
  end.

(** [!m_pause || *m_pause == false] *)
Definition notPaused (pause : option bool) : bool :=
  match pause with
  | None => true
  | Some b => negb b
  end.

(** Lines 340-341. *)
Definition stepEngine : M unit :=
  bind (gets m_pause) (λ pause,
  if notPaused pause then engine (ws_update ws) else ret tt).

(** Lines 349-350. *)
Definition runUpdateAction : M unit :=
  bind (gets m_updateAction) (λ updateAction,
  match updateAction with
  | Some action => engine action
  | None => ret tt
  end).

Definition update (fidelity : WorldServerFidelity) : M unit :=
  bind (gets (λ h, idListFrom (ws_clientIds ws (m_worldServer h)))) (λ ids0,
  bind (deliverLoop (count ids0) 0 ids0) (λ unerroredClientIds,
  bind (engine (ws_setFidelity ws fidelity)) (λ _,
  bind stepEngine (λ _,
  bind (collectLoop (idListValues unerroredClientIds)) (λ _,
  runUpdateAction))))).

(** *** The run loop *)

(** What [run] reads before the loop (lines 266-276).  The measure window
    and the storage interval feed the tick-rate estimator and the storage
    timer only; their readings reach the loop through [TickEnv]. *)
Record RunConfig : Type := mkRunConfig {
  fidelityDecrementScore : float;
  fidelityIncrementScore : float;
  serverFidelity : string;
}.

(** What one iteration observes of its surroundings: whether [stop] has
    been requested since the previous test of [m_stop], whether the storage
    timer is up, and the spare time the tick-rate estimator reports. *)
Record TickEnv : Type := mkTickEnv {
  stopRequested : bool;
  storageTimeUp : bool;
  spareTime : float;
}.

(** [WorldServerFidelityNames.getLeft], the name table, is a parameter. *)
Context (fidelityNames : string → option WorldServerFidelity).

Definition asciiToLower (c : ascii) : ascii :=
  let n := nat_of_ascii c in
  if (65 <=? n)%nat && (n <=? 90)%nat then ascii_of_nat (n + 32) else c.

Fixpoint toLower (s : string) : string :=
  match s with
  | EmptyString => EmptyString
  | String c s' => String (asciiToLower c) (toLower s')
  end.

Definition equalsIgnoreCase (a b : string) : bool :=
  bool_decide (toLower a = toLower b).

(** Lines 271-274. *)
Definition lockedFidelityOf (cfg : RunConfig) : Res (option WorldServerFidelity) :=
  if equalsIgnoreCase (serverFidelity cfg) "automatic" then Ok None
  else match fidelityNames (serverFidelity cfg) with
       | Some f => Ok (Some f)
       | None => Throw (StdException "MapException: key not found in getLeft")
       end.

(** The [while] loop of [run] (lines 283-314), followed for as many
    iterations as observations are given.  It returns the locals
    [fidelityScore] and [automaticFidelity] as the loop leaves them. *)
Fixpoint runLoop (cfg : RunConfig) (lockedFidelity : option WorldServerFidelity)
    (envs : list TickEnv) (st : FidelityState) : M FidelityState :=
  match envs with
  | [] => ret st
  | env :: envs' =>
      bind (modify (λ h, if stopRequested env then withStop true h else h)) (λ _,
      bind (gets (λ h, negb (m_stop h) && negb (m_errorOccurred h))) (λ continue,
      if continue : bool then
        (* auto fidelity = lockedFidelity.value(automaticFidelity); *)
        let fidelity := default (automaticFidelity st) lockedFidelity in
        bind (update fidelity) (λ _,
        bind (if storageTimeUp env then sync else ret tt) (λ _,
        runLoop cfg lockedFidelity envs'
          (adjustFidelity (fidelityDecrementScore cfg) (fidelityIncrementScore cfg)
             (spareTime env) st)))
      else ret st))
  end.

(** [run()]: [config] is the outcome of reading the configuration. *)
Definition run (config : Res RunConfig) (envs : list TickEnv) : M unit :=
  tryCatch
    (match config with
     | Throw e => raise e
     | Ok cfg =>
         match lockedFidelityOf cfg with
         | Throw e => raise e
         | Ok lockedFidelity =>
             bind (runLoop cfg lockedFidelity envs
                     {| fidelityScore := 0%float; automaticFidelity := Medium |})
               (λ _, ret tt)
         end
     end)
    caught.

(** One call of [update] as [run] makes it: a fault that leaves [update]
    reaches the handler of [run]. *)
Definition tick (fidelity : WorldServerFidelity) : M unit :=
  tryCatch (update fidelity) caught.

(** *** Destruction *)

Fixpoint removeClients (ids : list ConnectionId) : M unit :=
  match ids with
  | [] => ret tt
  | clientId :: rest => bind (removeClient clientId) (λ _, removeClients rest)
  end.

(** [~WorldServerThread()]: after [m_stop = true] and [join()], the loop
    [for (auto clientId : m_worldServer->clientIds()) removeClient(clientId)]. *)
Definition destroy : M unit :=
  bind (modify (withStop true)) (λ _,
  bind (gets (λ h, ws_clientIds ws (m_worldServer h))) removeClients).

(** *** Calls from the owning process *)

(** The public calls, one step each; pushes and pulls go through the
    dispatcher. *)
Inductive Call : Type :=
  | CallSpawnTargetValid (spawnTarget : SpawnTarget)
  | CallAddClient (clientId : ConnectionId) (spawnTarget : SpawnTarget) (isLocal : bool)
  | CallRemoveClient (clientId : ConnectionId)
  | CallPushIncomingPackets (clientId : ConnectionId) (packets : list Packet)
  | CallPullOutgoingPackets (clientId : ConnectionId)
  | CallPlayerRevivePosition (clientId : ConnectionId)
  | CallPullNewPlanetType
  | CallExecuteAction (action : WorldServerAction E)
  | CallSetUpdateAction (updateAction : option (WorldServerAction E))
  | CallReadChunks
  | CallSetPause (pause : option bool)
  | CallTick (fidelity : WorldServerFidelity).

Inductive Reply : Type :=
  | ReplyVoid
  | ReplyBool (b : bool)
  | ReplyPackets (packets : list Packet)
  | ReplyPosition (p : option Vec2F)
  | ReplyPlanetType (t : option (string * string))
  | ReplyChunks (c : WorldChunks)
  | ReplyFault (e : exception).

Definition reply {A} (f : A → Reply) (c : M A) (h : Host) : Reply * Host :=
  match c h with
  | (Ok a, h') => (f a, h')
  | (Throw e, h') => (ReplyFault e, h')
  end.

Definition perform (c : Call) (h : Host) : Reply * Host :=
  match c with
  | CallSpawnTargetValid t => reply ReplyBool (spawnTargetValid t) h
  | CallAddClient clientId t isLocal => reply ReplyBool (addClient clientId t isLocal) h
  | CallRemoveClient clientId => reply ReplyPackets (removeClient clientId) h
  | CallPushIncomingPackets clientId packets =>
      reply (λ _, ReplyVoid) (dispatchPush clientId packets) h
  | CallPullOutgoingPackets clientId => reply ReplyPackets (dispatchPull clientId) h
  | CallPlayerRevivePosition clientId => reply ReplyPosition (playerRevivePosition clientId) h
  | CallPullNewPlanetType => reply ReplyPlanetType pullNewPlanetType h
  | CallExecuteAction action => reply (λ _, ReplyVoid) (executeAction action) h
  | CallSetUpdateAction updateAction => (ReplyVoid, setUpdateAction updateAction h)
  | CallReadChunks => reply ReplyChunks readChunks h
  | CallSetPause pause => (ReplyVoid, setPause pause h)
  | CallTick fidelity => reply (λ _, ReplyVoid) (tick fidelity) h
  end.

(** A sequence of calls, with the replies in order. *)
Fixpoint performAll (cs : list Call) (h : Host) : list Reply * Host :=
  match cs with
  | [] => ([], h)
  | c :: cs' =>
      let '(r, h1) := perform c h in
      let '(rs, h2) := performAll cs' h1 in
      (r :: rs, h2)
  end.
End Host.

Arguments Host : clear implicits.
Arguments M : clear implicits.
Arguments Call : clear implicits.
Arguments Reply : clear implicits.
Arguments QueueCall : clear implicits.
Arguments QueueEvent : clear implicits.

(** ** An engine with a record of its traffic

    [traced ws] behaves as [ws] and writes down, per client id, the packets
    the host handed to [handleIncomingPackets] and the packets
    [getOutgoingPackets] and [removeClient] returned, and the levels passed
    to [setFidelity].  It is the yardstick for the queue properties. *)
Section Traced.
Context {Packet SpawnTarget WorldChunks E : Type}.
Context (ws : WorldServer Packet SpawnTarget WorldChunks E).

Record Traced : Type := mkTraced {
  inner : E;
  delivered : gmap ConnectionId (list Packet);
  produced : gmap ConnectionId (list Packet);
  fidelities : list WorldServerFidelity;
}.

Definition withInner (e : E) (t : Traced) : Traced :=
  mkTraced e (delivered t) (produced t) (fidelities t).

Definition untraced {A} (op : E → Res A * E) : Traced → Res A * Traced :=
  λ t, let '(r, e') := op (inner t) in (r, withInner e' t).

Definition noteDelivered (clientId : ConnectionId) (packets : list Packet) (t : Traced)
    : Traced :=
  mkTraced (inner t)
    (<[clientId := queueAt (delivered t) clientId ++ packets]> (delivered t))
    (produced t) (fidelities t).

Definition noteProduced (clientId : ConnectionId) (packets : list Packet) (t : Traced)
    : Traced :=
  mkTraced (inner t) (delivered t)
    (<[clientId := queueAt (produced t) clientId ++ packets]> (produced t))
    (fidelities t).

Definition producing (clientId : ConnectionId) (op : E → Res (list Packet) * E)
    : Traced → Res (list Packet) * Traced :=
  λ t, match op (inner t) with
       | (Ok packets, e') => (Ok packets, noteProduced clientId packets (withInner e' t))
       | (Throw e, e') => (Throw e, withInner e' t)
       end.

Definition traced : WorldServer Packet SpawnTarget WorldChunks Traced :=
  {| ws_clientIds := λ t, ws_clientIds ws (inner t);
     ws_hasClient := λ clientId t, ws_hasClient ws clientId (inner t);
     ws_spawnTargetValid := λ s, untraced (ws_spawnTargetValid ws s);
     ws_addClient := λ clientId s l, untraced (ws_addClient ws clientId s l);
     ws_removeClient := λ clientId, producing clientId (ws_removeClient ws clientId);
     ws_handleIncomingPackets := λ clientId packets t,
       untraced (ws_handleIncomingPackets ws clientId packets)
         (noteDelivered clientId packets t);
     ws_getOutgoingPackets := λ clientId,
       producing clientId (ws_getOutgoingPackets ws clientId);
     ws_clientPlayer := λ clientId, untraced (ws_clientPlayer ws clientId);
     ws_pullNewPlanetType := untraced (ws_pullNewPlanetType ws);
     ws_readChunks := untraced (ws_readChunks ws);
     ws_setFidelity := λ f t,
       untraced (ws_setFidelity ws f)
         (mkTraced (inner t) (delivered t) (produced t) (fidelities t ++ [f]));
     ws_update := untraced (ws_update ws);
     ws_sync := untraced (ws_sync ws) |}.

Definition freshTrace (e : E) : Traced := mkTraced e ∅ ∅ [].
End Traced.

Arguments Traced : clear implicits.

(** ** A small concrete engine

    An echo world over numeric packets: what a client sends comes back to it
    on the next collection, packet [0] is malformed and makes delivery raise,
    and removing a client returns one farewell packet [1000 + id]. *)
Module Echo.
Record World : Type := mkWorld {
  present : list ConnectionId;
  inbox : list (ConnectionId * list N);
  outbox : gmap ConnectionId (list N);
  level : option WorldServerFidelity;
}.

Definition handleIncomingPackets (clientId : ConnectionId) (packets : list N) (w : World)
    : Res unit * World :=
  if bool_decide (0%N ∈ packets) then
    (Throw (StdException "malformed packet"), w)
  else
    (Ok tt,
     mkWorld (present w) (inbox w ++ [(clientId, packets)])
       (<[clientId := default [] (outbox w !! clientId) ++ packets]> (outbox w))
       (level w)).

Definition addClient (clientId : ConnectionId) (w : World) : Res bool * World :=
  if bool_decide (clientId ∈ present w) then (Ok false, w)
  else (Ok true, mkWorld (present w ++ [clientId]) (inbox w) (outbox w) (level w)).

Definition removeClient (clientId : ConnectionId) (w : World) : Res (list N) * World :=
  (Ok [(1000 + clientId)%N],
   mkWorld (filter (λ c, c ≠ clientId) (present w)) (inbox w)
     (delete clientId (outbox w)) (level w)).

Definition getOutgoingPackets (clientId : ConnectionId) (w : World)
    : Res (list N) * World :=
  (Ok (default [] (outbox w !! clientId)),
   mkWorld (present w) (inbox w) (delete clientId (outbox w)) (level w)).

Definition server : WorldServer N unit unit World :=
  {| ws_clientIds := present;
     ws_hasClient := λ clientId w, bool_decide (clientId ∈ present w);
     ws_spawnTargetValid := λ _ w, (Ok true, w);
     ws_addClient := λ clientId _ _, addClient clientId;
     ws_removeClient := removeClient;
     ws_handleIncomingPackets := handleIncomingPackets;
     ws_getOutgoingPackets := getOutgoingPackets;
     ws_clientPlayer := λ _ w, (Ok None, w);
     ws_pullNewPlanetType := λ w, (Ok None, w);
     ws_readChunks := λ w, (Ok tt, w);
     ws_setFidelity := λ f w,
       (Ok tt, mkWorld (present w) (inbox w) (outbox w) (Some f));
     ws_update := λ w, (Ok tt, w);
     ws_sync := λ w, (Ok tt, w) |}.

Definition empty : World := mkWorld [] [] ∅ None.

(** The fidelity names of the configuration. *)
Definition names (s : string) : option WorldServerFidelity :=
  if bool_decide (s = "minimum") then Some Minimum
  else if bool_decide (s = "low") then Some Low
  else if bool_decide (s = "medium") then Some Medium
  else if bool_decide (s = "high") then Some High
  else None.

(** Three clients attached; client 1 has sent a malformed packet. *)
Definition threeClients : list (Call N unit World) :=
  [ CallAddClient 1 tt false; CallAddClient 2 tt false; CallAddClient 3 tt false;
    CallPushIncomingPackets 1 [0%N];
    CallPushIncomingPackets 2 [20%N];
    CallPushIncomingPackets 3 [30%N] ].
End Echo.

(** ** The levels as the specification words them *)

(** One level down, floored at [Minimum]. *)
Definition oneLevelDown (f : WorldServerFidelity) : WorldServerFidelity :=
  match f with
  | Minimum => Minimum
  | Low => Minimum
  | Medium => Low
  | High => Medium
  end.

(** One level up, capped at [High]. *)
Definition oneLevelUp (f : WorldServerFidelity) : WorldServerFidelity :=
  match f with
  | Minimum => Low
  | Low => Medium
  | Medium => High
  | High => High
  end.

(** ** Assertions over the host *)

Section Assertions.
Context {Packet E : Type}.

(** What a handler of the form [catch { log; flag; return safe; }] leaves. *)
Definition flagged (e : exception) (h : Host Packet E) : Host Packet E :=
  withErrorOccurred true (withLogged (logged h ++ [LogException e]) h).

(** [hoare P c Q]: from a host satisfying [P], the computation [c] ends
    with an outcome and a host related by [Q]. *)
Definition hoare {A} (P : Host Packet E → Prop) (c : M Packet E A)
    (Q : Res A → Host Packet E → Prop) : Prop :=
  ∀ h, P h → Q (fst (c h)) (snd (c h)).

(** [stable I c]: [c] keeps [I], whether it returns or raises. *)
Definition stable {A} (I : Host Packet E → Prop) (c : M Packet E A) : Prop :=
  hoare I c (λ _, I).

(** [I] does not look at the engine, the flags or the log. *)
Definition queuesOnly (I : Host Packet E → Prop) : Prop :=
  ∀ h h',
    m_clients h' = m_clients h →
    m_incomingPacketQueue h' = m_incomingPacketQueue h →
    m_outgoingPacketQueue h' = m_outgoingPacketQueue h →
    I h → I h'.

(** The queue entry of [clientId] exists in both maps. *)
Definition hasQueues (clientId : ConnectionId) (h : Host Packet E) : Prop :=
  is_Some (m_incomingPacketQueue h !! clientId)
  ∧ is_Some (m_outgoingPacketQueue h !! clientId).

(** [I] is an assertion over registry and queues that survives the
    creation or overwriting of any queue entry. *)
Definition keptByInserts (I : Host Packet E → Prop) : Prop :=
  queuesOnly I
  ∧ (∀ h c l, I h → I (withIncoming (<[c := l]> (m_incomingPacketQueue h)) h))
  ∧ (∀ h c l, I h → I (withOutgoing (<[c := l]> (m_outgoingPacketQueue h)) h)).

(** [I] survives what other threads may do while a tick is under way:
    queue entries being created or overwritten, the transcript growing,
    the batches still to come being taken up. *)
Definition keptByQueueCalls (I : Host Packet E → Prop) : Prop :=
  (∀ h o, I h → I (withOtherThreads o h))
  ∧ (∀ h t, I h → I (withTranscript t h))
  ∧ (∀ h c l, I h → I (withIncoming (<[c := l]> (m_incomingPacketQueue h)) h))
  ∧ (∀ h c l, I h → I (withOutgoing (<[c := l]> (m_outgoingPacketQueue h)) h)).

(** The entries a computation added to the log of [h0]. *)
Definition loggedSince (h0 h : Host Packet E) : list LogEntry :=
  drop (length (logged h0)) (logged h).

(** Every per-client fault logged since [h0] names a client whose queue
    entries exist. *)
Definition clientFaultsQueued (h0 h : Host Packet E) : Prop :=
  ∃ added,
    logged h = logged h0 ++ added
    ∧ ∀ clientId e, LogClientException clientId e ∈ added → hasQueues clientId h.

(** The same when the fault of [clientId] has just been logged and its
    outgoing entry is still to be reached. *)
Definition clientFaultLogged (h0 : Host Packet E) (clientId : ConnectionId) (e : exception)
    (h : Host Packet E) : Prop :=
  ∃ added,
    logged h = logged h0 ++ added ++ [LogClientException clientId e]
    ∧ (∀ id e', LogClientException id e' ∈ added → hasQueues id h)
    ∧ is_Some (m_incomingPacketQueue h !! clientId).
End Assertions.

(** ** Classifying calls *)

Section Calls.
Context {Packet SpawnTarget E : Type}.

(** [c] is [removeClient(clientId)]. *)
Definition removes (clientId : ConnectionId) (c : Call Packet SpawnTarget E) : bool :=
  match c with
  | CallRemoveClient id => bool_decide (id = clientId)
  | _ => false
  end.

(** [c] is an [addClient] for [clientId]. *)
Definition registers (clientId : ConnectionId) (c : Call Packet SpawnTarget E) : bool :=
  match c with
  | CallAddClient id _ _ => bool_decide (id = clientId)
  | _ => false
  end.
End Calls.

(** ** Queue traffic measured against a traced engine *)

Section Traffic.
Context {Packet SpawnTarget WorldChunks E : Type}.

(** The update hook, when set, is an action on the engine proper: it
    does not write into the record of traffic. *)
Definition hookUntraced (h : Host Packet (Traced Packet E)) : Prop :=
  match m_updateAction h with
  | None => True
  | Some action => ∃ a : WorldServerAction E, action = untraced a
  end.

(** The calls under which the queues are followed: every call except
    [removeClient], with actions that act on the engine proper. *)
Inductive queueTraffic : Call Packet SpawnTarget (Traced Packet E) → Prop :=
  | traffic_spawnTargetValid t : queueTraffic (CallSpawnTargetValid t)
  | traffic_addClient clientId t isLocal : queueTraffic (CallAddClient clientId t isLocal)
  | traffic_push clientId packets : queueTraffic (CallPushIncomingPackets clientId packets)
  | traffic_pull clientId : queueTraffic (CallPullOutgoingPackets clientId)
  | traffic_revive clientId : queueTraffic (CallPlayerRevivePosition clientId)
  | traffic_planet : queueTraffic CallPullNewPlanetType
  | traffic_execute (a : WorldServerAction E) : queueTraffic (CallExecuteAction (untraced a))
  | traffic_hook (a : option (WorldServerAction E)) :
      queueTraffic (CallSetUpdateAction (untraced <$> a))
  | traffic_chunks : queueTraffic CallReadChunks
  | traffic_pause p : queueTraffic (CallSetPause p)
  | traffic_tick fidelity : queueTraffic (CallTick fidelity).

(** The packets pushed for [clientId] according to a transcript. *)
Definition pushedIn (clientId : ConnectionId) (events : list (QueueEvent Packet))
    : list Packet :=
  concat ((λ event,
             match event with
             | Pushed id packets => if decide (id = clientId) then packets else []
             | Pulled _ _ => []
             end) <$> events).

(** The packets pulled for [clientId] according to a transcript. *)
Definition pulledIn (clientId : ConnectionId) (events : list (QueueEvent Packet))
    : list Packet :=
  concat ((λ event,
             match event with
             | Pulled id packets => if decide (id = clientId) then packets else []
             | Pushed _ _ => []
             end) <$> events).

(** The order of the queues of [clientId], while [incoming] taken from the
    incoming queue of [id] is still to be handed to the engine and
    [outgoing] returned by the engine for [id] is still to be appended to
    the outgoing queue of [id]: what the engine produced is what was pulled
    followed by what is queued and what is owed, and what was pushed is what
    the engine was handed followed by what is owed and what is queued. *)
Definition fifoOwing (clientId id : ConnectionId) (incoming outgoing : list Packet)
    (h : Host Packet (Traced Packet E)) : Prop :=
  queueAt (produced (m_worldServer h)) clientId
    = pulledIn clientId (transcript h)
        ++ queueAt (m_outgoingPacketQueue h) clientId
        ++ (if decide (id = clientId) then outgoing else [])
  ∧ pushedIn clientId (transcript h)
    = queueAt (delivered (m_worldServer h)) clientId
        ++ (if decide (id = clientId) then incoming else [])
        ++ queueAt (m_incomingPacketQueue h) clientId
  ∧ hookUntraced h.

(** The order of the queues of [clientId] when nothing is owed: what the
    engine produced for it is what was pulled, in order, followed by what
    is queued; what was pushed for it is what the engine was handed, in
    order, followed by what is queued. *)
Definition fifo (clientId : ConnectionId) (h : Host Packet (Traced Packet E)) : Prop :=
  queueAt (produced (m_worldServer h)) clientId
    = pulledIn clientId (transcript h) ++ queueAt (m_outgoingPacketQueue h) clientId
  ∧ pushedIn clientId (transcript h)
    = queueAt (delivered (m_worldServer h)) clientId
        ++ queueAt (m_incomingPacketQueue h) clientId
  ∧ hookUntraced h.
End Traffic.

Arguments pushedIn : simpl never.
Arguments pulledIn : simpl never.

(** ** Scenarios on the echo world *)

(** A host just constructed over the empty echo world. *)
Definition freshEcho : Host N Echo.World := newHost Echo.empty.

(** The same over the traced echo world. *)
Definition freshTracedEcho : Host N (Traced N Echo.World) :=
  newHost (freshTrace Echo.empty).

(** Three clients attached, each with one packet waiting; the packet of
    client 1 is malformed. *)
Definition threeWaiting : Host N Echo.World :=
  snd (performAll Echo.server tt Echo.threeClients freshEcho).

(** One client attached whose only packet is malformed. *)
Definition oneMalformed : Host N Echo.World :=
  snd (performAll Echo.server tt
         [CallAddClient 1 tt false; CallPushIncomingPackets 1 [0%N]]
         freshEcho).

(** One client with packet 7 waiting in its outgoing queue and a malformed
    packet waiting in its incoming queue. *)
Definition pendingThenMalformed : Host N Echo.World :=
  snd (performAll Echo.server tt
         [CallAddClient 1 tt false; CallPushIncomingPackets 1 [7%N]; CallTick Medium;
          CallPushIncomingPackets 1 [0%N]]
         freshEcho).

(** Client 1 sends 10 and 11 and is ticked, sends 13 and is ticked again,
    and is then pulled twice; the engine is traced. *)
Definition echoTraffic : list (Call N unit (Traced N Echo.World)) :=
  [CallAddClient 1 tt false;
   CallPushIncomingPackets 1 [10; 11]%N; CallTick Medium;
   CallPushIncomingPackets 1 [13%N]; CallTick Low;
   CallPullOutgoingPackets 1; CallPullOutgoingPackets 1].

(** What other threads do meanwhile: as the first tick is about to take the
    incoming queue they push 12, and between its collecting the output of
    the engine and appending it they pull. *)
Definition echoOthers : list (list (QueueCall N)) :=
  [[OtherPush 1 [12%N]]; [OtherPull 1]].

(** The traced echo host with these threads around it. *)
Definition busyTracedEcho : Host N (Traced N Echo.World) :=
  withOtherThreads echoOthers freshTracedEcho.


(** A fixed fidelity of Minimum, thresholds -1 and 1. *)
Definition fixedMinimum : RunConfig := mkRunConfig (-1)%float 1%float "minimum".

(** ** Engines that differ in one operation *)

Section Variants.
Context {Packet SpawnTarget WorldChunks E : Type}.

(** [ws] with [op] for its update step. *)
Definition withUpdateStep (op : E → Res unit * E)
    (ws : WorldServer Packet SpawnTarget WorldChunks E)
    : WorldServer Packet SpawnTarget WorldChunks E :=
  {| ws_clientIds := ws_clientIds ws;
     ws_hasClient := ws_hasClient ws;
     ws_spawnTargetValid := ws_spawnTargetValid ws;
     ws_addClient := ws_addClient ws;
     ws_removeClient := ws_removeClient ws;
     ws_handleIncomingPackets := ws_handleIncomingPackets ws;
     ws_getOutgoingPackets := ws_getOutgoingPackets ws;
     ws_clientPlayer := ws_clientPlayer ws;
     ws_pullNewPlanetType := ws_pullNewPlanetType ws;
     ws_readChunks := ws_readChunks ws;
     ws_setFidelity := ws_setFidelity ws;
     ws_update := op;
     ws_sync := ws_sync ws |}.

(** [ws] with [op] for its removal of a client. *)
Definition withRemoval (op : ConnectionId → E → Res (list Packet) * E)
    (ws : WorldServer Packet SpawnTarget WorldChunks E)
    : WorldServer Packet SpawnTarget WorldChunks E :=
  {| ws_clientIds := ws_clientIds ws;
     ws_hasClient := ws_hasClient ws;
     ws_spawnTargetValid := ws_spawnTargetValid ws;
     ws_addClient := ws_addClient ws;
     ws_removeClient := op;
     ws_handleIncomingPackets := ws_handleIncomingPackets ws;
     ws_getOutgoingPackets := ws_getOutgoingPackets ws;
     ws_clientPlayer := ws_clientPlayer ws;
     ws_pullNewPlanetType := ws_pullNewPlanetType ws;
     ws_readChunks := ws_readChunks ws;
     ws_setFidelity := ws_setFidelity ws;
     ws_update := ws_update ws;
     ws_sync := ws_sync ws |}.

(** [ws] with [op] for its lookup of the player of a client. *)
Definition withClientPlayer (op : ConnectionId → E → Res (option Player) * E)
    (ws : WorldServer Packet SpawnTarget WorldChunks E)
    : WorldServer Packet SpawnTarget WorldChunks E :=
  {| ws_clientIds := ws_clientIds ws;
     ws_hasClient := ws_hasClient ws;
     ws_spawnTargetValid := ws_spawnTargetValid ws;
     ws_addClient := ws_addClient ws;
     ws_removeClient := ws_removeClient ws;
     ws_handleIncomingPackets := ws_handleIncomingPackets ws;
     ws_getOutgoingPackets := ws_getOutgoingPackets ws;
     ws_clientPlayer := op;
     ws_pullNewPlanetType := ws_pullNewPlanetType ws;
     ws_readChunks := ws_readChunks ws;
     ws_setFidelity := ws_setFidelity ws;
     ws_update := ws_update ws;
     ws_sync := ws_sync ws |}.
End Variants.

(** ** The first loop of a tick when every delivery returns *)

Section Deliveries.
Context {Packet SpawnTarget WorldChunks E : Type}.
Context (ws : WorldServer Packet SpawnTarget WorldChunks E).

(** Lines 325-328 for one client: its incoming queue is taken and handed
    to the engine. *)
Definition deliveredTo (clientId : ConnectionId) (h : Host Packet E) : Host Packet E :=
  withWorldServer
    (snd (ws_handleIncomingPackets ws clientId
            (queueAt (m_incomingPacketQueue h) clientId) (m_worldServer h)))
    (withIncoming (<[clientId := []]> (m_incomingPacketQueue h)) h).

(** The same for the clients of a list, in order. *)
Definition deliveredToAll (ids : list ConnectionId) (h : Host Packet E) : Host Packet E :=
  foldl (λ h' clientId, deliveredTo clientId h') h ids.

(** Whether these deliveries, made one after the other from [h], all
    return: each client's queue is handed over in the state the
    deliveries before it have left. *)
Fixpoint deliveriesReturn (ids : list ConnectionId) (h : Host Packet E) : bool :=
  match ids with
  | [] => true
  | clientId :: rest =>
      negb (isThrow (fst (ws_handleIncomingPackets ws clientId
                            (queueAt (m_incomingPacketQueue h) clientId) (m_worldServer h))))
      && deliveriesReturn rest (deliveredTo clientId h)
  end.
End Deliveries.

(** ** The first steps of the handler in the first loop of a tick *)

Section Handler.
Context {Packet E : Type}.

(** Lines 326-334 up to the call of the engine's [removeClient]: the
    incoming queue of [clientId] has been taken, the fault [e] of its
    delivery is logged, and its outgoing entry has been reached. *)
Definition faultLogged (clientId : ConnectionId) (e : exception) (h : Host Packet E)
    : Host Packet E :=
  withOutgoing
    (<[clientId := queueAt (m_outgoingPacketQueue h) clientId]> (m_outgoingPacketQueue h))
    (withLogged (logged h ++ [LogClientException clientId e])
       (withIncoming (<[clientId := []]> (m_incomingPacketQueue h)) h)).
End Handler.

(** ** Further scenarios on the echo world *)

(** An echo world whose removal of a client raises. *)
Definition stuckRemoval : WorldServer N unit unit Echo.World :=
  withRemoval (λ _ w, (Throw (StdException "removal failed"), w)) Echo.server.

(** An update step that raises. *)
Definition failingUpdate : Echo.World → Res unit * Echo.World :=
  λ w, (Throw (StdException "update failed"), w).

(** Client 1 attached, with packet 7 waiting in its outgoing queue and
    packet 8 in its incoming queue. *)
Definition pendingBothWays : Host N Echo.World :=
  snd (performAll Echo.server tt
         [CallAddClient 1 tt false; CallPushIncomingPackets 1 [7%N]; CallTick Medium;
          CallPushIncomingPackets 1 [8%N]]
         freshEcho).

(** Clients 1 and 2 attached; 1 has sent 10 and 11, 2 has sent 20, and a
    client 5 that was never attached has sent 50. *)
Definition twoWaiting : Host N Echo.World :=
  snd (performAll Echo.server tt
         [CallAddClient 1 tt false; CallAddClient 2 tt false;
          CallPushIncomingPackets 1 [10; 11]%N; CallPushIncomingPackets 2 [20%N];
          CallPushIncomingPackets 5 [50%N]]
         freshEcho).

(** The same over the traced echo world. *)
Definition twoWaitingTraced : Host N (Traced N Echo.World) :=
  snd (performAll (traced Echo.server) tt
         [CallAddClient 1 tt false; CallAddClient 2 tt false;
          CallPushIncomingPackets 1 [10; 11]%N; CallPushIncomingPackets 2 [20%N];
          CallPushIncomingPackets 5 [50%N]]
         freshTracedEcho).

(** Clients 1 and 2 attached; 1 has sent 10 and the packet of 2 is
    malformed. *)
Definition secondMalformed : Host N Echo.World :=
  snd (performAll Echo.server tt
         [CallAddClient 1 tt false; CallAddClient 2 tt false;
          CallPushIncomingPackets 1 [10%N]; CallPushIncomingPackets 2 [0%N]]
         freshEcho).

(** A player at (16777216, 0.5) whose feet are at (1, 0.25) from its
    position, and an echo world that has this player for every client. *)
Definition farPlayer : Player :=
  mkPlayer (S754_finite false 8388608 1, S754_finite false 8388608 (-24))
           (S754_finite false 8388608 (-23), S754_finite false 8388608 (-25)).

Definition farPlayerWorld : WorldServer N unit unit Echo.World :=
  withClientPlayer (λ _ w, (Ok (Some farPlayer), w)) Echo.server.

(** A host whose loop ended on a fault of the configuration. *)
Definition faultedEcho : Host N Echo.World :=
  snd (run Echo.server Echo.names (Throw (StdException "configuration missing")) []
         freshEcho).

(** ** The levels of the controller *)

(** The local [automaticFidelity] of [run] at the head of each iteration,
    for the spare times the iterations observe: it starts from [st] and is
    moved by [adjustFidelity] at the end of every iteration. *)
Fixpoint controllerLevels (cfg : RunConfig) (envs : list TickEnv) (st : FidelityState)
    : list WorldServerFidelity :=
  match envs with
  | [] => []
  | env :: envs' =>
      automaticFidelity st
        :: controllerLevels cfg envs'
             (adjustFidelity (fidelityDecrementScore cfg) (fidelityIncrementScore cfg)
                (spareTime env) st)
  end.

(** The local [fidelity] of each iteration (line 284):
    [lockedFidelity.value(automaticFidelity)]. *)
Fixpoint appliedLevels (cfg : RunConfig) (lockedFidelity : option WorldServerFidelity)
    (envs : list TickEnv) (st : FidelityState) : list WorldServerFidelity :=
  match envs with
  | [] => []
  | env :: envs' =>
      default (automaticFidelity st) lockedFidelity
        :: appliedLevels cfg lockedFidelity envs'
             (adjustFidelity (fidelityDecrementScore cfg) (fidelityIncrementScore cfg)
                (spareTime env) st)
  end.

(** Thresholds -1 and 1, the level left to the controller. *)
Definition automaticConfig : RunConfig := mkRunConfig (-1)%float 1%float "Automatic".

(** ** The tick up to the update hook *)

Section BeforeHook.
Context {Packet SpawnTarget WorldChunks E : Type}.
Context (ws : WorldServer Packet SpawnTarget WorldChunks E).

(** Lines 322-347 of [update]: everything before the update hook. *)
Definition beforeHook (fidelity : WorldServerFidelity) : M Packet E unit :=
  bind (gets (λ h, idListFrom (ws_clientIds ws (m_worldServer h)))) (λ ids0,
  bind (deliverLoop ws (count ids0) 0 ids0) (λ unerroredClientIds,
  bind (engine (ws_setFidelity ws fidelity)) (λ _,
  bind (stepEngine ws) (λ _,
  collectLoop ws (idListValues unerroredClientIds))))).

(** [update] with line 341, the update step of the engine, left out:
    the deliveries, the fidelity setting, the collection and the update
    hook. *)
Definition pausedUpdate (fidelity : WorldServerFidelity) : M Packet E unit :=
  bind (gets (λ h, idListFrom (ws_clientIds ws (m_worldServer h)))) (λ ids0,
  bind (deliverLoop ws (count ids0) 0 ids0) (λ unerroredClientIds,
  bind (engine (ws_setFidelity ws fidelity)) (λ _,
  bind (collectLoop ws (idListValues unerroredClientIds)) (λ _,
  runUpdateAction)))).
End BeforeHook.

(** ** What a removal leaves *)

Section Leaves.
Context {Packet E : Type}.

(** Lines 187-189 of [removeClient]: the id is taken out of the registry
    and out of both queue maps. *)
Definition detached (clientId : ConnectionId) (h : Host Packet E) : Host Packet E :=
  withOutgoing (delete clientId (m_outgoingPacketQueue h))
    (withIncoming (delete clientId (m_incomingPacketQueue h))
       (withClients (m_clients h ∖ {[clientId]}) h)).
End Leaves.

(** * Text: escape codes in text

    A shallow embedding of [Text::processText] (StarText.cpp).  A
    [std::string_view] is the list of its bytes; positions and counts are
    [size_t] values, 64 bits wide, with [NPos] for [std::string::npos].
    The constants [CmdEsc], [StartEsc] and [EndEsc] of StarText.hpp are
    parameters.  A callback is modelled by its outcome, an answer or an
    exception, and by what it does to its surroundings; [textFunc] is taken
    to hold a callable. *)
Module Text.
Section Text.
Context (CmdEsc StartEsc EndEsc : ascii).

Definition NPos : N := 18446744073709551615%N.

(** Addition and subtraction on [size_t]. *)
Definition sizeAdd (a b : N) : N := ((a + b) mod 2 ^ 64)%N.
Definition sizeSub (a b : N) : N := ((a + 2 ^ 64 - b) mod 2 ^ 64)%N.

(** [s.size()] *)
Definition size (s : list ascii) : N := N.of_nat (length s).

Fixpoint dropN (n : N) (s : list ascii) : list ascii :=
  match s with
  | [] => []
  | c :: s' => if (n =? 0)%N then s else dropN (N.pred n) s'
  end.

Fixpoint takeN (n : N) (s : list ascii) : list ascii :=
  match s with
  | [] => []
  | c :: s' => if (n =? 0)%N then [] else c :: takeN (N.pred n) s'
  end.

(** [s.substr(pos, n)]: raises [std::out_of_range] when [pos > size()],
    and otherwise yields at most [n] bytes from [pos] on. *)
Definition substr (s : list ascii) (pos n : N) : Res (list ascii) :=
  if (size s <? pos)%N then Throw (StdException "basic_string_view::substr: pos > size")
  else Ok (takeN n (dropN pos s)).

(** The first position from [pos] on, counting from [i] at the head of
    [s], whose byte satisfies [p]; [NPos] when there is none. *)
Fixpoint findFrom (p : ascii → bool) (s : list ascii) (i pos : N) : N :=
  match s with
  | [] => NPos
  | c :: s' => if (pos <=? i)%N && p c then i else findFrom p s' (N.succ i) pos
  end.

(** [s.find_first_of(chars, pos)] *)
Definition find_first_of (chars s : list ascii) (pos : N) : N :=
  findFrom (λ c, bool_decide (c ∈ chars)) s 0 pos.

(** [s.find_first_not_of(chars, pos)] *)
Definition find_first_not_of (chars s : list ascii) (pos : N) : N :=
  findFrom (λ c, negb (bool_decide (c ∈ chars))) s 0 pos.

(** [s.find_first_of(c0, pos)] for a single byte. *)
Definition find_char (c0 : ascii) (s : list ascii) (pos : N) : N :=
  findFrom (λ c, bool_decide (c = c0)) s 0 pos.

(** [static std::string escapeChars = strf("{:c}{:c}", CmdEsc, StartEsc)] *)
Definition escapeChars : list ascii := [CmdEsc; StartEsc].

Section Callbacks.
Context {St : Type}.

(** [TextCallback] and [CommandsCallback]: the outcome of the call, and
    the surroundings as the call leaves them. *)
Definition Callback : Type := list ascii → St → Res bool * St.

(** Lines 40-43: [if (!str.empty()) return textFunc(str); return true;] *)
Definition finish (textFunc : Callback) (str : list ascii) (st : St) : Res bool * St :=
  match str with
  | [] => (Ok true, st)
  | _ => textFunc str st
  end.

(** The [while (true)] loop of [processText] (lines 19-44), for at most
    [fuel] iterations; [None] when they do not suffice.  [commandsFunc] is
    [None] for an empty [std::function]. *)
Fixpoint processTextLoop (fuel : nat) (str : list ascii) (textFunc : Callback)
    (commandsFunc : option Callback) (includeCommandSides : bool) (st : St)
    : option (Res bool * St) :=
  match fuel with
  | O => None
  | S fuel' =>
      let escape0 := find_first_of escapeChars str 0 in
      if (escape0 =? NPos)%N then Some (finish textFunc str st) else
      (* escape = str.find_first_not_of(escChars, escape) - 1; *)
      let escape := sizeSub (find_first_not_of escapeChars str escape0) 1 in
      let end_ := find_char EndEsc str escape in
      if (end_ =? NPos)%N then Some (finish textFunc str st) else
      (* if (escape && !textFunc(str.substr(0, escape))) return false; *)
      match (if (escape =? 0)%N then (Ok true, st)
             else match substr str 0 escape with
                  | Throw e => (Throw e, st)
                  | Ok piece => textFunc piece st
                  end) with
      | (Throw e, st1) => Some (Throw e, st1)
      | (Ok false, st1) => Some (Ok false, st1)
      | (Ok true, st1) =>
          (* if (commandsFunc) { ... } *)
          match (match commandsFunc with
                 | None => (Ok true, st1)
                 | Some commandsFunc' =>
                     match (if includeCommandSides
                            then substr str escape (sizeAdd (sizeSub end_ escape) 1)
                            else substr str (sizeAdd escape 1)
                                   (sizeSub (sizeSub end_ escape) 1)) with
                     | Throw e => (Throw e, st1)
                     | Ok [] => (Ok true, st1)
                     | Ok commands => commandsFunc' commands st1
                     end
                 end) with
          | (Throw e, st2) => Some (Throw e, st2)
          | (Ok false, st2) => Some (Ok false, st2)
          | (Ok true, st2) =>
              (* str = str.substr(end + 1); continue; *)
              match substr str (sizeAdd end_ 1) NPos with
              | Throw e => Some (Throw e, st2)
              | Ok rest =>
                  processTextLoop fuel' rest textFunc commandsFunc includeCommandSides st2
              end
          end
      end
  end.

(** [processText(text, textFunc, commandsFunc, includeCommandSides)]:
    every iteration but the last shortens the view, so one more iteration
    than the text has bytes is enough. *)
Definition processText (text : list ascii) (textFunc : Callback)
    (commandsFunc : option Callback) (includeCommandSides : bool) (st : St)
    : option (Res bool * St) :=
  processTextLoop (S (length text)) text textFunc commandsFunc includeCommandSides st.
End Callbacks.

(** ** The pieces handed to the callbacks *)

(** What the callbacks are handed. *)
Inductive Piece : Type :=
  | TextPiece (s : list ascii)
  | CommandsPiece (s : list ascii).

Definition pieceBytes (p : Piece) : list ascii :=
  match p with TextPiece s | CommandsPiece s => s end.

(** Callbacks that accept everything and write down what they are handed. *)
Definition recordText : Callback (St:=list Piece) :=
  λ s seen, (Ok true, seen ++ [TextPiece s]).
Definition recordCommands : Callback (St:=list Piece) :=
  λ s seen, (Ok true, seen ++ [CommandsPiece s]).

(** The pieces of a text, in the order of the calls. *)
Definition pieces (text : list ascii) (includeCommandSides : bool) : list Piece :=
  match processText text recordText (Some recordCommands) includeCommandSides [] with
  | Some (_, seen) => seen
  | None => []
  end.

(** Handing a list of pieces to a pair of callbacks, up to the first
    that refuses or raises. *)
Fixpoint feed {St} (textFunc commandsFunc : Callback (St:=St)) (ps : list Piece) (st : St)
    : Res bool * St :=
  match ps with
  | [] => (Ok true, st)
  | p :: ps' =>
      match (match p with
             | TextPiece s => textFunc s st
             | CommandsPiece s => commandsFunc s st
             end) with
      | (Ok true, st') => feed textFunc commandsFunc ps' st'
      | stopped => stopped
      end
  end.

(** A commands callback that accepts everything and does nothing. *)
Definition ignoreCommands {St} : Callback (St:=St) := λ _ st, (Ok true, st).

(** A commands piece without its sides; [None] when nothing is left. *)
Definition withoutSides (p : Piece) : option Piece :=
  match p with
  | TextPiece s => Some (TextPiece s)
  | CommandsPiece s =>
      match take (length s - 2) (drop 1 s) with
      | [] => None
      | inside => Some (CommandsPiece inside)
      end
  end.

(** ** A reading of one iteration on lists *)

(** The index of the first byte satisfying [p]. *)
Fixpoint indexOf (p : ascii → bool) (s : list ascii) : option nat :=
  match s with
  | [] => None
  | c :: s' => if p c then Some 0 else S <$> indexOf p s'
  end.

Definition isEscape (c : ascii) : bool := bool_decide (c ∈ escapeChars).
Definition isEnd (c : ascii) : bool := bool_decide (c = EndEsc).

(** The next command of [str]: the index [e] of the last byte of the first
    run of escape bytes, provided the run does not reach the end of
    [str], and the distance [j] from there to the next [EndEsc]. *)
Definition nextCommand (str : list ascii) : option (nat * nat) :=
  match indexOf isEscape str with
  | None => None
  | Some f =>
      match indexOf (λ c, negb (isEscape c)) (drop f str) with
      | None => None
      | Some k =>
          match indexOf isEnd (drop (f + k - 1) str) with
          | None => None
          | Some j => Some (f + k - 1, j)
          end
      end
  end.

(** The commands handed over for the command at [e] that ends [j] further. *)
Definition commandsAt (includeCommandSides : bool) (str : list ascii) (e j : nat)
    : list ascii :=
  if includeCommandSides then take (j + 1) (drop e str)
  else if j =? 0 then drop (e + 1) str
  else take (j - 1) (drop (e + 1) str).

(** The pieces of [str], by that reading. *)
Fixpoint scan (fuel : nat) (includeCommandSides : bool) (str : list ascii) : list Piece :=
  match fuel with
  | O => []
  | S fuel' =>
      match nextCommand str with
      | None => match str with [] => [] | _ => [TextPiece str] end
      | Some (e, j) =>
          (if e =? 0 then [] else [TextPiece (take e str)])
          ++ match commandsAt includeCommandSides str e j with
             | [] => []
             | commands => [CommandsPiece commands]
             end
          ++ scan fuel' includeCommandSides (drop (S (e + j)) str)
      end
  end.

(** A commands piece with its sides that is one whole escape code: an
    escape byte, a body free of [EndEsc] that does not begin with an
    escape byte, and [EndEsc]. *)
Definition wholeCommand (s : list ascii) : Prop :=
  ∃ c body,
    s = c :: body ++ [EndEsc]
    ∧ c ∈ escapeChars
    ∧ (EndEsc ∉ body)
    ∧ ∀ d, head body = Some d → d ∉ escapeChars.
End Text.

(** ** preprocessEscapeCodes

    The loop works on the bytes of [result].  [isEscapeCode] is the helper
    of StarText.hpp; the comparisons of a byte with [SpecialCharLimit],
    [StartEsc] and [EndEsc] depend on the types of these constants and on
    the signedness of [char], and are parameters as well. *)
Section Preprocess.
Context (isEscapeCode : ascii → bool).
(** [c <= SpecialCharLimit], [c == StartEsc], [c == EndEsc] *)
Context (belowSpecialCharLimit equalsStartEsc equalsEndEsc : ascii → bool).
(** [StartEsc] as stored into a [char]. *)
Context (StartEsc : ascii).

(** The locals [escape], [escapeStartIdx] and [result]. *)
Record Preprocessing : Type := mkPreprocessing {
  escape : bool;
  escapeStartIdx : nat;
  result : list ascii;
}.

(** The body of the loop (lines 54-62) for index [i]. *)
Definition preprocessAt (i : nat) (l : Preprocessing) : Preprocessing :=
  match result l !! i with
  | None => l
  | Some c =>
      (* if (isEscapeCode(c)) { escape = true; escapeStartIdx = i; } *)
      let l1 := if isEscapeCode c then mkPreprocessing true i (result l) else l in
      (* if ((c <= SpecialCharLimit) && !(c == StartEsc)) escape = false; *)
      let l2 := if belowSpecialCharLimit c && negb (equalsStartEsc c)
                then mkPreprocessing false (escapeStartIdx l1) (result l1) else l1 in
      (* if ((c == EndEsc) && escape) result[escapeStartIdx] = StartEsc; *)
      if equalsEndEsc c && escape l2
      then mkPreprocessing (escape l2) (escapeStartIdx l2)
             (<[escapeStartIdx l2 := StartEsc]> (result l2))
      else l2
  end.

(** [for (size_t i = 0; i < result.size(); i++)], for at most [fuel]
    iterations. *)
Fixpoint preprocessFrom (fuel i : nat) (l : Preprocessing) : Preprocessing :=
  match fuel with
  | O => l
  | S fuel' =>
      if decide (i < length (result l)) then preprocessFrom fuel' (S i) (preprocessAt i l)
      else l
  end.

Definition preprocessEscapeCodes (s : list ascii) : list ascii :=
  result (preprocessFrom (length s) 0 (mkPreprocessing false 0 s)).
End Preprocess.
End Text.
(** [l] holds the bytes of [s] except that escape codes may have become
    [StartEsc]; while [escape] is set, [escapeStartIdx] is the index of an
    escape code of [s]. *)
Definition rewrites (isEscapeCode : ascii → bool) (StartEsc : ascii)
    (s : list ascii) (l : Text.Preprocessing) : Prop :=
  length (Text.result l) = length s
  ∧ (∀ i c, s !! i = Some c →
       Text.result l !! i = Some c
       ∨ (isEscapeCode c = true ∧ Text.result l !! i = Some StartEsc))
  ∧ (Text.escape l = true →
     ∃ c, s !! Text.escapeStartIdx l = Some c ∧ isEscapeCode c = true).

(** ** Scenarios for the text functions *)

(** The bytes of a string literal. *)
Definition bytes (s : string) : list ascii := String.list_ascii_of_string s.

(** [CmdEsc], [StartEsc] and [EndEsc] as a caret, the escape character and
    a semicolon. *)
Definition caret : ascii := "^"%char.
Definition esc : ascii := "027"%char.
Definition semicolon : ascii := ";"%char.

(** Two colour commands, the second after a doubled caret, an empty
    command, and a caret at the very end. *)
Definition markup : list ascii := bytes "Hi ^red;there^^blue;^;!^".

(** A commands callback that refuses. *)
Definition refuseCommands : Text.Callback (St:=list Text.Piece) :=
  λ _ seen, (Ok false, seen).

(** * Properties *)

(** ** The list primitive *)

(** Erasing the first of three ids moves the other two down and leaves the
    last slot of the storage as it was. *)
Example idListRemove_first :
  idListRemove 1 (idListFrom [1; 2; 3]%N) = mkIdList [2; 3; 3]%N 2.
Proof. reflexivity. Qed.

Example idListRemove_middle :
  idListRemove 2 (idListFrom [1; 2; 3]%N) = mkIdList [1; 3; 3]%N 2.
Proof. reflexivity. Qed.

Example idListRemove_last :
  idListRemove 3 (idListFrom [1; 2; 3]%N) = mkIdList [1; 2; 3]%N 2.
Proof. reflexivity. Qed.

Example idListRemove_absent :
  idListRemove 7 (idListFrom [1; 2; 3]%N) = idListFrom [1; 2; 3]%N.
Proof. reflexivity. Qed.

(** Erasing the slot [i] drops the [i]-th live element. *)
Lemma idListEraseAt_values i l x :
  i < count l → count l ≤ length (slots l) → slots l !! i = Some x →
  idListValues (idListEraseAt i l)
  = take i (idListValues l) ++ drop (S i) (idListValues l).
Proof.
  intros Hi Hlen Hx. unfold idListValues, idListEraseAt. cbn [slots count].
  rewrite (assoc_L (++)).
  rewrite take_app_length'.
  2:{ rewrite length_app, !length_take, length_drop. lia. }
  rewrite take_take. replace (i `min` count l) with i by lia.
  f_equal.
  rewrite skipn_firstn_comm. f_equal. lia.
Qed.

(** The scan from slot [i] on keeps the live elements before [i] and, of
    the others, those different from [e]. *)
Lemma idListRemoveFrom_values (e : ConnectionId) : ∀ fuel i l,
  count l ≤ length (slots l) →
  count l - i ≤ fuel →
  idListValues (idListRemoveFrom fuel i e l)
  = take i (idListValues l) ++ filter (λ x, x ≠ e) (drop i (idListValues l)).
Proof.
  assert (Hdone : ∀ i l, count l ≤ i →
            idListValues l = take i (idListValues l)
                             ++ filter (λ x, x ≠ e) (drop i (idListValues l))).
  { intros i l Hi. unfold idListValues.
    rewrite (drop_ge (take (count l) (slots l)) i) by (rewrite length_take; lia).
    rewrite (take_ge (take (count l) (slots l)) i) by (rewrite length_take; lia).
    by rewrite app_nil_r. }
  induction fuel as [|fuel IH]; intros i l Hlen Hfuel.
  - cbn. apply Hdone. lia.
  - cbn [idListRemoveFrom]. case_decide as Hi; [|apply Hdone; lia].
    destruct (slots l !! i) as [x|] eqn:Hx.
    2:{ apply lookup_ge_None in Hx. lia. }
    assert (Hxv : idListValues l !! i = Some x).
    { unfold idListValues. by rewrite lookup_take_lt. }
    rewrite (drop_S _ _ _ Hxv), filter_cons.
    case_decide as Heq.
    + subst x. rewrite decide_False by (by intros Hne; apply Hne).
      rewrite IH.
      * rewrite (idListEraseAt_values i l e) by done.
        rewrite take_app_length' by (rewrite length_take; unfold idListValues; rewrite length_take; lia).
        rewrite drop_app_length' by (rewrite length_take; unfold idListValues; rewrite length_take; lia).
        done.
      * cbn. rewrite !length_app, !length_take, !length_drop. lia.
      * cbn. lia.
    + rewrite decide_True by done.
      rewrite IH by (done || lia).
      rewrite (take_S_r _ i x) by done.
      by rewrite <-(assoc_L (++)).
Qed.

(** After [remove(e)] the live elements are the former ones without [e];
    it is the storage behind them that the running loop still reads. *)
Lemma idListRemove_values (e : ConnectionId) (ids : list ConnectionId) :
  idListValues (idListRemove e (idListFrom ids)) = filter (λ x, x ≠ e) ids.
Proof.
  unfold idListRemove. rewrite idListRemoveFrom_values; cbn; [|done|lia].
  unfold idListValues. cbn. by rewrite firstn_all.
Qed.

(** ** The fidelity controller *)

Section Controller.
Local Open Scope float_scope.

Lemma decrement_cast (f : WorldServerFidelity) :
  (if (fidelityToInt Minimum <? fidelityToInt f)%Z
   then fidelityOfInt (fidelityToInt f - 1) else f) = oneLevelDown f.
Proof. by destruct f. Qed.

Lemma increment_cast (f : WorldServerFidelity) :
  (if (fidelityToInt f <? fidelityToInt High)%Z
   then fidelityOfInt (fidelityToInt f + 1) else f) = oneLevelUp f.
Proof. by destruct f. Qed.

(** A positive threshold is not reached by a score of zero. *)
Lemma zero_below_positive (inc : float) :
  (0 <? inc) = true → (inc <=? 0) = false.
Proof.
  rewrite ltb_spec, leb_spec.
  change (Prim2SF 0) with (S754_zero false).
  unfold SFltb, SFleb.
  destruct (Prim2SF inc) as [[]|[]| |[] m e]; cbn; congruence.
Qed.

(** A score at or below a threshold that is not positive is below every
    positive threshold. *)
Lemma thresholds_exclusive (score dec inc : float) :
  (dec <=? 0) = true → (0 <? inc) = true →
  (score <=? dec) = true → (inc <=? score) = false.
Proof.
  rewrite ltb_spec, !leb_spec.
  change (Prim2SF 0) with (S754_zero false).
  unfold SFltb, SFleb.
  destruct (Prim2SF inc) as [[]|[]| |[] mi ei];
    destruct (Prim2SF dec) as [[]|[]| |[] md ed];
    destruct (Prim2SF score) as [[]|[]| |[] ms es];
    cbn; congruence.
Qed.

Lemma fidelity_step_size (f : WorldServerFidelity) :
  fidelityToInt (oneLevelDown f) = Z.max 0 (fidelityToInt f - 1) ∧
  fidelityToInt (oneLevelUp f) = Z.min 3 (fidelityToInt f + 1).
Proof. by destruct f. Qed.

(** C3. One iteration of the controller with thresholds [dec <= 0 < inc]:
    the score is first increased by the spare time; a score at or below
    [dec] lowers the level by exactly one, floored at Minimum, and resets
    the score; a score at or above [inc] raises the level by exactly one,
    capped at High, and resets the score, also when the level already
    stands at its bound; the two cases exclude each other, so there is at
    most one adjustment, and otherwise level and accumulated score stay. *)
Theorem adjustFidelity_single_adjustment (dec inc spare : float) (st : FidelityState) :
  (dec <=? 0) = true →
  (0 <? inc) = true →
  let score := fidelityScore st + spare in
  let st' := adjustFidelity dec inc spare st in
  ((score <=? dec) = true →
     automaticFidelity st' = oneLevelDown (automaticFidelity st)
     ∧ fidelityScore st' = 0
     ∧ fidelityToInt (automaticFidelity st')
       = Z.max (fidelityToInt Minimum) (fidelityToInt (automaticFidelity st) - 1))
  ∧ ((inc <=? score) = true →
     automaticFidelity st' = oneLevelUp (automaticFidelity st)
     ∧ fidelityScore st' = 0
     ∧ fidelityToInt (automaticFidelity st')
       = Z.min (fidelityToInt High) (fidelityToInt (automaticFidelity st) + 1))
  ∧ ((score <=? dec) = false → (inc <=? score) = false →
     automaticFidelity st' = automaticFidelity st ∧ fidelityScore st' = score)
  ∧ ((score <=? dec) = true → (inc <=? score) = false)
  ∧ (Z.abs (fidelityToInt (automaticFidelity st') - fidelityToInt (automaticFidelity st)) <= 1)%Z.
Proof.
  intros Hdec Hinc score st'.
  assert (Hzero : (inc <=? 0) = false) by by apply zero_below_positive.
  assert (Hexcl : (score <=? dec) = true → (inc <=? score) = false)
    by by apply thresholds_exclusive.
  subst st'. unfold adjustFidelity. fold score.
  rewrite decrement_cast.
  destruct (score <=? dec) eqn:Hlow.
  - rewrite Hzero. cbn [fidelityScore automaticFidelity].
    rewrite (Hexcl eq_refl).
    repeat split; try done; by destruct (automaticFidelity st).
  - rewrite increment_cast.
    destruct (inc <=? score) eqn:Hhigh; cbn [fidelityScore automaticFidelity];
      repeat split; try done; by destruct (automaticFidelity st).
Qed.

(** The controller at thresholds -1 and 1: a deficit of one second at
    Medium gives Low, and the score starts again from zero. *)
Lemma adjustFidelity_single_adjustment_witness :
  automaticFidelity (adjustFidelity (-1) 1 (-1) (mkFidelityState 0 Medium)) = Low
  ∧ fidelityScore (adjustFidelity (-1) 1 (-1) (mkFidelityState 0 Medium)) = 0.
Proof.
  pose proof (adjustFidelity_single_adjustment (-1) 1 (-1) (mkFidelityState 0 Medium)
                eq_refl eq_refl) as H.
  cbv zeta in H. destruct H as [Hdown _].
  destruct (Hdown eq_refl) as (Hlevel & Hscore & _).
  split; [exact Hlevel | exact Hscore].
Defined.
End Controller.

(** ** Fault containment and removal *)

Section Boundary.
Context {Packet SpawnTarget WorldChunks E : Type}.
Context (ws : WorldServer Packet SpawnTarget WorldChunks E).
Context (noChunks : WorldChunks).
Context (fidelityNames : string → option WorldServerFidelity).

Implicit Types (h : Host Packet E) (clientId : ConnectionId).

Lemma caught_eq e h : caught e h = (Ok tt, flagged e h).
Proof. done. Qed.

Lemma guarded_eq {A} (body : M Packet E A) (safe : A) h :
  tryCatch body (λ e, bind (caught e) (λ _, ret safe)) h =
    match body h with
    | (Ok a, h') => (Ok a, h')
    | (Throw e, h') => (Ok safe, flagged e h')
    end.
Proof. unfold tryCatch. by destruct (body h) as [[a|e] h']. Qed.


Lemma removeClient_no_throw clientId h :
  isThrow (fst (removeClient ws clientId h)) = false.
Proof.
  unfold removeClient. case_decide; [|done].
  by destruct (removeClientTry ws clientId h) as [r [out h1]].
Qed.



(** C4. [removeClient] on an id that is not registered returns the empty
    list and leaves the host as it was; on a registered id, whatever the
    engine calls did, the id is afterwards absent from the registry and
    from both queue maps. *)
Theorem removeClient_unregisters clientId h :
  (clientId ∉ m_clients h → removeClient ws clientId h = (Ok [], h))
  ∧ (clientId ∈ m_clients h →
       (clientId ∉ m_clients (snd (removeClient ws clientId h)))
       ∧ m_incomingPacketQueue (snd (removeClient ws clientId h)) !! clientId = None
       ∧ m_outgoingPacketQueue (snd (removeClient ws clientId h)) !! clientId = None).
Proof.
  unfold removeClient. split; intros Hreg.
  - by rewrite decide_False.
  - rewrite decide_True by done.
    destruct (removeClientTry ws clientId h) as [r [out h1]].
    cbn. rewrite !lookup_delete_eq. split; [|done].
    intros [_ Hne]%elem_of_difference. by apply Hne, elem_of_singleton.
Qed.

(** C10. When delivering the drained incoming packets raises during
    [removeClient] of a registered id the engine still knows, the call
    returns the empty list and both queue entries of the id are dropped
    with whatever they held; no other entry changes. *)
Theorem removeClient_fault_discards_pending clientId h e e' :
  clientId ∈ m_clients h →
  ws_hasClient ws clientId (m_worldServer h) = true →
  ws_handleIncomingPackets ws clientId
    (queueAt (m_incomingPacketQueue h) clientId) (m_worldServer h) = (Throw e, e') →
  fst (removeClient ws clientId h) = Ok []
  ∧ m_outgoingPacketQueue (snd (removeClient ws clientId h))
    = delete clientId (m_outgoingPacketQueue h)
  ∧ m_incomingPacketQueue (snd (removeClient ws clientId h))
    = delete clientId (m_incomingPacketQueue h)
  ∧ m_errorOccurred (snd (removeClient ws clientId h)) = true.
Proof.
  intros Hreg Hhas Hthrow.
  unfold removeClient. rewrite decide_True by done.
  unfold removeClientTry. cbn. rewrite Hhas. unfold engine. cbn. rewrite Hthrow.
  cbn. by rewrite delete_insert_eq.
Qed.
End Boundary.

(** ** Reasoning rules for host computations *)

Section Rules.
Context {Packet E : Type}.
Implicit Types (h : Host Packet E) (P I : Host Packet E → Prop).

Lemma hoare_ret {A} P (a : A) (Q : Res A → Host Packet E → Prop) :
  (∀ h, P h → Q (Ok a) h) → hoare P (ret a) Q.
Proof. intros HQ h HP. by apply HQ. Qed.

Lemma hoare_bind {A B} P (R : A → Host Packet E → Prop) (c : M Packet E A)
    (k : A → M Packet E B) (Q : Res B → Host Packet E → Prop) :
  hoare P c (λ r h, match r with Ok a => R a h | Throw e => Q (Throw e) h end) →
  (∀ a, hoare (R a) (k a) Q) →
  hoare P (bind c k) Q.
Proof.
  intros Hc Hk h HP. specialize (Hc h HP). unfold bind.
  destruct (c h) as [[a|e] h1]; cbn in *; [by apply Hk | done].
Qed.

Lemma hoare_tryCatch {A} P (R : exception → Host Packet E → Prop)
    (body : M Packet E A) (handler : exception → M Packet E A)
    (Q : Res A → Host Packet E → Prop) :
  hoare P body (λ r h, match r with Ok a => Q (Ok a) h | Throw e => R e h end) →
  (∀ e, hoare (R e) (handler e) Q) →
  hoare P (tryCatch body handler) Q.
Proof.
  intros Hb Hh h HP. specialize (Hb h HP). unfold tryCatch.
  destruct (body h) as [[a|e] h1]; cbn in *; [done | by apply Hh].
Qed.

Lemma hoare_consequence {A} P P' (c : M Packet E A)
    (Q Q' : Res A → Host Packet E → Prop) :
  hoare P' c Q' → (∀ h, P h → P' h) → (∀ r h, Q' r h → Q r h) → hoare P c Q.
Proof. intros Hc HP HQ h Hh. by apply HQ, Hc, HP. Qed.

Lemma stable_ret {A} I (a : A) : stable I (ret (Packet:=Packet) (E:=E) a).
Proof. by intros h. Qed.

Lemma stable_raise {A} I e : stable I (raise (Packet:=Packet) (E:=E) (A:=A) e).
Proof. by intros h. Qed.

Lemma stable_gets {A} I (f : Host Packet E → A) : stable I (gets f).
Proof. by intros h. Qed.

Lemma stable_modify I (f : Host Packet E → Host Packet E) :
  (∀ h, I h → I (f h)) → stable I (modify f).
Proof. intros Hf h HI. by apply Hf. Qed.

Lemma stable_bind {A B} I (c : M Packet E A) (k : A → M Packet E B) :
  stable I c → (∀ a, stable I (k a)) → stable I (bind c k).
Proof.
  intros Hc Hk. apply hoare_bind with (R := λ _, I); [|done].
  intros h HI. specialize (Hc h HI). by destruct (c h) as [[a|e] h1].
Qed.

Lemma stable_tryCatch {A} I (body : M Packet E A) (handler : exception → M Packet E A) :
  stable I body → (∀ e, stable I (handler e)) → stable I (tryCatch body handler).
Proof.
  intros Hb Hh. apply hoare_tryCatch with (R := λ _, I); [|done].
  intros h HI. specialize (Hb h HI). by destruct (body h) as [[a|e] h1].
Qed.

Lemma stable_engine {A} I (op : E → Res A * E) :
  (∀ h, I h → I (withWorldServer (snd (op (m_worldServer h))) h)) →
  stable I (engine op).
Proof.
  intros Hop h HI. specialize (Hop h HI). unfold engine.
  by destruct (op (m_worldServer h)).
Qed.

Lemma stable_guarded {A} I (body : M Packet E A) (safe : A) :
  stable I body → (∀ e, stable I (caught e)) →
  stable I (tryCatch body (λ e, bind (caught e) (λ _, ret safe))).
Proof.
  intros Hbody Hcaught. apply stable_tryCatch; [done|]. intros e.
  apply stable_bind; [done|]. intros _. apply stable_ret.
Qed.

Lemma stable_if {A} I (b : bool) (c1 c2 : M Packet E A) :
  stable I c1 → stable I c2 → stable I (if b then c1 else c2).
Proof. by destruct b. Qed.

(** An assertion over registry and queues is kept by whatever only
    touches the engine, the flags or the log. *)
Lemma queuesOnly_engine {A} I (op : E → Res A * E) :
  queuesOnly I → stable I (engine op).
Proof. intros HI. apply stable_engine. intros h. by apply HI. Qed.

Lemma queuesOnly_logError I entry : queuesOnly I → stable I (logError entry).
Proof. intros HI. apply stable_modify. intros h. by apply HI. Qed.

Lemma queuesOnly_caught I e : queuesOnly I → stable I (caught e).
Proof.
  intros HI. apply stable_bind; [by apply queuesOnly_logError|].
  intros _. apply stable_modify. intros h. by apply HI.
Qed.
End Rules.

(** ** What a tick keeps *)

Section TickFrame.
Context {Packet SpawnTarget WorldChunks E : Type}.
Context (ws : WorldServer Packet SpawnTarget WorldChunks E).
Implicit Types (h : Host Packet E) (I : Host Packet E → Prop).

Lemma runQueueCalls_stable I :
  (∀ q, stable I (runQueueCall q)) → ∀ qs, stable I (runQueueCalls qs).
Proof.
  intros Hq. induction qs as [|q rest IH]; cbn.
  - apply stable_ret.
  - apply stable_bind; [apply Hq | intros _; apply IH].
Qed.

Lemma lockQueue_stable I :
  (∀ h o, I h → I (withOtherThreads o h)) →
  (∀ q, stable I (runQueueCall q)) →
  stable I lockQueue.
Proof.
  intros Ho Hq h HI. unfold lockQueue.
  destruct (otherThreads h) as [|batch later]; [done|].
  by apply runQueueCalls_stable, Ho.
Qed.

Lemma runQueueCalls_no_throw qs : ∀ h : Host Packet E,
  isThrow (fst (runQueueCalls qs h)) = false.
Proof.
  induction qs as [|q rest IH]; intros h; [done|].
  cbn. unfold bind at 1.
  destruct q as [clientId packets|clientId]; cbn; apply IH.
Qed.

Lemma lockQueue_no_throw (h : Host Packet E) : isThrow (fst (lockQueue h)) = false.
Proof.
  unfold lockQueue. destruct (otherThreads h); [done|]. apply runQueueCalls_no_throw.
Qed.

(** Taking the queue lock under an assertion the other threads keep. *)
Lemma hoare_lockQueue {B} (P : Host Packet E → Prop) (k : unit → M Packet E B)
    (Q : Res B → Host Packet E → Prop) :
  stable P lockQueue → hoare P (k tt) Q → hoare P (bind lockQueue k) Q.
Proof.
  intros Hlock Hk h HP. specialize (Hlock h HP).
  pose proof (lockQueue_no_throw h) as Hok. unfold bind.
  destruct (lockQueue h) as [[[]|e] h1]; [by apply Hk | done].
Qed.

(** The batches of the other threads keep what queue calls keep. *)
Lemma lockQueue_kept I : keptByQueueCalls I → stable I lockQueue.
Proof.
  intros (Ho & Ht & Hin & Hout). apply lockQueue_stable; [done|].
  intros [clientId packets|clientId]; cbn.
  - apply stable_bind; [|intros _].
    + apply stable_modify. intros h HI. by apply Hin.
    + apply stable_modify. intros h HI. by apply Ht.
  - apply stable_bind; [|intros _; apply stable_ret].
    apply stable_bind; [|intros packets].
    + intros h HI. by apply Hout.
    + apply stable_bind; [|intros _; apply stable_ret].
      apply stable_modify. intros h HI. by apply Ht.
Qed.

Lemma deliverClient_stable I clientId ids :
  stable I lockQueue →
  stable I (takeIncoming clientId) →
  (∀ packets, stable I (engine (ws_handleIncomingPackets ws clientId packets))) →
  (∀ e, stable I (logError (LogClientException clientId e))) →
  stable I (touchOutgoing clientId) →
  stable I (engine (ws_removeClient ws clientId)) →
  (∀ packets, stable I (appendOutgoing clientId packets)) →
  stable I (deliverClient ws clientId ids).
Proof.
  intros Hlock Htake Hhandle Hlog Htouch Hremove Happend. unfold deliverClient.
  apply stable_bind; [done|]. intros _.
  apply stable_bind; [done|]. intros incoming.
  apply stable_tryCatch.
  - apply stable_bind; [done|]. intros _. apply stable_ret.
  - intros e.
    apply stable_bind; [done|]. intros _.
    apply stable_bind; [done|]. intros _.
    apply stable_bind; [done|]. intros _.
    apply stable_bind; [done|]. intros final.
    apply stable_bind; [done|]. intros _. apply stable_ret.
Qed.

Lemma collectClient_stable I clientId :
  stable I lockQueue →
  stable I (engine (ws_getOutgoingPackets ws clientId)) →
  (∀ packets, stable I (appendOutgoing clientId packets)) →
  stable I (collectClient ws clientId).
Proof.
  intros Hlock Hget Happend. unfold collectClient.
  apply stable_bind; [done|]. intros packets.
  apply stable_bind; [done|]. intros _. done.
Qed.

Lemma deliverLoop_stable I :
  (∀ clientId ids, stable I (deliverClient ws clientId ids)) →
  ∀ remaining i ids, stable I (deliverLoop ws remaining i ids).
Proof.
  intros Hbody. induction remaining as [|n IH]; intros i ids; cbn.
  - apply stable_ret.
  - destruct (slots ids !! i) as [clientId|]; [|apply stable_ret].
    apply stable_bind; [apply Hbody | intros ids'; apply IH].
Qed.

Lemma collectLoop_stable I :
  (∀ clientId, stable I (collectClient ws clientId)) →
  ∀ ids, stable I (collectLoop ws ids).
Proof.
  intros Hbody. induction ids as [|clientId rest IH]; cbn.
  - apply stable_ret.
  - apply stable_bind; [apply Hbody | intros _; apply IH].
Qed.

Lemma update_stable I fidelity :
  (∀ clientId ids, stable I (deliverClient ws clientId ids)) →
  (∀ clientId, stable I (collectClient ws clientId)) →
  stable I (engine (ws_setFidelity ws fidelity)) →
  stable I (stepEngine ws) →
  stable I runUpdateAction →
  stable I (update ws fidelity).
Proof.
  intros Hdeliver Hcollect Hfid Hstep Hhook. unfold update.
  apply stable_bind; [apply stable_gets|]. intros ids0.
  apply stable_bind; [by apply deliverLoop_stable|]. intros ids.
  apply stable_bind; [done|]. intros _.
  apply stable_bind; [done|]. intros _.
  apply stable_bind; [by apply collectLoop_stable|]. intros _. done.
Qed.

Lemma tick_stable I fidelity :
  stable I (update ws fidelity) → (∀ e, stable I (caught e)) →
  stable I (tick ws fidelity).
Proof. intros Hu Hc. by apply stable_tryCatch. Qed.
End TickFrame.

Section TickKeeps.
Context {Packet SpawnTarget WorldChunks E : Type}.
Context (ws : WorldServer Packet SpawnTarget WorldChunks E).
Implicit Types (h : Host Packet E) (I : Host Packet E → Prop).

Lemma takeIncoming_keeps I clientId : keptByInserts I → stable I (takeIncoming clientId).
Proof. intros (_ & Hin & _) h HI. by apply Hin. Qed.

Lemma takeOutgoing_keeps I clientId : keptByInserts I → stable I (takeOutgoing clientId).
Proof. intros (_ & _ & Hout) h HI. by apply Hout. Qed.

Lemma touchOutgoing_keeps I clientId : keptByInserts I → stable I (touchOutgoing clientId).
Proof. intros (_ & _ & Hout). apply stable_modify. intros h HI. by apply Hout. Qed.

Lemma appendOutgoing_keeps I clientId packets :
  keptByInserts I → stable I (appendOutgoing clientId packets).
Proof. intros (_ & _ & Hout). apply stable_modify. intros h HI. by apply Hout. Qed.

Lemma pushIncomingPackets_keeps I clientId packets :
  keptByInserts I → stable I (pushIncomingPackets clientId packets).
Proof. intros (_ & Hin & _). apply stable_modify. intros h HI. by apply Hin. Qed.

Lemma keptByInserts_queueCalls I : keptByInserts I → keptByQueueCalls I.
Proof.
  intros (Hq & Hin & Hout). repeat split; [| |done|done].
  - intros h o. by apply Hq.
  - intros h t. by apply Hq.
Qed.

Lemma lockQueue_keeps I : keptByInserts I → stable I lockQueue.
Proof. intros HI. by apply lockQueue_kept, keptByInserts_queueCalls. Qed.

Lemma dispatchPush_keeps I clientId packets :
  keptByInserts I → stable I (dispatchPush clientId packets).
Proof.
  intros HI. pose proof HI as (Hq & _). unfold dispatchPush.
  apply stable_bind; [by apply pushIncomingPackets_keeps|]. intros _.
  apply stable_modify. intros h. by apply Hq.
Qed.

Lemma dispatchPull_keeps I clientId :
  keptByInserts I → stable I (dispatchPull clientId).
Proof.
  intros HI. pose proof HI as (Hq & _). unfold dispatchPull.
  apply stable_bind; [by apply takeOutgoing_keeps|]. intros packets.
  apply stable_bind; [|intros _; apply stable_ret].
  apply stable_modify. intros h. by apply Hq.
Qed.

Lemma deliverClient_keeps I clientId ids :
  keptByInserts I → stable I (deliverClient ws clientId ids).
Proof.
  intros HI. pose proof HI as (Hq & _). apply deliverClient_stable.
  - by apply lockQueue_keeps.
  - by apply takeIncoming_keeps.
  - intros. by apply queuesOnly_engine.
  - intros. by apply queuesOnly_logError.
  - by apply touchOutgoing_keeps.
  - by apply queuesOnly_engine.
  - intros. by apply appendOutgoing_keeps.
Qed.

Lemma collectClient_keeps I clientId :
  keptByInserts I → stable I (collectClient ws clientId).
Proof.
  intros HI. pose proof HI as (Hq & _). apply collectClient_stable.
  - by apply lockQueue_keeps.
  - by apply queuesOnly_engine.
  - intros. by apply appendOutgoing_keeps.
Qed.

Lemma stepEngine_queuesOnly I : queuesOnly I → stable I (stepEngine ws).
Proof.
  intros Hq. unfold stepEngine. apply stable_bind; [apply stable_gets|].
  intros pause. apply stable_if; [by apply queuesOnly_engine | apply stable_ret].
Qed.

Lemma runUpdateAction_queuesOnly I :
  queuesOnly I → stable I (runUpdateAction (Packet:=Packet) (E:=E)).
Proof.
  intros Hq. unfold runUpdateAction. apply stable_bind; [apply stable_gets|].
  intros [action|]; [by apply queuesOnly_engine | apply stable_ret].
Qed.

Lemma update_keeps I fidelity : keptByInserts I → stable I (update ws fidelity).
Proof.
  intros HI. pose proof HI as (Hq & _). apply update_stable.
  - intros. by apply deliverClient_keeps.
  - intros. by apply collectClient_keeps.
  - by apply queuesOnly_engine.
  - by apply stepEngine_queuesOnly.
  - by apply runUpdateAction_queuesOnly.
Qed.

(** A tick neither registers nor unregisters a client and removes no queue
    entry. *)
Lemma tick_keeps I fidelity : keptByInserts I → stable I (tick ws fidelity).
Proof.
  intros HI. pose proof HI as (Hq & _).
  apply tick_stable; [by apply update_keeps|]. intros e. by apply queuesOnly_caught.
Qed.

Lemma guarded_queuesOnly {A} I (body : M Packet E A) (safe : A) :
  queuesOnly I → stable I body →
  stable I (tryCatch body (λ e, bind (caught e) (λ _, ret safe))).
Proof.
  intros Hq Hbody. apply stable_tryCatch; [done|]. intros e.
  apply stable_bind; [by apply queuesOnly_caught|]. intros _. apply stable_ret.
Qed.

Lemma keptByInserts_registered clientId :
  keptByInserts (λ h, clientId ∈ m_clients h).
Proof.
  repeat split.
  - intros h h' Hc _ _. by rewrite Hc.
  - done.
  - done.
Qed.

Lemma keptByInserts_unregistered clientId :
  keptByInserts (λ h, clientId ∉ m_clients h).
Proof.
  repeat split.
  - intros h h' Hc _ _. by rewrite Hc.
  - done.
  - done.
Qed.

Lemma keptByInserts_incoming clientId :
  keptByInserts (λ h, is_Some (m_incomingPacketQueue h !! clientId)).
Proof.
  repeat split.
  - intros h h' _ Hin _. by rewrite Hin.
  - intros h c l Hsome. cbn. rewrite lookup_insert_is_Some.
    destruct (decide (c = clientId)); [by left | by right].
  - done.
Qed.

Lemma keptByInserts_outgoing clientId :
  keptByInserts (λ h, is_Some (m_outgoingPacketQueue h !! clientId)).
Proof.
  repeat split.
  - intros h h' _ _ Hout. by rewrite Hout.
  - done.
  - intros h c l Hsome. cbn. rewrite lookup_insert_is_Some.
    destruct (decide (c = clientId)); [by left | by right].
Qed.
End TickKeeps.

(** ** Registry and queue entries across calls *)

Section Entries.
Context {Packet SpawnTarget WorldChunks E : Type}.
Context (ws : WorldServer Packet SpawnTarget WorldChunks E).
Context (noChunks : WorldChunks).
Implicit Types (h : Host Packet E) (I : Host Packet E → Prop).
Implicit Types (clientId : ConnectionId) (c : Call Packet SpawnTarget E).

Lemma removeClientTry_footprint clientId h :
  let h1 := snd (snd (removeClientTry ws clientId h)) in
  m_clients h1 = m_clients h
  ∧ m_incomingPacketQueue h1 = <[clientId := []]> (m_incomingPacketQueue h)
  ∧ (m_outgoingPacketQueue h1 = m_outgoingPacketQueue h
     ∨ m_outgoingPacketQueue h1 = <[clientId := []]> (m_outgoingPacketQueue h)).
Proof.
  unfold removeClientTry. cbn.
  set (h0 := withIncoming _ h).
  destruct (ws_hasClient ws clientId (m_worldServer h)); unfold engine; cbn.
  - destruct (ws_handleIncomingPackets ws clientId _ _) as [[[]|e] e1]; cbn.
    + destruct (ws_hasClient ws clientId e1); cbn.
      * destruct (ws_removeClient ws clientId e1) as [[final|e2] e3]; cbn; auto.
      * auto.
    + auto.
  - destruct (ws_hasClient ws clientId (m_worldServer h)); cbn.
    + destruct (ws_removeClient ws clientId _) as [[final|e2] e3]; cbn; auto.
    + auto.
Qed.

(** What [removeClient] of a registered id does to registry and queues. *)
Lemma removeClient_footprint clientId h :
  clientId ∈ m_clients h →
  m_clients (snd (removeClient ws clientId h)) = m_clients h ∖ {[clientId]}
  ∧ m_incomingPacketQueue (snd (removeClient ws clientId h))
    = delete clientId (m_incomingPacketQueue h)
  ∧ m_outgoingPacketQueue (snd (removeClient ws clientId h))
    = delete clientId (m_outgoingPacketQueue h).
Proof.
  intros Hreg. pose proof (removeClientTry_footprint clientId h) as (Hc & Hin & Hout).
  unfold removeClient. rewrite decide_True by done.
  destruct (removeClientTry ws clientId h) as [r [out h1]]. cbn in *.
  destruct r as [[]|e]; cbn; rewrite Hc, Hin, delete_insert_eq;
    (repeat split; [idtac]);
    (destruct Hout as [-> | ->]; [done | by rewrite delete_insert_eq]).
Qed.

Lemma reply_snd {A} (f : A → Reply Packet WorldChunks) (m : M Packet E A) h :
  snd (reply f m h) = snd (m h).
Proof. unfold reply. by destruct (m h) as [[a|e] h']. Qed.

(** A call keeps an assertion over registry and queues that survives queue
    inserts, provided the registration or removal it may make does. *)
Lemma perform_stable I c h :
  keptByInserts I →
  (∀ h id t l, c = CallAddClient id t l →
     I h → I (withClients ({[id]} ∪ m_clients h) h)) →
  (∀ h id, c = CallRemoveClient id → I h → I (snd (removeClient ws id h))) →
  I h → I (snd (perform ws noChunks c h)).
Proof.
  intros HI Hadd Hremove. pose proof HI as (Hq & _).
  destruct c; cbn [perform]; rewrite ?reply_snd.
  - apply guarded_queuesOnly; [done | by apply queuesOnly_engine].
  - apply guarded_queuesOnly; [done|].
    apply stable_bind; [by apply queuesOnly_engine|].
    intros [|]; [|apply stable_ret].
    apply stable_bind; [|intros _; apply stable_ret].
    apply stable_modify. intros h'. by eapply Hadd.
  - by apply Hremove.
  - by apply dispatchPush_keeps.
  - by apply dispatchPull_keeps.
  - apply guarded_queuesOnly; [done|].
    apply stable_bind; [by apply queuesOnly_engine|].
    intros [p|]; apply stable_ret.
  - apply guarded_queuesOnly; [done | by apply queuesOnly_engine].
  - by apply queuesOnly_engine.
  - by apply Hq.
  - apply guarded_queuesOnly; [done | by apply queuesOnly_engine].
  - by apply Hq.
  - by apply tick_keeps.
Qed.

Lemma removeClient_other_keeps clientId id h :
  id ≠ clientId →
  (clientId ∈ m_clients h → clientId ∈ m_clients (snd (removeClient ws id h)))
  ∧ (is_Some (m_incomingPacketQueue h !! clientId) →
     is_Some (m_incomingPacketQueue (snd (removeClient ws id h)) !! clientId))
  ∧ (is_Some (m_outgoingPacketQueue h !! clientId) →
     is_Some (m_outgoingPacketQueue (snd (removeClient ws id h)) !! clientId)).
Proof.
  intros Hne. destruct (decide (id ∈ m_clients h)) as [Hreg|Hreg].
  - destruct (removeClient_footprint id h Hreg) as (-> & -> & ->).
    rewrite !lookup_delete_ne by done. repeat split; [|done|done].
    intros Hin. apply elem_of_difference. split; [done|].
    by intros ->%elem_of_singleton.
  - unfold removeClient. by rewrite decide_False.
Qed.

(** Every call other than [removeClient(clientId)] keeps [clientId]
    registered and keeps its queue entries. *)
Lemma perform_keeps_entries clientId c h :
  removes clientId c = false →
  (clientId ∈ m_clients h → clientId ∈ m_clients (snd (perform ws noChunks c h)))
  ∧ (is_Some (m_incomingPacketQueue h !! clientId) →
     is_Some (m_incomingPacketQueue (snd (perform ws noChunks c h)) !! clientId))
  ∧ (is_Some (m_outgoingPacketQueue h !! clientId) →
     is_Some (m_outgoingPacketQueue (snd (perform ws noChunks c h)) !! clientId)).
Proof.
  intros Hc.
  assert (Hne : ∀ id, c = CallRemoveClient id → id ≠ clientId).
  { intros id ->. cbn in Hc. by apply bool_decide_eq_false in Hc. }
  repeat split.
  - apply (perform_stable (λ h, clientId ∈ m_clients h)).
    + apply keptByInserts_registered.
    + intros h' id _ _ _ Hin. cbn. by apply elem_of_union_r.
    + intros h' id Hcall. by apply removeClient_other_keeps, Hne.
  - apply (perform_stable (λ h, is_Some (m_incomingPacketQueue h !! clientId))).
    + apply keptByInserts_incoming.
    + done.
    + intros h' id Hcall. by apply removeClient_other_keeps, Hne.
  - apply (perform_stable (λ h, is_Some (m_outgoingPacketQueue h !! clientId))).
    + apply keptByInserts_outgoing.
    + done.
    + intros h' id Hcall. by apply removeClient_other_keeps, Hne.
Qed.

Lemma performAll_cons c calls h :
  performAll ws noChunks (c :: calls) h
  = (fst (perform ws noChunks c h)
       :: fst (performAll ws noChunks calls (snd (perform ws noChunks c h))),
     snd (performAll ws noChunks calls (snd (perform ws noChunks c h)))).
Proof.
  cbn. destruct (perform ws noChunks c h) as [r h1]. cbn.
  by destruct (performAll ws noChunks calls h1).
Qed.

Lemma performAll_snd_cons c calls h :
  snd (performAll ws noChunks (c :: calls) h)
  = snd (performAll ws noChunks calls (snd (perform ws noChunks c h))).
Proof.
  cbn. destruct (perform ws noChunks c h) as [r h1]. cbn.
  by destruct (performAll ws noChunks calls h1).
Qed.

(** An id that is not registered stays so as long as no [addClient]
    names it, and through all such calls its queue entries stay. *)
Lemma performAll_keeps_stray clientId calls : ∀ h,
  Forall (λ c, registers clientId c = false) calls →
  clientId ∉ m_clients h →
  (clientId ∉ m_clients (snd (performAll ws noChunks calls h)))
  ∧ (is_Some (m_incomingPacketQueue h !! clientId) →
     is_Some (m_incomingPacketQueue (snd (performAll ws noChunks calls h)) !! clientId))
  ∧ (is_Some (m_outgoingPacketQueue h !! clientId) →
     is_Some (m_outgoingPacketQueue (snd (performAll ws noChunks calls h)) !! clientId)).
Proof.
  induction calls as [|c calls IH]; intros h Hcalls Hstray; [done|].
  apply Forall_cons in Hcalls as [Hc Hcalls].
  rewrite performAll_snd_cons.
  assert (Hstray' : clientId ∉ m_clients (snd (perform ws noChunks c h))).
  { revert Hstray. apply (perform_stable (λ h, clientId ∉ m_clients h)).
    - apply keptByInserts_unregistered.
    - intros h' id t l -> Hout. cbn in Hc. apply bool_decide_eq_false in Hc.
      cbn. by intros [->%elem_of_singleton | Hin]%elem_of_union.
    - intros h' id _ Hout. destruct (decide (id ∈ m_clients h')) as [Hreg|Hreg].
      + destruct (removeClient_footprint id h' Hreg) as (-> & _).
        by intros [Hin _]%elem_of_difference.
      + unfold removeClient. by rewrite decide_False. }
  destruct (IH _ Hcalls Hstray') as (H1 & H2 & H3).
  assert (Hkeep : removes clientId c = false ∨ snd (perform ws noChunks c h) = h).
  { destruct (removes clientId c) eqn:Hrem; [right | by left].
    destruct c; try discriminate. cbn in Hrem. apply bool_decide_eq_true in Hrem.
    subst. cbn. rewrite reply_snd. unfold removeClient. by rewrite decide_False. }
  destruct Hkeep as [Hrem | Hsame].
  - destruct (perform_keeps_entries clientId c h Hrem) as (_ & K2 & K3).
    split; [done|]. split; intros; [apply H2, K2 | apply H3, K3]; done.
  - rewrite Hsame in H1, H2, H3 |- *. done.
Qed.

(** C7, as the code has it.  [pushIncomingPackets] leaves an incoming
    entry for the id and [pullOutgoingPackets] an outgoing one, whether or
    not the id is registered, and neither touches the registry; for an id
    that is not registered and that no later [addClient] names, these
    entries stay through every later sequence of calls. *)
Theorem queue_entries_created_for_any_id clientId packets h calls :
  m_incomingPacketQueue (snd (pushIncomingPackets clientId packets h)) !! clientId
    = Some (queueAt (m_incomingPacketQueue h) clientId ++ packets)
  ∧ m_clients (snd (pushIncomingPackets clientId packets h)) = m_clients h
  ∧ pullOutgoingPackets clientId h
    = (Ok (queueAt (m_outgoingPacketQueue h) clientId),
       withOutgoing (<[clientId := []]> (m_outgoingPacketQueue h)) h)
  ∧ (Forall (λ c, registers clientId c = false) calls →
     clientId ∉ m_clients h →
     (clientId ∉ m_clients (snd (performAll ws noChunks calls h)))
     ∧ (is_Some (m_incomingPacketQueue h !! clientId) →
        is_Some (m_incomingPacketQueue
                   (snd (performAll ws noChunks calls h)) !! clientId))
     ∧ (is_Some (m_outgoingPacketQueue h !! clientId) →
        is_Some (m_outgoingPacketQueue
                   (snd (performAll ws noChunks calls h)) !! clientId))).
Proof.
  repeat split.
  - cbn. by rewrite lookup_insert_eq.
  - by apply performAll_keeps_stray.
  - by apply performAll_keeps_stray.
  - by apply performAll_keeps_stray.
Qed.
End Entries.

(** ** A client isolated by a tick *)

Section Isolation.
Context {Packet SpawnTarget WorldChunks E : Type}.
Context (ws : WorldServer Packet SpawnTarget WorldChunks E).
Context (noChunks : WorldChunks).
Implicit Types (h : Host Packet E) (clientId : ConnectionId).

Lemma hasQueues_insert_incoming clientId c l h :
  hasQueues clientId h →
  hasQueues clientId (withIncoming (<[c := l]> (m_incomingPacketQueue h)) h).
Proof.
  intros [Hin Hout]. split; [|done]. cbn. rewrite lookup_insert_is_Some.
  destruct (decide (c = clientId)); [by left | by right].
Qed.

Lemma hasQueues_insert_outgoing clientId c l h :
  hasQueues clientId h →
  hasQueues clientId (withOutgoing (<[c := l]> (m_outgoingPacketQueue h)) h).
Proof.
  intros [Hin Hout]. split; [done|]. cbn. rewrite lookup_insert_is_Some.
  destruct (decide (c = clientId)); [by left | by right].
Qed.

(** Steps that leave the log alone and remove no queue entry. *)
Lemma clientFaultsQueued_step h0 h h' :
  logged h' = logged h →
  (∀ clientId, hasQueues clientId h → hasQueues clientId h') →
  clientFaultsQueued h0 h → clientFaultsQueued h0 h'.
Proof.
  intros Hlog Hmono (added & Hadded & Hq). exists added.
  split; [by rewrite Hlog|]. intros clientId e Hin. by eapply Hmono, Hq.
Qed.

Lemma clientFaultsQueued_engine {A} h0 (op : E → Res A * E) :
  stable (clientFaultsQueued h0) (engine op).
Proof. apply stable_engine. intros h. by apply clientFaultsQueued_step. Qed.

Lemma clientFaultsQueued_appendOutgoing h0 clientId packets :
  stable (clientFaultsQueued h0) (appendOutgoing clientId packets).
Proof.
  apply stable_modify. intros h. apply clientFaultsQueued_step; [done|].
  intros id. apply hasQueues_insert_outgoing.
Qed.

Lemma clientFaultsQueued_caught h0 e : stable (clientFaultsQueued h0) (caught e).
Proof.
  intros h (added & Hadded & Hq). exists (added ++ [LogException e]). cbn.
  split; [by rewrite Hadded, <-(assoc_L (++))|].
  intros clientId e' [Hin | Hin%list_elem_of_singleton]%elem_of_app; [|done].
  by apply Hq in Hin.
Qed.

Lemma clientFaultsQueued_queueCalls h0 : keptByQueueCalls (clientFaultsQueued h0).
Proof.
  repeat split.
  - intros h o. by apply clientFaultsQueued_step.
  - intros h t. by apply clientFaultsQueued_step.
  - intros h c l. apply clientFaultsQueued_step; [done|].
    intros id. apply hasQueues_insert_incoming.
  - intros h c l. apply clientFaultsQueued_step; [done|].
    intros id. apply hasQueues_insert_outgoing.
Qed.

Lemma clientFaultLogged_queueCalls h0 clientId e :
  keptByQueueCalls (clientFaultLogged h0 clientId e).
Proof.
  repeat split.
  - intros h o (added & Hadded & Hq & Hin). by exists added.
  - intros h t (added & Hadded & Hq & Hin). by exists added.
  - intros h c l (added & Hadded & Hq & Hin). exists added.
    split; [done|]. split.
    + intros id e' Hid. by apply hasQueues_insert_incoming, (Hq id e').
    + cbn. rewrite lookup_insert_is_Some.
      destruct (decide (c = clientId)); [by left | by right].
  - intros h c l (added & Hadded & Hq & Hin). exists added.
    split; [done|]. split; [|done].
    intros id e' Hid. by apply hasQueues_insert_outgoing, (Hq id e').
Qed.

Lemma deliverClient_clientFaultsQueued h0 clientId ids :
  stable (clientFaultsQueued h0) (deliverClient ws clientId ids).
Proof.
  unfold deliverClient.
  apply stable_bind; [apply lockQueue_kept, clientFaultsQueued_queueCalls|]. intros _.
  set (I1 := λ h, clientFaultsQueued h0 h
                  ∧ is_Some (m_incomingPacketQueue h !! clientId)).
  apply hoare_bind with (R := λ _, I1).
  { intros h HI. unfold I1. cbn. split.
    - revert HI. apply clientFaultsQueued_step; [done|].
      intros id. apply hasQueues_insert_incoming.
    - by rewrite lookup_insert_eq. }
  intros incoming.
  apply hoare_tryCatch with (R := λ _, I1).
  { apply hoare_bind with (R := λ _, I1).
    - unfold I1. intros h [HI Hin]. unfold engine.
      destruct (ws_handleIncomingPackets ws clientId incoming (m_worldServer h))
        as [[[]|e] e']; cbn; (split; [|done]);
        revert HI; by apply clientFaultsQueued_step.
    - intros _ h [HI _]. done. }
  intros e.
  apply hoare_bind with (R := λ _, clientFaultLogged h0 clientId e).
  { unfold I1. intros h [(added & Hadded & Hq) Hin]. cbn.
    exists added. by rewrite Hadded, <-(assoc_L (++)). }
  intros _.
  apply hoare_lockQueue; [apply lockQueue_kept, clientFaultLogged_queueCalls|].
  apply hoare_bind with (R := λ _, clientFaultsQueued h0).
  { intros h (added & Hadded & Hq & Hin). cbn.
    exists (added ++ [LogClientException clientId e]). split; [done|].
    intros id e' [Hid | Hid%list_elem_of_singleton]%elem_of_app.
    - apply Hq in Hid. by apply (hasQueues_insert_outgoing id clientId _ h).
    - injection Hid as -> ->. split; [done|]. cbn. by rewrite lookup_insert_eq. }
  intros _.
  apply stable_bind; [apply clientFaultsQueued_engine|]. intros final.
  apply stable_bind; [apply clientFaultsQueued_appendOutgoing|]. intros _.
  apply stable_ret.
Qed.

Lemma tick_clientFaultsQueued h0 fidelity :
  stable (clientFaultsQueued h0) (tick ws fidelity).
Proof.
  apply tick_stable; [|apply clientFaultsQueued_caught].
  apply update_stable.
  - intros. apply deliverClient_clientFaultsQueued.
  - intros clientId. apply collectClient_stable.
    + apply lockQueue_kept, clientFaultsQueued_queueCalls.
    + apply clientFaultsQueued_engine.
    + intros. apply clientFaultsQueued_appendOutgoing.
  - apply clientFaultsQueued_engine.
  - unfold stepEngine. apply stable_bind; [apply stable_gets|]. intros pause.
    apply stable_if; [apply clientFaultsQueued_engine | apply stable_ret].
  - unfold runUpdateAction. apply stable_bind; [apply stable_gets|].
    intros [action|]; [apply clientFaultsQueued_engine | apply stable_ret].
Qed.

(** A client for which the tick logged a delivery fault has both its
    queue entries when the tick is over. *)
Lemma tick_isolated_hasQueues clientId e fidelity h :
  LogClientException clientId e ∈ loggedSince h (snd (tick ws fidelity h)) →
  hasQueues clientId (snd (tick ws fidelity h)).
Proof.
  intros Hlog.
  assert (H0 : clientFaultsQueued h h).
  { exists []. split; [by rewrite app_nil_r|]. by intros id e' Hin%elem_of_nil. }
  apply (tick_clientFaultsQueued h fidelity) in H0 as (added & Hadded & Hq).
  apply (Hq clientId e). revert Hlog. unfold loggedSince.
  by rewrite Hadded, drop_app_length.
Qed.

Lemma performAll_keeps_entries clientId calls : ∀ h,
  Forall (λ c, removes clientId c = false) calls →
  (clientId ∈ m_clients h → clientId ∈ m_clients (snd (performAll ws noChunks calls h)))
  ∧ (hasQueues clientId h → hasQueues clientId (snd (performAll ws noChunks calls h))).
Proof.
  induction calls as [|c calls IH]; intros h Hcalls; [done|].
  apply Forall_cons in Hcalls as [Hc Hcalls].
  rewrite performAll_snd_cons.
  destruct (perform_keeps_entries ws noChunks clientId c h Hc) as (K1 & K2 & K3).
  destruct (IH (snd (perform ws noChunks c h)) Hcalls) as (H1 & H2).
  split; [by intros; apply H1, K1|].
  intros [Hin Hout]. apply H2. split; [by apply K2 | by apply K3].
Qed.

Lemma erroredClients_spec clientId h :
  clientId ∈ erroredClients ws h
  ↔ clientId ∈ m_clients h ∧ clientId ∉ ws_clientIds ws (m_worldServer h).
Proof.
  unfold erroredClients.
  by rewrite elem_of_elements, elem_of_difference, elem_of_list_to_set.
Qed.

(** C9, as the code has it.  A registered client for which a tick logged
    a delivery fault is, after that tick and after any further calls other
    than [removeClient] of that id, still registered and still has both
    queue entries.  [erroredClients] then lists it exactly when the engine
    does not list it at that moment: it is reported while the engine,
    which was asked to remove it, does not have it, and it is no longer
    reported once the engine lists the id again. *)
Theorem isolated_client_stays_errored clientId e fidelity h calls :
  clientId ∈ m_clients h →
  LogClientException clientId e ∈ loggedSince h (snd (tick ws fidelity h)) →
  Forall (λ c, removes clientId c = false) calls →
  clientId ∈ m_clients (snd (performAll ws noChunks calls (snd (tick ws fidelity h))))
  ∧ hasQueues clientId (snd (performAll ws noChunks calls (snd (tick ws fidelity h))))
  ∧ (clientId ∈ erroredClients ws
       (snd (performAll ws noChunks calls (snd (tick ws fidelity h))))
     ↔ clientId ∉ ws_clientIds ws
         (m_worldServer (snd (performAll ws noChunks calls (snd (tick ws fidelity h)))))).
Proof.
  intros Hreg Hlog Hcalls.
  pose proof (tick_isolated_hasQueues clientId e fidelity h Hlog) as Hq.
  assert (Hreg' : clientId ∈ m_clients (snd (tick ws fidelity h))).
  { revert Hreg. apply (tick_keeps ws (λ h, clientId ∈ m_clients h)).
    apply keptByInserts_registered. }
  destruct (performAll_keeps_entries clientId calls (snd (tick ws fidelity h)) Hcalls)
    as (K1 & K2).
  split; [by apply K1|]. split; [by apply K2|].
  rewrite erroredClients_spec. split; [by intros [_ Hgone] | intros Hgone].
  split; [by apply K1 | done].
Qed.
End Isolation.

(** ** Destruction *)

Section Destruction.
Context {Packet SpawnTarget WorldChunks E : Type}.
Context (ws : WorldServer Packet SpawnTarget WorldChunks E).
Implicit Types (h : Host Packet E) (clientId x : ConnectionId).

(** [removeClient] seen from any id [x]. *)
Lemma removeClient_lookup clientId x h :
  (x ∈ m_clients (snd (removeClient ws clientId h)) ↔ x ∈ m_clients h ∧ x ≠ clientId)
  ∧ m_incomingPacketQueue (snd (removeClient ws clientId h)) !! x
    = (if decide (x ∈ m_clients h ∧ x = clientId) then None
       else m_incomingPacketQueue h !! x)
  ∧ m_outgoingPacketQueue (snd (removeClient ws clientId h)) !! x
    = (if decide (x ∈ m_clients h ∧ x = clientId) then None
       else m_outgoingPacketQueue h !! x).
Proof.
  destruct (decide (clientId ∈ m_clients h)) as [Hreg|Hreg].
  - destruct (removeClient_footprint ws clientId h Hreg) as (-> & -> & ->).
    rewrite elem_of_difference, elem_of_singleton.
    split; [done|].
    destruct (decide (x = clientId)) as [->|Hne].
    + rewrite !lookup_delete_eq. split; case_decide; tauto.
    + rewrite !lookup_delete_ne by done. split; case_decide; tauto.
  - unfold removeClient. rewrite (decide_False (P := clientId ∈ m_clients h)) by done.
    cbn. split.
    + split; [|by intros [? _]]. intros Hx. split; [done|]. by intros ->.
    + split; case_decide as Hx; try done; by destruct Hx as [? ->].
Qed.

Lemma removeClients_snd_cons clientId rest h :
  snd (removeClients ws (clientId :: rest) h)
  = snd (removeClients ws rest (snd (removeClient ws clientId h))).
Proof.
  cbn. unfold bind at 1.
  pose proof (removeClient_no_throw ws clientId h) as Hok.
  by destruct (removeClient ws clientId h) as [[out|e] h1].
Qed.

Lemma removeClients_lookup ids : ∀ h x,
  (x ∈ m_clients (snd (removeClients ws ids h)) ↔ x ∈ m_clients h ∧ x ∉ ids)
  ∧ m_incomingPacketQueue (snd (removeClients ws ids h)) !! x
    = (if decide (x ∈ m_clients h ∧ x ∈ ids) then None
       else m_incomingPacketQueue h !! x)
  ∧ m_outgoingPacketQueue (snd (removeClients ws ids h)) !! x
    = (if decide (x ∈ m_clients h ∧ x ∈ ids) then None
       else m_outgoingPacketQueue h !! x).
Proof.
  induction ids as [|clientId rest IH]; intros h x.
  - cbn. split; [|split].
    + split; [|by intros [? _]]. intros Hx. split; [done|]. by intros ?%elem_of_nil.
    + case_decide as Hx; [|done]. by destruct Hx as [_ ?%elem_of_nil].
    + case_decide as Hx; [|done]. by destruct Hx as [_ ?%elem_of_nil].
  - rewrite removeClients_snd_cons.
    destruct (IH (snd (removeClient ws clientId h)) x) as (-> & -> & ->).
    destruct (removeClient_lookup clientId x h) as (Hc & -> & ->).
    pose proof (elem_of_cons rest x clientId) as Hcons.
    split; [rewrite Hc, not_elem_of_cons; tauto|].
    split; repeat case_decide; try done; exfalso; tauto.
Qed.

Lemma removeClients_no_throw ids : ∀ h, isThrow (fst (removeClients ws ids h)) = false.
Proof.
  induction ids as [|clientId rest IH]; intros h; [done|].
  cbn. unfold bind.
  pose proof (removeClient_no_throw ws clientId h) as Hok.
  destruct (removeClient ws clientId h) as [[out|e] h1]; [apply IH | done].
Qed.

Lemma removeClient_m_stop clientId h :
  m_stop (snd (removeClient ws clientId h)) = m_stop h.
Proof.
  unfold removeClient. case_decide; [|done].
  unfold removeClientTry, engine. cbn.
  destruct (ws_hasClient ws clientId (m_worldServer h)); cbn.
  - destruct (ws_handleIncomingPackets ws clientId _ _) as [[[]|e] e1]; cbn; [|done].
    destruct (ws_hasClient ws clientId e1); cbn; [|done].
    by destruct (ws_removeClient ws clientId e1) as [[final|e2] e3].
  - destruct (ws_hasClient ws clientId (m_worldServer h)); cbn; [|done].
    by destruct (ws_removeClient ws clientId _) as [[final|e2] e3].
Qed.

Lemma removeClients_m_stop ids : ∀ h, m_stop (snd (removeClients ws ids h)) = m_stop h.
Proof.
  induction ids as [|clientId rest IH]; intros h; [done|].
  by rewrite removeClients_snd_cons, IH, removeClient_m_stop.
Qed.

(** C5, as the code has it.  The destructor applies [removeClient] to the
    ids the engine lists.  Afterwards the registry holds the ids it held
    that the engine did not list; the queue entries of every id that was
    both registered and listed are gone, and all other entries are as
    they were. *)
Theorem destroy_removes_listed_clients h x :
  (x ∈ m_clients (snd (destroy ws h))
     ↔ x ∈ m_clients h ∧ x ∉ ws_clientIds ws (m_worldServer h))
  ∧ m_incomingPacketQueue (snd (destroy ws h)) !! x
    = (if decide (x ∈ m_clients h ∧ x ∈ ws_clientIds ws (m_worldServer h))
       then None else m_incomingPacketQueue h !! x)
  ∧ m_outgoingPacketQueue (snd (destroy ws h)) !! x
    = (if decide (x ∈ m_clients h ∧ x ∈ ws_clientIds ws (m_worldServer h))
       then None else m_outgoingPacketQueue h !! x)
  ∧ isThrow (fst (destroy ws h)) = false
  ∧ m_stop (snd (destroy ws h)) = true.
Proof.
  assert (Hdestroy : destroy ws h
            = removeClients ws (ws_clientIds ws (m_worldServer h)) (withStop true h))
    by done.
  rewrite Hdestroy.
  destruct (removeClients_lookup (ws_clientIds ws (m_worldServer h)) (withStop true h) x)
    as (H1 & H2 & H3).
  split; [exact H1|]. split; [exact H2|]. split; [exact H3|].
  split; [apply removeClients_no_throw | by rewrite removeClients_m_stop].
Qed.
End Destruction.

(** ** Per-client order of the queues *)

Section Fifo.
Context {Packet SpawnTarget WorldChunks E : Type}.
Context (ws : WorldServer Packet SpawnTarget WorldChunks E).
Context (noChunks : WorldChunks).
Implicit Types (h : Host Packet (Traced Packet E)) (clientId id : ConnectionId).
Implicit Types (incoming outgoing packets : list Packet).

Local Abbreviation fifo' := (fifo (Packet:=Packet) (E:=E)).
Local Abbreviation fifoOwing' := (fifoOwing (Packet:=Packet) (E:=E)).

Lemma queueAt_insert (q : gmap ConnectionId (list Packet)) id clientId l :
  queueAt (<[id := l]> q) clientId = if decide (id = clientId) then l else queueAt q clientId.
Proof.
  unfold queueAt. case_decide as Hid.
  - subst. by rewrite lookup_insert_eq.
  - by rewrite lookup_insert_ne.
Qed.

Lemma queueAt_insert_same (q : gmap ConnectionId (list Packet)) id clientId :
  queueAt (<[id := queueAt q id]> q) clientId = queueAt q clientId.
Proof. rewrite queueAt_insert. by case_decide; subst. Qed.

Lemma pushedIn_pushed clientId id packets (events : list (QueueEvent Packet)) :
  pushedIn clientId (events ++ [Pushed id packets])
  = pushedIn clientId events ++ (if decide (id = clientId) then packets else []).
Proof. unfold pushedIn. rewrite fmap_app, concat_app. cbn. by rewrite app_nil_r. Qed.

Lemma pushedIn_pulled clientId id packets (events : list (QueueEvent Packet)) :
  pushedIn clientId (events ++ [Pulled id packets]) = pushedIn clientId events.
Proof. unfold pushedIn. rewrite fmap_app, concat_app. cbn. by rewrite app_nil_r. Qed.

Lemma pulledIn_pulled clientId id packets (events : list (QueueEvent Packet)) :
  pulledIn clientId (events ++ [Pulled id packets])
  = pulledIn clientId events ++ (if decide (id = clientId) then packets else []).
Proof. unfold pulledIn. rewrite fmap_app, concat_app. cbn. by rewrite app_nil_r. Qed.

Lemma pulledIn_pushed clientId id packets (events : list (QueueEvent Packet)) :
  pulledIn clientId (events ++ [Pushed id packets]) = pulledIn clientId events.
Proof. unfold pulledIn. rewrite fmap_app, concat_app. cbn. by rewrite app_nil_r. Qed.

(** Nothing owed. *)
Lemma fifoOwing_nil clientId id h :
  fifoOwing' clientId id [] [] h ↔ fifo' clientId h.
Proof.
  unfold fifoOwing, fifo.
  assert (Hnil : (if decide (id = clientId) then [] else []) = @nil Packet)
    by by case_decide.
  by rewrite Hnil, app_nil_r.
Qed.

Lemma fifoOwing_frame clientId id incoming outgoing h h' :
  m_worldServer h' = m_worldServer h →
  m_incomingPacketQueue h' = m_incomingPacketQueue h →
  m_outgoingPacketQueue h' = m_outgoingPacketQueue h →
  m_updateAction h' = m_updateAction h →
  transcript h' = transcript h →
  fifoOwing' clientId id incoming outgoing h → fifoOwing' clientId id incoming outgoing h'.
Proof. unfold fifoOwing, hookUntraced. intros -> -> -> -> ->. done. Qed.

Lemma fifo_frame clientId h h' :
  m_worldServer h' = m_worldServer h →
  m_incomingPacketQueue h' = m_incomingPacketQueue h →
  m_outgoingPacketQueue h' = m_outgoingPacketQueue h →
  m_updateAction h' = m_updateAction h →
  transcript h' = transcript h →
  fifo' clientId h → fifo' clientId h'.
Proof. unfold fifo, hookUntraced. intros -> -> -> -> ->. done. Qed.

(** A push through the dispatcher, by any thread, at any point. *)
Lemma fifoOwing_dispatchPush clientId id incoming outgoing id' packets :
  stable (fifoOwing' clientId id incoming outgoing) (dispatchPush id' packets).
Proof.
  intros h (Hout & Hin & Hhook). cbn.
  split; [|split; [|done]]; cbn.
  - by rewrite pulledIn_pushed.
  - rewrite pushedIn_pushed, queueAt_insert, Hin.
    destruct (decide (id' = clientId)) as [->|Hne]; [|by rewrite app_nil_r].
    by rewrite <-!(assoc_L (++)).
Qed.

(** A pull through the dispatcher, by any thread, at any point. *)
Lemma fifoOwing_dispatchPull clientId id incoming outgoing id' :
  stable (fifoOwing' clientId id incoming outgoing) (dispatchPull id').
Proof.
  intros h (Hout & Hin & Hhook). cbn.
  split; [|split; [|done]]; cbn.
  - rewrite pulledIn_pulled, queueAt_insert, Hout.
    destruct (decide (id' = clientId)) as [->|Hne]; [|by rewrite app_nil_r].
    by rewrite <-!(assoc_L (++)).
  - by rewrite pushedIn_pulled.
Qed.

Lemma fifoOwing_lockQueue clientId id incoming outgoing :
  stable (fifoOwing' clientId id incoming outgoing) lockQueue.
Proof.
  apply lockQueue_stable.
  - intros h o. by apply fifoOwing_frame.
  - intros [id' packets|id']; cbn.
    + apply fifoOwing_dispatchPush.
    + apply stable_bind; [apply fifoOwing_dispatchPull | intros _; apply stable_ret].
Qed.

Lemma fifo_as_owing {A} clientId (c : M Packet (Traced Packet E) A) :
  stable (fifoOwing' clientId clientId [] []) c → stable (fifo' clientId) c.
Proof.
  intros Hc h HI. apply (fifoOwing_nil clientId clientId), Hc.
  by apply (fifoOwing_nil clientId clientId).
Qed.

Lemma fifo_lockQueue clientId : stable (fifo' clientId) lockQueue.
Proof. apply fifo_as_owing, fifoOwing_lockQueue. Qed.

Lemma fifo_dispatchPush clientId id packets :
  stable (fifo' clientId) (dispatchPush id packets).
Proof. apply fifo_as_owing, fifoOwing_dispatchPush. Qed.

Lemma fifo_dispatchPull clientId id : stable (fifo' clientId) (dispatchPull id).
Proof. apply fifo_as_owing, fifoOwing_dispatchPull. Qed.

(** Engine calls that reach the engine proper leave the record alone. *)
Lemma fifo_untraced {A} clientId (op : E → Res A * E) :
  stable (fifo' clientId) (engine (untraced op)).
Proof.
  apply stable_engine. intros h HI. unfold untraced.
  by destruct (op (inner (m_worldServer h))).
Qed.

Lemma fifo_logError clientId entry : stable (fifo' clientId) (logError entry).
Proof. apply stable_modify. intros h. by apply fifo_frame. Qed.

Lemma fifo_caught clientId e : stable (fifo' clientId) (caught e).
Proof.
  apply stable_bind; [apply fifo_logError|]. intros _.
  apply stable_modify. intros h. by apply fifo_frame.
Qed.

Lemma fifo_touchOutgoing clientId id : stable (fifo' clientId) (touchOutgoing id).
Proof.
  apply stable_modify. intros h (Hout & Hin & Hhook).
  split; [|done]. cbn. by rewrite queueAt_insert_same.
Qed.

(** Taking the incoming queue of [id] leaves its content owed to the
    engine. *)
Lemma fifo_takeIncoming clientId id :
  hoare (fifo' clientId) (takeIncoming id)
    (λ r h, match r with
            | Ok incoming => fifoOwing' clientId id incoming [] h
            | Throw _ => fifo' clientId h
            end).
Proof.
  intros h (Hout & Hin & Hhook). cbn.
  split; [|split; [|done]]; cbn.
  - rewrite Hout. by case_decide; rewrite app_nil_r.
  - rewrite Hin, queueAt_insert. case_decide as Hid; [by subst; rewrite app_nil_r | done].
Qed.

(** Handing it to the engine settles it, whether the engine raises or not. *)
Lemma fifo_handleIncomingPackets clientId id incoming :
  hoare (fifoOwing' clientId id incoming [])
    (engine (ws_handleIncomingPackets (traced ws) id incoming))
    (λ _, fifo' clientId).
Proof.
  intros h (Hout & Hin & Hhook). unfold engine. cbn. unfold untraced. cbn.
  assert (Hafter : ∀ e', fifo' clientId
            (withWorldServer (withInner e' (noteDelivered id incoming (m_worldServer h))) h)).
  { intros e'. split; [|split; [|done]]; cbn.
    - rewrite Hout. by case_decide; rewrite app_nil_r.
    - rewrite Hin, queueAt_insert.
      case_decide as Hid; [by subst; rewrite (assoc_L (++)) | done]. }
  destruct (ws_handleIncomingPackets ws id incoming (inner (m_worldServer h)))
    as [[[]|e] e']; apply Hafter.
Qed.

(** A producing engine call leaves what it returned owed to the queue. *)
Lemma fifo_producing clientId id (op : E → Res (list Packet) * E) :
  hoare (fifo' clientId) (engine (producing id op))
    (λ r h, match r with
            | Ok outgoing => fifoOwing' clientId id [] outgoing h
            | Throw _ => fifo' clientId h
            end).
Proof.
  intros h (Hout & Hin & Hhook). unfold engine, producing.
  destruct (op (inner (m_worldServer h))) as [[outgoing|e] e']; cbn; [|done].
  split; [|split; [|done]]; cbn.
  - rewrite queueAt_insert. case_decide as Hid.
    + subst. by rewrite Hout, <-(assoc_L (++)).
    + by rewrite app_nil_r.
  - rewrite Hin. by case_decide.
Qed.

(** The append settles it. *)
Lemma fifo_appendOutgoing clientId id outgoing :
  hoare (fifoOwing' clientId id [] outgoing) (appendOutgoing id outgoing)
    (λ _, fifo' clientId).
Proof.
  intros h (Hout & Hin & Hhook). cbn.
  split; [|split; [|done]]; cbn.
  - rewrite queueAt_insert. case_decide as Hid; [by subst|].
    by rewrite app_nil_r in Hout.
  - rewrite Hin. by case_decide.
Qed.

Lemma fifo_collectClient clientId id :
  stable (fifo' clientId) (collectClient (traced ws) id).
Proof.
  unfold collectClient.
  eapply hoare_bind; [apply fifo_producing|]. intros outgoing.
  apply hoare_lockQueue; [apply fifoOwing_lockQueue|].
  apply fifo_appendOutgoing.
Qed.

Lemma fifo_deliverClient clientId id ids :
  stable (fifo' clientId) (deliverClient (traced ws) id ids).
Proof.
  unfold deliverClient.
  apply hoare_lockQueue; [apply fifo_lockQueue|].
  eapply hoare_bind; [apply fifo_takeIncoming|]. intros incoming.
  apply hoare_tryCatch with (R := λ _, fifo' clientId).
  { apply hoare_bind with (R := λ _, fifo' clientId).
    - intros h HI. pose proof (fifo_handleIncomingPackets clientId id incoming h HI) as Hk.
      by destruct (engine _ h) as [[[]|e] h'].
    - intros _. apply stable_ret. }
  intros e.
  apply stable_bind; [apply fifo_logError|]. intros _.
  apply hoare_lockQueue; [apply fifo_lockQueue|].
  apply stable_bind; [apply fifo_touchOutgoing|]. intros _.
  eapply hoare_bind; [apply fifo_producing|]. intros final.
  eapply hoare_bind with (R := λ _, fifo' clientId).
  - intros h HI. by apply fifo_appendOutgoing.
  - intros _. apply stable_ret.
Qed.

Lemma fifo_runUpdateAction clientId : stable (fifo' clientId) runUpdateAction.
Proof.
  intros h HI. pose proof HI as (_ & _ & Hhook).
  unfold runUpdateAction, bind, gets. unfold hookUntraced in Hhook.
  destruct (m_updateAction h) as [action|]; [|done].
  destruct Hhook as [a ->]. by apply fifo_untraced.
Qed.

Lemma fifo_tick clientId fidelity : stable (fifo' clientId) (tick (traced ws) fidelity).
Proof.
  apply tick_stable; [|apply fifo_caught].
  apply update_stable.
  - intros. apply fifo_deliverClient.
  - intros. apply fifo_collectClient.
  - apply stable_engine. intros h HI. cbn. unfold untraced. cbn.
    by destruct (ws_setFidelity ws fidelity (inner (m_worldServer h))).
  - unfold stepEngine. apply stable_bind; [apply stable_gets|]. intros pause.
    apply stable_if; [apply fifo_untraced | apply stable_ret].
  - apply fifo_runUpdateAction.
Qed.

Lemma reply_fst_snd {A} (f : A → Reply Packet WorldChunks)
    (m : M Packet (Traced Packet E) A) h :
  snd (reply f m h) = snd (m h).
Proof. unfold reply. by destruct (m h) as [[a|e] h']. Qed.

(** Every call of the traffic keeps the order. *)
Lemma fifo_perform clientId c h :
  queueTraffic c →
  fifo' clientId h → fifo' clientId (snd (perform (traced ws) noChunks c h)).
Proof.
  intros Hc. revert h.
  destruct Hc; cbn [perform]; intros h; rewrite ?reply_fst_snd; revert h.
  - apply stable_guarded; [apply fifo_untraced | apply fifo_caught].
  - apply stable_guarded; [|apply fifo_caught].
    apply stable_bind; [apply fifo_untraced|].
    intros [|]; [|apply stable_ret].
    apply stable_bind; [|intros _; apply stable_ret].
    apply stable_modify. intros h. by apply fifo_frame.
  - apply fifo_dispatchPush.
  - apply fifo_dispatchPull.
  - apply stable_guarded; [|apply fifo_caught].
    apply stable_bind; [apply fifo_untraced|].
    intros [p|]; apply stable_ret.
  - apply stable_guarded; [apply fifo_untraced | apply fifo_caught].
  - apply fifo_untraced.
  - intros h (Hout & Hin & Hhook). split; [done|]. split; [done|].
    unfold hookUntraced. cbn. destruct a as [a|]; cbn; [by exists a | done].
  - apply stable_guarded; [apply fifo_untraced | apply fifo_caught].
  - intros h. by apply fifo_frame.
  - apply fifo_tick.
Qed.

Lemma fifo_performAll clientId calls : ∀ h,
  Forall queueTraffic calls →
  fifo' clientId h → fifo' clientId (snd (performAll (traced ws) noChunks calls h)).
Proof.
  induction calls as [|c calls IH]; intros h Hcalls HI; [done|].
  apply Forall_cons in Hcalls as [Hc Hcalls].
  rewrite performAll_cons. cbn [snd].
  by apply IH, fifo_perform.
Qed.

(** C8. From a fresh host over any engine, through any sequence of pushes,
    pulls, ticks and the other calls that are not removals, and whatever
    pushes and pulls other threads make while the ticks are under way: the
    packets the engine produced for an id are the packets the pulls for
    that id returned, in order, followed by what is still queued; the
    packets pushed for the id are the packets the engine was handed, in
    order, followed by what is still queued.  A pull returns the whole
    queue, which is what the transcript lists for it, and a pull right
    after it returns the empty list. *)
Theorem queues_are_fifo (server : E) (others : list (list (QueueCall Packet)))
    clientId calls :
  Forall queueTraffic calls →
  queueAt (produced (m_worldServer
             (snd (performAll (traced ws) noChunks calls
                     (withOtherThreads others (newHost (freshTrace server))))))) clientId
    = pulledIn clientId
        (transcript (snd (performAll (traced ws) noChunks calls
                            (withOtherThreads others (newHost (freshTrace server))))))
      ++ queueAt (m_outgoingPacketQueue
                    (snd (performAll (traced ws) noChunks calls
                            (withOtherThreads others (newHost (freshTrace server))))))
           clientId
  ∧ pushedIn clientId
      (transcript (snd (performAll (traced ws) noChunks calls
                          (withOtherThreads others (newHost (freshTrace server))))))
    = queueAt (delivered (m_worldServer
                 (snd (performAll (traced ws) noChunks calls
                         (withOtherThreads others (newHost (freshTrace server)))))))
        clientId
      ++ queueAt (m_incomingPacketQueue
                    (snd (performAll (traced ws) noChunks calls
                            (withOtherThreads others (newHost (freshTrace server))))))
           clientId
  ∧ (∀ h, fst (dispatchPull clientId h) = Ok (queueAt (m_outgoingPacketQueue h) clientId)
          ∧ transcript (snd (dispatchPull clientId h))
            = transcript h ++ [Pulled clientId (queueAt (m_outgoingPacketQueue h) clientId)]
          ∧ fst (dispatchPull clientId (snd (dispatchPull clientId h))) = Ok []).
Proof.
  intros Hcalls.
  assert (H0 : fifo' clientId (withOtherThreads others (newHost (freshTrace server))))
    by done.
  destruct (fifo_performAll clientId calls _ Hcalls H0) as (Hout & Hin & _).
  split; [exact Hout|]. split; [exact Hin|].
  intros h. cbn. by rewrite queueAt_insert, decide_True.
Qed.
End Fifo.

(** ** Evaluations on the echo world *)


(** C2, at clients 1, 2, 3 where the packet of client 1 is malformed: the
    tick logs the fault of client 1, removes it from the engine and queues
    its farewell packet; client 2, next in the list, is passed over: its
    packet is still in its incoming queue and the engine was handed nothing
    for it, while client 3 was visited twice.  Clients 2 and 3 are both
    still listed by the engine. *)
Theorem tick_passes_over_client_after_faulting_one :
  let h := snd (tick Echo.server Medium threeWaiting) in
  ws_clientIds Echo.server (m_worldServer threeWaiting) = [1; 2; 3]%N
  ∧ m_incomingPacketQueue threeWaiting !! 2%N = Some [20%N]
  ∧ logged h = [LogClientException 1 (StdException "malformed packet")]
  ∧ m_outgoingPacketQueue h !! 1%N = Some [1001%N]
  ∧ ws_clientIds Echo.server (m_worldServer h) = [2; 3]%N
  ∧ m_incomingPacketQueue h !! 2%N = Some [20%N]
  ∧ Echo.inbox (m_worldServer h) = [(3%N, [30%N]); (3%N, [])]
  ∧ m_outgoingPacketQueue h !! 2%N = Some []
  ∧ m_outgoingPacketQueue h !! 3%N = Some [30%N].
Proof. vm_compute. repeat split. Qed.

(** C4, on the echo world: an unknown id changes nothing, a registered one
    is gone from registry and queues. *)
Lemma removeClient_unregisters_witness :
  removeClient Echo.server 9 oneMalformed = (Ok [], oneMalformed)
  ∧ m_incomingPacketQueue (snd (removeClient Echo.server 1 oneMalformed)) !! 1%N = None
  ∧ m_outgoingPacketQueue (snd (removeClient Echo.server 1 oneMalformed)) !! 1%N = None.
Proof.
  split.
  - apply (removeClient_unregisters Echo.server 9 oneMalformed). by vm_compute.
  - apply (removeClient_unregisters Echo.server 1 oneMalformed). by vm_compute.
Defined.

(** C5, counterexample: client 1 was isolated by a tick, so the engine no
    longer lists it; the destructor passes it by, and it is still
    registered, with its queue entries, afterwards. *)
Lemma destroy_leaves_isolated_client :
  let h := snd (tick Echo.server Medium oneMalformed) in
  hasClient 1 h = true
  ∧ ws_clientIds Echo.server (m_worldServer h) = []
  ∧ hasClient 1 (snd (destroy Echo.server h)) = true
  ∧ m_incomingPacketQueue (snd (destroy Echo.server h)) !! 1%N = Some []
  ∧ m_outgoingPacketQueue (snd (destroy Echo.server h)) !! 1%N = Some [1001%N].
Proof. vm_compute. repeat split. Qed.

(** C6, counterexample: with the fidelity fixed at Minimum, one iteration
    with two seconds to spare raises the automatic level from Medium to
    High, and one with a quarter second to spare accumulates it. *)
Lemma controller_runs_under_fixed_fidelity :
  lockedFidelityOf Echo.names fixedMinimum = Ok (Some Minimum)
  ∧ fst (runLoop Echo.server fixedMinimum (Some Minimum)
           [mkTickEnv false false 2%float]
           (mkFidelityState 0%float Medium) freshEcho)
    = Ok (mkFidelityState 0%float High)
  ∧ fst (runLoop Echo.server fixedMinimum (Some Minimum)
           [mkTickEnv false false 0.25%float]
           (mkFidelityState 0%float Medium) freshEcho)
    = Ok (mkFidelityState 0.25%float Medium).
Proof. vm_compute. repeat split. Qed.

(** C7, counterexample: ids 5 and 6 are never registered; after a push for
    5 and a pull for 6, then a tick and a [removeClient] for each, the
    incoming entry of 5 and the outgoing entry of 6 are still there and the
    registry is empty. *)
Lemma stray_queue_entries_last :
  let h := snd (performAll Echo.server tt
                  [CallPushIncomingPackets 5 [1%N]; CallPullOutgoingPackets 6;
                   CallTick Medium; CallRemoveClient 5; CallRemoveClient 6]
                  freshEcho) in
  clients h = []
  ∧ m_incomingPacketQueue h !! 5%N = Some [1%N]
  ∧ m_outgoingPacketQueue h !! 6%N = Some [].
Proof. vm_compute. repeat split. Qed.

(** C10, on the echo world: packet 7 was waiting in the outgoing queue of
    client 1 when the removal met the malformed packet; the caller gets
    nothing and the queue entry is gone. *)
Lemma removeClient_fault_discards_pending_witness :
  m_outgoingPacketQueue pendingThenMalformed !! 1%N = Some [7%N]
  ∧ fst (removeClient Echo.server 1 pendingThenMalformed) = Ok []
  ∧ m_outgoingPacketQueue (snd (removeClient Echo.server 1 pendingThenMalformed))
    = delete 1%N (m_outgoingPacketQueue pendingThenMalformed).
Proof.
  split; [by vm_compute|].
  assert (Hreg : 1%N ∈ m_clients pendingThenMalformed) by by vm_compute.
  destruct (removeClient_fault_discards_pending Echo.server 1 pendingThenMalformed
              (StdException "malformed packet")
              (m_worldServer pendingThenMalformed) Hreg eq_refl eq_refl)
    as (Hret & Hout & _).
  split; [exact Hret | exact Hout].
Defined.

(** C8, on the echo world: client 1 sends 10 and 11, another thread slips
    in 12 as the tick starts and pulls (nothing yet) before the tick appends,
    then 13 is sent; the pulls hand back 10, 11, 12, 13 in that order, and
    that is what the engine produced. *)
Lemma queues_are_fifo_witness :
  queueAt (produced (m_worldServer
             (snd (performAll (traced Echo.server) tt echoTraffic busyTracedEcho)))) 1%N
    = pulledIn 1%N
        (transcript (snd (performAll (traced Echo.server) tt echoTraffic busyTracedEcho)))
      ++ queueAt (m_outgoingPacketQueue
                    (snd (performAll (traced Echo.server) tt echoTraffic busyTracedEcho)))
           1%N
  ∧ pulledIn 1%N
      (transcript (snd (performAll (traced Echo.server) tt echoTraffic busyTracedEcho)))
    = [10; 11; 12; 13]%N
  ∧ fst (performAll (traced Echo.server) tt echoTraffic busyTracedEcho)
    = [ReplyBool true; ReplyVoid; ReplyVoid; ReplyVoid; ReplyVoid;
       ReplyPackets [10; 11; 12; 13]%N; ReplyPackets []].
Proof.
  split; [|split; by vm_compute].
  apply (queues_are_fifo Echo.server tt Echo.empty echoOthers 1%N echoTraffic).
  unfold echoTraffic. repeat constructor.
Defined.

(** C9, on the echo world: client 1 is isolated by the tick; after a pull
    and another tick it is still what [erroredClients] reports. *)
Lemma isolated_client_stays_errored_witness :
  1%N ∈ erroredClients Echo.server
          (snd (performAll Echo.server tt [CallPullOutgoingPackets 1; CallTick Medium]
                  (snd (tick Echo.server Medium threeWaiting)))).
Proof.
  assert (Hreg : 1%N ∈ m_clients threeWaiting) by by vm_compute.
  assert (Hlog : LogClientException 1 (StdException "malformed packet")
                 ∈ loggedSince threeWaiting (snd (tick Echo.server Medium threeWaiting))).
  { assert (loggedSince threeWaiting (snd (tick Echo.server Medium threeWaiting))
            = [LogClientException 1 (StdException "malformed packet")]) as ->
      by by vm_compute.
    apply list_elem_of_here. }
  assert (Hcalls : Forall (λ c : Call N unit Echo.World, removes 1%N c = false)
                     [CallPullOutgoingPackets 1; CallTick Medium])
    by repeat constructor.
  destruct (isolated_client_stays_errored Echo.server tt 1%N
              (StdException "malformed packet") Medium threeWaiting
              [CallPullOutgoingPackets 1; CallTick Medium] Hreg Hlog Hcalls)
    as (_ & _ & Herrored).
  apply Herrored.
  - assert (ws_clientIds Echo.server
              (m_worldServer
                 (snd (performAll Echo.server tt
                         [CallPullOutgoingPackets 1; CallTick Medium]
                         (snd (tick Echo.server Medium threeWaiting)))))
            = [2; 3]%N) as -> by by vm_compute.
    by intros [[=]|[[=]|[]%elem_of_nil]%elem_of_cons]%elem_of_cons.
Defined.

(** C9, counterexample: client 1 is isolated by a tick and reported by
    [erroredClients]; an [addClient] for it that the engine accepts, with
    no [removeClient] in between, leaves it registered and unreported. *)
Lemma readmitted_client_is_not_errored :
  loggedSince oneMalformed (snd (tick Echo.server Medium oneMalformed))
    = [LogClientException 1 (StdException "malformed packet")]
  ∧ erroredClients Echo.server (snd (tick Echo.server Medium oneMalformed)) = [1%N]
  ∧ fst (performAll Echo.server tt [CallAddClient 1 tt false]
           (snd (tick Echo.server Medium oneMalformed))) = [ReplyBool true]
  ∧ hasClient 1 (snd (performAll Echo.server tt [CallAddClient 1 tt false]
                        (snd (tick Echo.server Medium oneMalformed)))) = true
  ∧ erroredClients Echo.server
      (snd (performAll Echo.server tt [CallAddClient 1 tt false]
              (snd (tick Echo.server Medium oneMalformed)))) = [].
Proof. vm_compute. repeat split. Qed.

(** ** Attaching and detaching, path by path *)

Section Detach.
Context {Packet SpawnTarget WorldChunks E : Type}.
Context (ws : WorldServer Packet SpawnTarget WorldChunks E).
Implicit Types (h : Host Packet E) (clientId : ConnectionId).

Lemma detached_inserted clientId h incoming outgoing :
  withOutgoing (delete clientId (<[clientId := outgoing]> (m_outgoingPacketQueue h)))
    (withIncoming (delete clientId (<[clientId := incoming]> (m_incomingPacketQueue h)))
       (withClients (m_clients h ∖ {[clientId]}) h))
  = detached clientId h.
Proof. unfold detached. by rewrite !delete_insert_eq. Qed.

(** X1. [removeClient] of a registered id the engine knows, when no engine
    call raises: the engine is handed the whole pending incoming queue, the
    caller gets the pending outgoing packets followed by the packets the
    engine returns from the removal, and the host is left with the id
    detached, nothing logged and no flag touched. *)
Theorem removeClient_returns_pending_then_final clientId h e1 e2 final :
  clientId ∈ m_clients h →
  ws_hasClient ws clientId (m_worldServer h) = true →
  ws_handleIncomingPackets ws clientId
    (queueAt (m_incomingPacketQueue h) clientId) (m_worldServer h) = (Ok tt, e1) →
  ws_hasClient ws clientId e1 = true →
  ws_removeClient ws clientId e1 = (Ok final, e2) →
  removeClient ws clientId h
  = (Ok (queueAt (m_outgoingPacketQueue h) clientId ++ final),
     detached clientId (withWorldServer e2 h)).
Proof.
  intros Hreg Hhas Hhandle Hhas' Hremove.
  unfold removeClient. rewrite decide_True by done.
  unfold removeClientTry, engine. cbn. rewrite Hhas, Hhandle. cbn.
  rewrite Hhas', Hremove. cbn. f_equal. apply (detached_inserted clientId (withWorldServer e2 h)).
Qed.

(** X2. When the engine's own [removeClient] raises inside [removeClient]
    of the host, the packets that were pending in the outgoing queue are
    still returned to the caller; the fault is logged, the error flag is
    set and the id is detached all the same. *)
Theorem removeClient_removal_fault_returns_pending clientId h e1 e2 e :
  clientId ∈ m_clients h →
  ws_hasClient ws clientId (m_worldServer h) = true →
  ws_handleIncomingPackets ws clientId
    (queueAt (m_incomingPacketQueue h) clientId) (m_worldServer h) = (Ok tt, e1) →
  ws_hasClient ws clientId e1 = true →
  ws_removeClient ws clientId e1 = (Throw e, e2) →
  removeClient ws clientId h
  = (Ok (queueAt (m_outgoingPacketQueue h) clientId),
     detached clientId (flagged e (withWorldServer e2 h))).
Proof.
  intros Hreg Hhas Hhandle Hhas' Hremove.
  unfold removeClient. rewrite decide_True by done.
  unfold removeClientTry, engine. cbn. rewrite Hhas, Hhandle. cbn.
  rewrite Hhas', Hremove. cbn. f_equal.
  apply (detached_inserted clientId (flagged e (withWorldServer e2 h))).
Qed.

(** X3. [removeClient] of a registered id the engine does not know (a
    client the engine dropped, as [erroredClients] reports): the engine is
    not called at all, the pending incoming packets are dropped without
    being delivered, the pending outgoing packets are returned, and the id
    is detached; [erroredClients] afterwards lists what it listed before,
    except that id. *)
Theorem removeClient_unknown_to_engine clientId h :
  clientId ∈ m_clients h →
  ws_hasClient ws clientId (m_worldServer h) = false →
  removeClient ws clientId h
    = (Ok (queueAt (m_outgoingPacketQueue h) clientId), detached clientId h)
  ∧ ∀ id, id ∈ erroredClients ws (snd (removeClient ws clientId h))
          ↔ id ∈ erroredClients ws h ∧ id ≠ clientId.
Proof.
  intros Hreg Hhas.
  assert (Heq : removeClient ws clientId h
                = (Ok (queueAt (m_outgoingPacketQueue h) clientId), detached clientId h)).
  { unfold removeClient. rewrite decide_True by done.
    unfold removeClientTry. cbn. rewrite Hhas. cbn. rewrite Hhas. cbn.
    f_equal. apply (detached_inserted clientId h). }
  split; [done|]. intros id. rewrite Heq, !erroredClients_spec. cbn.
  rewrite elem_of_difference, elem_of_singleton. tauto.
Qed.

(** X4. [addClient] registers the id exactly when the engine accepted it;
    it creates no queue entry and changes none, whatever the engine
    answered, and the error flag is raised exactly when the engine call
    raised. *)
Theorem addClient_registers_only_when_accepted clientId target isLocal h :
  fst (addClient ws clientId target isLocal h)
    = Ok (match fst (ws_addClient ws clientId target isLocal (m_worldServer h)) with
          | Ok accepted => accepted
          | Throw _ => false
          end)
  ∧ m_clients (snd (addClient ws clientId target isLocal h))
    = match fst (ws_addClient ws clientId target isLocal (m_worldServer h)) with
      | Ok true => {[clientId]} ∪ m_clients h
      | _ => m_clients h
      end
  ∧ m_incomingPacketQueue (snd (addClient ws clientId target isLocal h))
    = m_incomingPacketQueue h
  ∧ m_outgoingPacketQueue (snd (addClient ws clientId target isLocal h))
    = m_outgoingPacketQueue h
  ∧ m_errorOccurred (snd (addClient ws clientId target isLocal h))
    = m_errorOccurred h
      || isThrow (fst (ws_addClient ws clientId target isLocal (m_worldServer h))).
Proof.
  unfold addClient. rewrite guarded_eq. unfold bind, engine.
  destruct (ws_addClient ws clientId target isLocal (m_worldServer h)) as [[[|]|e] e'];
    cbn; by rewrite ?orb_false_r, ?orb_true_r.
Qed.

(** X5. [addClient] followed at once by [removeClient] of the same id, on
    an id that was not registered and has no queue entry, when no engine
    call raises: the removal returns exactly the packets the engine
    returned from its removal, and registry, queue maps, flags and log are
    those from before the two calls. *)
Theorem addClient_then_removeClient clientId target isLocal h e0 e1 e2 final :
  clientId ∉ m_clients h →
  m_incomingPacketQueue h !! clientId = None →
  m_outgoingPacketQueue h !! clientId = None →
  ws_addClient ws clientId target isLocal (m_worldServer h) = (Ok true, e0) →
  ws_hasClient ws clientId e0 = true →
  ws_handleIncomingPackets ws clientId [] e0 = (Ok tt, e1) →
  ws_hasClient ws clientId e1 = true →
  ws_removeClient ws clientId e1 = (Ok final, e2) →
  bind (addClient ws clientId target isLocal) (λ _, removeClient ws clientId) h
  = (Ok final, withWorldServer e2 h).
Proof.
  intros Hfresh Hin Hout Hadd Hhas Hhandle Hhas' Hremove.
  unfold bind at 1. unfold addClient. rewrite guarded_eq.
  unfold bind, engine. rewrite Hadd. cbn.
  unfold removeClient. rewrite decide_True by (cbn; by apply elem_of_union_l, elem_of_singleton).
  unfold removeClientTry, engine, queueAt. cbn. rewrite Hin, Hhas. cbn.
  rewrite Hhandle. cbn. rewrite Hhas', Hout, Hremove. cbn.
  rewrite !delete_insert_eq, !delete_id by done.
  replace (({[clientId]} ∪ m_clients h) ∖ {[clientId]}) with (m_clients h).
  - by destruct h.
  - apply set_eq. intros x.
    rewrite elem_of_difference, elem_of_union, elem_of_singleton.
    split; [|intros [[->|Hx] Hne]; done].
    intros Hx. split; [by right|]. by intros ->.
Qed.
End Detach.

(** ** What a tick changes, and what no call undoes *)

Section TickChanges.
Context {Packet SpawnTarget WorldChunks E : Type}.
Context (ws : WorldServer Packet SpawnTarget WorldChunks E).
Context (noChunks : WorldChunks).
Context (fidelityNames : string → option WorldServerFidelity).
Implicit Types (h : Host Packet E) (I : Host Packet E → Prop).
Implicit Types (clientId : ConnectionId) (c : Call Packet SpawnTarget E).

(** [update] keeps whatever the queue accesses it makes keep and the
    engine and the log cannot disturb. *)
Lemma update_stable_by I fidelity :
  stable I lockQueue →
  (∀ id, stable I (takeIncoming id)) →
  (∀ id, stable I (touchOutgoing id)) →
  (∀ id l, stable I (appendOutgoing id l)) →
  (∀ h e, I h → I (withWorldServer e h)) →
  (∀ h entry, I h → I (withLogged (logged h ++ [entry]) h)) →
  stable I (update ws fidelity).
Proof.
  intros Hlock Htake Htouch Happend Hengine Hlog.
  assert (Heng : ∀ A (op : E → Res A * E), stable I (engine op)).
  { intros A op. apply stable_engine. intros h. apply Hengine. }
  apply update_stable.
  - intros id ids. apply deliverClient_stable; try done.
    intros e. apply stable_modify. intros h. apply Hlog.
  - intros id. by apply collectClient_stable.
  - apply Heng.
  - unfold stepEngine. apply stable_bind; [apply stable_gets|].
    intros p. apply stable_if; [apply Heng | apply stable_ret].
  - unfold runUpdateAction. apply stable_bind; [apply stable_gets|].
    intros [a|]; [apply Heng | apply stable_ret].
Qed.

Lemma caught_stable_by I e :
  (∀ h entry, I h → I (withLogged (logged h ++ [entry]) h)) →
  (∀ h, I h → I (withErrorOccurred true h)) →
  stable I (caught e).
Proof.
  intros Hlog Hflag. unfold caught.
  apply stable_bind; [|intros _; by apply stable_modify].
  apply stable_modify. intros h. apply Hlog.
Qed.

Lemma tick_stable_by I fidelity :
  stable I lockQueue →
  (∀ id, stable I (takeIncoming id)) →
  (∀ id, stable I (touchOutgoing id)) →
  (∀ id l, stable I (appendOutgoing id l)) →
  (∀ h e, I h → I (withWorldServer e h)) →
  (∀ h entry, I h → I (withLogged (logged h ++ [entry]) h)) →
  (∀ h, I h → I (withErrorOccurred true h)) →
  stable I (tick ws fidelity).
Proof.
  intros Hlock Htake Htouch Happend Hengine Hlog Hflag.
  apply tick_stable; [by apply update_stable_by|].
  intros e. by apply caught_stable_by.
Qed.

(** An assertion that reads none of the engine, the queue maps, the log,
    the error flag, the transcript or the doings of other threads. *)
Lemma tick_stable_settings I fidelity :
  (∀ h h',
     m_clients h' = m_clients h → m_stop h' = m_stop h → m_pause h' = m_pause h →
     m_updateAction h' = m_updateAction h → I h → I h') →
  stable I (tick ws fidelity).
Proof.
  intros HI.
  assert (Hsame : ∀ f : Host Packet E → Host Packet E,
            (∀ h, m_clients (f h) = m_clients h) → (∀ h, m_stop (f h) = m_stop h) →
            (∀ h, m_pause (f h) = m_pause h) →
            (∀ h, m_updateAction (f h) = m_updateAction h) →
            ∀ h, I h → I (f h)).
  { intros f H1 H2 H3 H4 h Hh. by eapply HI; [| | | |exact Hh]. }
  apply tick_stable_by.
  - apply lockQueue_kept. repeat split; intros h0 x; intros; by apply Hsame.
  - intros id h0. by apply Hsame.
  - intros id. apply stable_modify. by apply Hsame.
  - intros id l. apply stable_modify. by apply Hsame.
  - intros h0 e. revert h0. by apply Hsame.
  - intros h0 entry. revert h0. by apply Hsame.
  - by apply Hsame.
Qed.

Lemma update_flag_stays fidelity :
  stable (λ h, m_errorOccurred h = true) (update ws fidelity).
Proof.
  apply update_stable_by.
  - by apply lockQueue_kept.
  - by intros id h0.
  - intros id. by apply stable_modify.
  - intros id l. by apply stable_modify.
  - done.
  - done.
Qed.

Lemma removeClientTry_flag clientId h :
  m_errorOccurred (snd (snd (removeClientTry ws clientId h))) = m_errorOccurred h.
Proof.
  unfold removeClientTry, engine. cbn.
  destruct (ws_hasClient ws clientId (m_worldServer h)); cbn.
  - destruct (ws_handleIncomingPackets ws clientId _ _) as [[[]|e] e1]; cbn; [|done].
    destruct (ws_hasClient ws clientId e1); cbn; [|done].
    by destruct (ws_removeClient ws clientId e1) as [[final|e2] e3].
  - destruct (ws_hasClient ws clientId (m_worldServer h)); cbn; [|done].
    by destruct (ws_removeClient ws clientId _) as [[final|e2] e3].
Qed.

Lemma removeClient_flag_stays clientId h :
  m_errorOccurred h = true → m_errorOccurred (snd (removeClient ws clientId h)) = true.
Proof.
  intros Hflag. pose proof (removeClientTry_flag clientId h) as Htry.
  unfold removeClient. case_decide; [|done].
  destruct (removeClientTry ws clientId h) as [[[]|e] [out h1]]; cbn in *; [|done].
  by rewrite Htry.
Qed.

Lemma tick_flag_stays fidelity :
  stable (λ h, m_errorOccurred h = true) (tick ws fidelity).
Proof.
  apply tick_stable; [apply update_flag_stays|].
  intros e. by apply caught_stable_by.
Qed.

Lemma perform_flag_stays c h :
  m_errorOccurred h = true → m_errorOccurred (snd (perform ws noChunks c h)) = true.
Proof.
  set (I := λ h, m_errorOccurred h = true).
  assert (Heng : ∀ A (op : E → Res A * E), stable I (engine op)).
  { intros A op. by apply stable_engine. }
  assert (Hcaught : ∀ e, stable I (caught e)).
  { intros e. by apply caught_stable_by. }
  change (I h → I (snd (perform ws noChunks c h))).
  destruct c; cbn [perform]; rewrite ?reply_snd; try done.
  - by apply stable_guarded.
  - apply stable_guarded; [|done].
    apply stable_bind; [done|]. intros [|]; [|apply stable_ret].
    apply stable_bind; [|intros _; apply stable_ret]. by apply stable_modify.
  - apply removeClient_flag_stays.
  - apply stable_guarded; [|done].
    apply stable_bind; [done|]. intros [p|]; apply stable_ret.
  - by apply stable_guarded.
  - apply Heng.
  - by apply stable_guarded.
  - apply tick_flag_stays.
Qed.

Lemma runLoop_flag_stays cfg locked envs : ∀ st,
  stable (λ h, m_errorOccurred h = true) (runLoop ws cfg locked envs st).
Proof.
  induction envs as [|env envs IH]; intros st; cbn [runLoop]; [apply stable_ret|].
  apply stable_bind; [apply stable_modify; intros h; by destruct (stopRequested env)|].
  intros _. apply stable_bind; [apply stable_gets|].
  intros [|]; [|apply stable_ret].
  apply stable_bind; [apply update_flag_stays|].
  intros _. apply stable_bind; [|intros _; apply IH].
  apply stable_if; [|apply stable_ret].
  unfold sync. apply stable_bind; [by apply stable_modify|].
  intros _. by apply stable_engine.
Qed.

(** X6. The error flag is sticky: once [serverErrorOccurred] reads true,
    it reads true after any sequence of public calls and ticks, after
    another [run] of the loop, and after destruction.  ([start] alone
    clears it.) *)
Theorem error_flag_is_sticky h :
  serverErrorOccurred h = true →
  (∀ calls, serverErrorOccurred (snd (performAll ws noChunks calls h)) = true)
  ∧ (∀ config envs, serverErrorOccurred (snd (run ws fidelityNames config envs h)) = true)
  ∧ serverErrorOccurred (snd (destroy ws h)) = true
  ∧ serverErrorOccurred (start h) = false.
Proof.
  unfold serverErrorOccurred. intros Hflag. repeat split.
  - intros calls. revert h Hflag.
    induction calls as [|c calls IH]; intros h Hflag; [done|].
    rewrite performAll_snd_cons. by apply IH, perform_flag_stays.
  - intros config envs. revert h Hflag. unfold run.
    apply (stable_tryCatch (λ h, m_errorOccurred h = true));
      [|intros e; by apply caught_stable_by].
    destruct config as [cfg|e]; [|apply stable_raise].
    destruct (lockedFidelityOf fidelityNames cfg) as [locked|e]; [|apply stable_raise].
    apply stable_bind; [apply runLoop_flag_stays | intros _; apply stable_ret].
  - unfold destroy, bind, modify, gets. cbn.
    generalize (ws_clientIds ws (m_worldServer h)). intros ids.
    assert (Hflag' : m_errorOccurred (withStop true h) = true) by done.
    revert Hflag'. generalize (withStop true h). clear h Hflag.
    induction ids as [|id ids IH]; intros h Hflag; [done|].
    rewrite removeClients_snd_cons. by apply IH, removeClient_flag_stays.
Qed.

(** X7. A tick registers and unregisters no client, leaves the stop
    request, the pause flag and the update hook as they are, removes no
    queue entry and takes nothing out of the log.  (The update hook is
    followed on the engine; what it calls on the host are calls of their
    own.) *)
Theorem tick_leaves_registry_and_settings fidelity h :
  m_clients (snd (tick ws fidelity h)) = m_clients h
  ∧ m_stop (snd (tick ws fidelity h)) = m_stop h
  ∧ m_pause (snd (tick ws fidelity h)) = m_pause h
  ∧ m_updateAction (snd (tick ws fidelity h)) = m_updateAction h
  ∧ (∀ id, is_Some (m_incomingPacketQueue h !! id) →
           is_Some (m_incomingPacketQueue (snd (tick ws fidelity h)) !! id))
  ∧ (∀ id, is_Some (m_outgoingPacketQueue h !! id) →
           is_Some (m_outgoingPacketQueue (snd (tick ws fidelity h)) !! id))
  ∧ logged h `prefix_of` logged (snd (tick ws fidelity h)).
Proof.
  split; [|split; [|split; [|split; [|split; [|split]]]]].
  - by apply (tick_stable_settings (λ h', m_clients h' = m_clients h));
      [intros h1 h2 -> _ _ _|].
  - by apply (tick_stable_settings (λ h', m_stop h' = m_stop h));
      [intros h1 h2 _ -> _ _|].
  - by apply (tick_stable_settings (λ h', m_pause h' = m_pause h));
      [intros h1 h2 _ _ -> _|].
  - by apply (tick_stable_settings (λ h', m_updateAction h' = m_updateAction h));
      [intros h1 h2 _ _ _ ->|].
  - intros id. apply (tick_keeps ws _ fidelity (keptByInserts_incoming id)).
  - intros id. apply (tick_keeps ws _ fidelity (keptByInserts_outgoing id)).
  - apply (tick_stable_by (λ h', logged h `prefix_of` logged h')); [| | | | | | |done..].
    + by apply lockQueue_kept.
    + by intros id h0.
    + intros id. by apply stable_modify.
    + intros id l. by apply stable_modify.
    + done.
    + intros h0 entry Hpre. cbn. by apply prefix_app_r.
    + done.
Qed.

End TickChanges.

(** ** A tick in which every delivery returns *)

Section Delivery.
Context {Packet SpawnTarget WorldChunks E : Type}.
Context (ws : WorldServer Packet SpawnTarget WorldChunks E).
Implicit Types (h : Host Packet E) (clientId id : ConnectionId).

Lemma deliverClient_returns clientId ids h :
  otherThreads h = [] →
  isThrow (fst (ws_handleIncomingPackets ws clientId
                  (queueAt (m_incomingPacketQueue h) clientId) (m_worldServer h))) = false →
  deliverClient ws clientId ids h = (Ok ids, deliveredTo ws clientId h).
Proof.
  intros Hquiet Hok. unfold deliverClient, deliveredTo, bind at 1, lockQueue.
  rewrite Hquiet. unfold bind at 1. cbn. unfold tryCatch, bind, engine. cbn.
  by destruct (ws_handleIncomingPackets ws clientId _ _) as [[[]|e] e1].
Qed.

Lemma deliveredTo_quiet clientId h :
  otherThreads (deliveredTo ws clientId h) = otherThreads h.
Proof. done. Qed.

Lemma deliveredToAll_cons clientId ids h :
  deliveredToAll ws (clientId :: ids) h = deliveredToAll ws ids (deliveredTo ws clientId h).
Proof. done. Qed.

Lemma deliverLoop_returns (ids : list ConnectionId) remaining : ∀ i h,
  otherThreads h = [] →
  deliveriesReturn ws (take remaining (drop i ids)) h = true →
  deliverLoop ws remaining i (idListFrom ids) h
  = (Ok (idListFrom ids), deliveredToAll ws (take remaining (drop i ids)) h).
Proof.
  induction remaining as [|n IH]; intros i h Hquiet Hok; [done|].
  cbn [deliverLoop idListFrom slots].
  destruct (ids !! i) as [clientId|] eqn:Hi.
  - rewrite (drop_S _ _ _ Hi) in Hok |- *. cbn [take deliveriesReturn] in Hok |- *.
    apply andb_true_iff in Hok as [Hthis Hrest]. apply negb_true_iff in Hthis.
    unfold bind. rewrite deliverClient_returns by done.
    rewrite deliveredToAll_cons. by apply IH.
  - apply lookup_ge_None in Hi. by rewrite drop_ge.
Qed.


Lemma deliveredToAll_hook ids : ∀ h,
  m_updateAction (deliveredToAll ws ids h) = m_updateAction h.
Proof.
  induction ids as [|c ids IH]; intros h; [done|]. by rewrite deliveredToAll_cons, IH.
Qed.


(** What follows the first loop in [update]. *)
Lemma afterDelivery_stable (I : Host Packet E → Prop) fidelity ids :
  stable I (engine (ws_setFidelity ws fidelity)) →
  stable I (stepEngine ws) →
  (∀ clientId, stable I (collectClient ws clientId)) →
  stable I runUpdateAction →
  stable I
    (bind (engine (ws_setFidelity ws fidelity)) (λ _,
     bind (stepEngine ws) (λ _,
     bind (collectLoop ws ids) (λ _, runUpdateAction)))).
Proof.
  intros Hfid Hstep Hcollect Hhook.
  apply stable_bind; [done|]. intros _.
  apply stable_bind; [done|]. intros _.
  apply stable_bind; [by apply collectLoop_stable|]. intros _. done.
Qed.

(** [tick] when the first loop returns for every client. *)
Lemma tick_after_returns fidelity h :
  otherThreads h = [] →
  deliveriesReturn ws (ws_clientIds ws (m_worldServer h)) h = true →
  tick ws fidelity h
  = tryCatch
      (bind (engine (ws_setFidelity ws fidelity)) (λ _,
       bind (stepEngine ws) (λ _,
       bind (collectLoop ws (ws_clientIds ws (m_worldServer h))) (λ _, runUpdateAction))))
      caught
      (deliveredToAll ws (ws_clientIds ws (m_worldServer h)) h).
Proof.
  intros Hquiet Hok.
  unfold tick, tryCatch, update. unfold bind at 1. cbn.
  unfold bind at 1. rewrite deliverLoop_returns; [|done|by rewrite drop_0, firstn_all].
  rewrite drop_0, firstn_all. unfold idListValues. cbn. by rewrite firstn_all.
Qed.

End Delivery.

Section TracedDelivery.
Context {Packet SpawnTarget WorldChunks E : Type}.
Context (ws : WorldServer Packet SpawnTarget WorldChunks E).
Implicit Types (h : Host Packet (Traced Packet E)) (clientId id : ConnectionId).

Lemma deliveredTo_delivered clientId h :
  delivered (m_worldServer (deliveredTo (traced ws) clientId h))
  = <[clientId := queueAt (delivered (m_worldServer h)) clientId
                  ++ queueAt (m_incomingPacketQueue h) clientId]>
      (delivered (m_worldServer h)).
Proof.
  unfold deliveredTo. cbn. unfold untraced. cbn.
  by destruct (ws_handleIncomingPackets ws clientId _ _).
Qed.

Lemma deliveredToAll_delivered id ids : ∀ h,
  queueAt (delivered (m_worldServer (deliveredToAll (traced ws) ids h))) id
  = queueAt (delivered (m_worldServer h)) id
      ++ (if bool_decide (id ∈ ids) then queueAt (m_incomingPacketQueue h) id else []).
Proof.
  induction ids as [|c ids IH]; intros h; [by rewrite app_nil_r|].
  rewrite deliveredToAll_cons, IH, deliveredTo_delivered. cbn.
  rewrite !queueAt_insert.
  destruct (decide (c = id)) as [->|Hne].
  - rewrite (bool_decide_eq_true_2 (id ∈ id :: ids)) by apply list_elem_of_here.
    case_bool_decide; by rewrite ?app_nil_r.
  - case_bool_decide as Hin.
    + by rewrite bool_decide_eq_true_2 by by apply list_elem_of_further.
    + rewrite bool_decide_eq_false_2; [done|].
      by intros [->|Hin']%elem_of_cons.
Qed.

Lemma deliveredKept_untraced {A} (op : E → Res A * E) D :
  stable (λ h, delivered (m_worldServer h) = D ∧ hookUntraced h) (engine (untraced op)).
Proof.
  apply stable_engine. intros h [Hd Hhook]. cbn. unfold untraced.
  by destruct (op (inner (m_worldServer h))).
Qed.

Lemma deliveredKept_producing clientId (op : E → Res (list Packet) * E) D :
  stable (λ h, delivered (m_worldServer h) = D ∧ hookUntraced h)
    (engine (producing clientId op)).
Proof.
  apply stable_engine. intros h [Hd Hhook]. cbn. unfold producing.
  by destruct (op (inner (m_worldServer h))) as [[packets|e] e'].
Qed.

(** X10. Measured on an engine that records its traffic: when no other
    thread touches the queues and every delivery of the tick returns (the
    engine, in the state the tick has reached, accepts what the client has
    queued), a tick hands the engine the whole incoming queue of every
    client it listed, in order and once, and hands it nothing for any
    other id. *)
Theorem tick_hands_over_each_queue_once fidelity h id :
  otherThreads h = [] →
  hookUntraced h →
  deliveriesReturn (traced ws) (ws_clientIds ws (inner (m_worldServer h))) h = true →
  queueAt (delivered (m_worldServer (snd (tick (traced ws) fidelity h)))) id
  = queueAt (delivered (m_worldServer h)) id
      ++ (if bool_decide (id ∈ ws_clientIds ws (inner (m_worldServer h)))
          then queueAt (m_incomingPacketQueue h) id else []).
Proof.
  intros Hquiet Hhook Hok.
  rewrite (tick_after_returns (traced ws)) by done.
  change (ws_clientIds (traced ws) (m_worldServer h))
    with (ws_clientIds ws (inner (m_worldServer h))).
  rewrite <-(deliveredToAll_delivered id (ws_clientIds ws (inner (m_worldServer h))) h).
  set (h1 := deliveredToAll (traced ws) _ h).
  set (I := λ h' : Host Packet (Traced Packet E),
         delivered (m_worldServer h') = delivered (m_worldServer h1) ∧ hookUntraced h').
  match goal with |- queueAt (delivered (m_worldServer (snd (tryCatch ?body caught h1)))) id = _ =>
    assert (HI : I (snd (tryCatch body caught h1))) end; [|by destruct HI as (-> & _)].
  apply (stable_tryCatch I).
  - apply afterDelivery_stable.
    + apply stable_engine. intros h0 [Hd Hh]. cbn. unfold untraced. cbn.
      by destruct (ws_setFidelity ws fidelity (inner (m_worldServer h0))).
    + unfold stepEngine. apply stable_bind; [apply stable_gets|].
      intros p. apply stable_if; [apply deliveredKept_untraced | apply stable_ret].
    + intros clientId. apply collectClient_stable.
      * by apply lockQueue_kept.
      * apply deliveredKept_producing.
      * intros packets. by apply stable_modify.
    + intros h0 HI. pose proof HI as (_ & Hh).
      unfold runUpdateAction, bind, gets. unfold hookUntraced in Hh.
      destruct (m_updateAction h0) as [action|] eqn:Haction; [|done].
      destruct Hh as [a ->].
      assert (Hkeep : I (snd (engine (untraced a) h0))).
      { apply deliveredKept_untraced. destruct HI as [Hd Hh].
        split; [done|]. unfold hookUntraced. rewrite Haction. by exists a. }
      done.
  - intros e. by apply caught_stable_by.
  - split; [done|]. unfold hookUntraced, h1. by rewrite deliveredToAll_hook.
Qed.
End TracedDelivery.

(** ** The queue calls among themselves *)

Section QueueCalls.
Context {Packet E : Type}.
Implicit Types (h : Host Packet E) (clientId other : ConnectionId).

(** X12. Two pushes for one id amount to one push of the two batches in
    order; pushes for different ids can be exchanged; and a push and a pull
    never disturb one another, also for one and the same id. *)
Theorem pushIncomingPackets_compose clientId other (a b : list Packet) h :
  bind (pushIncomingPackets clientId a) (λ _, pushIncomingPackets clientId b) h
    = pushIncomingPackets clientId (a ++ b) h
  ∧ (other ≠ clientId →
     bind (pushIncomingPackets clientId a) (λ _, pushIncomingPackets other b) h
     = bind (pushIncomingPackets other b) (λ _, pushIncomingPackets clientId a) h)
  ∧ bind (pullOutgoingPackets other) (λ out,
      bind (pushIncomingPackets clientId a) (λ _, ret out)) h
    = bind (pushIncomingPackets clientId a) (λ _, pullOutgoingPackets other) h.
Proof.
  split; [|split].
  - unfold bind, pushIncomingPackets, modify. cbn. unfold withIncoming. cbn.
    by rewrite queueAt_insert, decide_True, insert_insert_eq, app_assoc.
  - intros Hne. unfold bind, pushIncomingPackets, modify. cbn. unfold withIncoming. cbn.
    rewrite !queueAt_insert, !decide_False by done.
    by rewrite insert_insert_ne.
  - done.
Qed.
End QueueCalls.

(** ** The end of the run loop *)

Section RunEnds.
Context {Packet SpawnTarget WorldChunks E : Type}.
Context (ws : WorldServer Packet SpawnTarget WorldChunks E).
Context (fidelityNames : string → option WorldServerFidelity).
Implicit Types (h : Host Packet E) (clientId id : ConnectionId).

Lemma runLoop_cons cfg locked env envs st h :
  runLoop ws cfg locked (env :: envs) st h
  = let h0 := if stopRequested env then withStop true h else h in
    if negb (m_stop h0) && negb (m_errorOccurred h0) then
      match update ws (default (automaticFidelity st) locked) h0 with
      | (Ok _, h1) =>
          match (if storageTimeUp env then sync ws else ret tt) h1 with
          | (Ok _, h2) =>
              runLoop ws cfg locked envs
                (adjustFidelity (fidelityDecrementScore cfg) (fidelityIncrementScore cfg)
                   (spareTime env) st) h2
          | (Throw e, h2) => (Throw e, h2)
          end
      | (Throw e, h1) => (Throw e, h1)
      end
    else (Ok st, h0).
Proof.
  cbn [runLoop]. unfold bind at 1, modify. unfold bind at 1, gets.
  cbv zeta. destruct (negb _ && negb _); [|done].
  unfold bind at 1. destruct (update ws _ _) as [[[]|e] h1]; [|done].
  unfold bind at 1. by destruct ((if storageTimeUp env then sync ws else ret ()) h1) as [[[]|e] h2].
Qed.

Lemma update_keeps_flags f h :
  m_stop (snd (update ws f h)) = m_stop h
  ∧ m_errorOccurred (snd (update ws f h)) = m_errorOccurred h.
Proof.
  apply (update_stable_by ws
           (λ h', m_stop h' = m_stop h ∧ m_errorOccurred h' = m_errorOccurred h));
    [| | | | | |done].
  - by apply lockQueue_kept.
  - by intros id h0.
  - intros id. by apply stable_modify.
  - intros id l. by apply stable_modify.
  - done.
  - done.
Qed.

Lemma sync_keeps_flags h :
  m_stop (snd (sync ws h)) = m_stop h
  ∧ m_errorOccurred (snd (sync ws h)) = m_errorOccurred h.
Proof.
  unfold sync, bind, logError, modify, engine. cbn.
  by destruct (ws_sync ws (m_worldServer h)) as [[[]|e] e'].
Qed.

Lemma withStop_true_id h : m_stop h = true → withStop true h = h.
Proof. destruct h. cbn. by intros ->. Qed.

(** With the stop requested the loop is not entered. *)
Lemma runLoop_stopped cfg locked envs st h :
  m_stop h = true → runLoop ws cfg locked envs st h = (Ok st, h).
Proof.
  intros Hstop. destruct envs as [|env envs]; [done|].
  rewrite runLoop_cons. cbv zeta.
  replace (if stopRequested env then withStop true h else h) with h
    by (destruct (stopRequested env); by rewrite ?withStop_true_id).
  by rewrite Hstop.
Qed.

(** The loop over [before ++ rest] is the loop over [before], followed by
    the loop over [rest] unless a fault or a stop request has ended it. *)
Lemma runLoop_app cfg locked before rest : ∀ st h,
  m_errorOccurred h = false →
  runLoop ws cfg locked (before ++ rest) st h
  = match runLoop ws cfg locked before st h with
    | (Ok st', h') => if m_stop h' then (Ok st', h') else runLoop ws cfg locked rest st' h'
    | (Throw e, h') => (Throw e, h')
    end.
Proof.
  induction before as [|env before IH]; intros st h Herr.
  - cbn [app runLoop ret]. destruct (m_stop h) eqn:Hstop; [|done].
    by apply runLoop_stopped.
  - cbn [app]. rewrite !runLoop_cons. cbv zeta.
    set (h0 := if stopRequested env then withStop true h else h).
    assert (Herr0 : m_errorOccurred h0 = false)
      by (unfold h0; by destruct (stopRequested env)).
    rewrite Herr0. cbn [negb]. rewrite andb_true_r.
    destruct (m_stop h0) eqn:Hstop0; cbn [negb]; [by rewrite Hstop0|].
    pose proof (update_keeps_flags (default (automaticFidelity st) locked) h0)
      as [_ Herr1].
    destruct (update ws _ h0) as [[[]|e] h1]; [|done]. cbn in Herr1.
    assert (Herr2 : m_errorOccurred
                      (snd ((if storageTimeUp env then sync ws else ret ()) h1)) = false).
    { destruct (storageTimeUp env); [|cbn; by rewrite Herr1].
      destruct (sync_keeps_flags h1) as [_ ->]. by rewrite Herr1. }
    destruct ((if storageTimeUp env then sync ws else ret ()) h1) as [[[]|e] h2]; [|done].
    by apply IH.
Qed.

Lemma runLoop_keeps_flag cfg locked envs : ∀ st h,
  m_errorOccurred (snd (runLoop ws cfg locked envs st h)) = m_errorOccurred h.
Proof.
  induction envs as [|env envs IH]; intros st h; [done|].
  rewrite runLoop_cons. cbv zeta.
  set (h0 := if stopRequested env then withStop true h else h).
  assert (Herr0 : m_errorOccurred h0 = m_errorOccurred h)
    by (unfold h0; by destruct (stopRequested env)).
  destruct (negb (m_stop h0) && negb (m_errorOccurred h0)); [|done].
  pose proof (update_keeps_flags (default (automaticFidelity st) locked) h0)
    as [_ Herr1].
  destruct (update ws _ h0) as [[[]|e] h1]; cbn in *; [|by rewrite Herr1].
  assert (Herr2 : m_errorOccurred
                    (snd ((if storageTimeUp env then sync ws else ret ()) h1))
                  = m_errorOccurred h1).
  { destruct (storageTimeUp env); [|done]. by destruct (sync_keeps_flags h1). }
  destruct ((if storageTimeUp env then sync ws else ret ()) h1) as [[[]|e] h2];
    cbn in *; [|by rewrite Herr2, Herr1].
  by rewrite IH, Herr2, Herr1.
Qed.

(** X13. The stop request is tested at the head of each iteration, before
    anything else is done.  An iteration that finds the stop requested
    makes no call of [update] and no [sync]: [run] over the observations
    up to and including that iteration, whatever would have been observed
    afterwards, leaves the host as [run] over the observations before it
    does, with the stop request recorded as [stop] records it (and without
    even that when a fault had ended the loop before). *)
Theorem run_ends_at_stop_request config before env after h :
  stopRequested env = true →
  m_errorOccurred h = false →
  run ws fidelityNames config (before ++ env :: after) h
  = (Ok tt,
     if m_errorOccurred (snd (run ws fidelityNames config before h))
     then snd (run ws fidelityNames config before h)
     else stop (snd (run ws fidelityNames config before h))).
Proof.
  intros Hreq Herr. unfold run, tryCatch.
  destruct config as [cfg|e]; [|done].
  destruct (lockedFidelityOf fidelityNames cfg) as [locked|e]; [|done].
  unfold bind. rewrite runLoop_app by done.
  pose proof (runLoop_keeps_flag cfg locked before
                {| fidelityScore := 0%float; automaticFidelity := Medium |} h) as Hflag.
  destruct (runLoop ws cfg locked before _ h) as [[st'|e] h'] eqn:Hbefore; cbn in *;
    [|done].
  rewrite Hflag, Herr. unfold stop.
  destruct (m_stop h') eqn:Hstop; [by rewrite withStop_true_id|].
  by rewrite Hreq.
Qed.

Lemma deliverClient_forced_removal_fault clientId ids h e e' e1 e2 :
  otherThreads h = [] →
  ws_handleIncomingPackets ws clientId (queueAt (m_incomingPacketQueue h) clientId)
    (m_worldServer h) = (Throw e, e1) →
  ws_removeClient ws clientId e1 = (Throw e', e2) →
  deliverClient ws clientId ids h
  = (Throw e', withWorldServer e2 (faultLogged clientId e h)).
Proof.
  intros Hquiet Hfault Hremove.
  unfold deliverClient, bind, tryCatch, lockQueue, engine. cbn.
  rewrite Hquiet. cbn. rewrite Hfault. cbn. rewrite Hquiet. cbn. by rewrite Hremove.
Qed.

Lemma deliverLoop_forced_removal_fault ids clientId rest e e' e1 e2 before : ∀ remaining i h,
  drop i ids = before ++ clientId :: rest →
  length before < remaining →
  otherThreads h = [] →
  deliveriesReturn ws before h = true →
  ws_handleIncomingPackets ws clientId
    (queueAt (m_incomingPacketQueue (deliveredToAll ws before h)) clientId)
    (m_worldServer (deliveredToAll ws before h)) = (Throw e, e1) →
  ws_removeClient ws clientId e1 = (Throw e', e2) →
  deliverLoop ws remaining i (idListFrom ids) h
  = (Throw e',
     withWorldServer e2 (faultLogged clientId e (deliveredToAll ws before h))).
Proof.
  induction before as [|c before IH]; intros remaining i h Hdrop Hlen Hquiet Hok Hfault Hremove.
  - destruct remaining as [|n]; [cbn in Hlen; lia|].
    cbn [deliverLoop idListFrom slots].
    assert (Hi : ids !! i = Some clientId).
    { rewrite <-(Nat.add_0_r i), <-lookup_drop, Hdrop. done. }
    rewrite Hi. cbn in Hfault.
    unfold bind. by rewrite (deliverClient_forced_removal_fault _ _ _ e e' e1 e2).
  - destruct remaining as [|n]; [cbn in Hlen; lia|].
    cbn [deliverLoop idListFrom slots].
    assert (Hi : ids !! i = Some c).
    { rewrite <-(Nat.add_0_r i), <-lookup_drop, Hdrop. done. }
    assert (Hdrop' : drop (S i) ids = before ++ clientId :: rest).
    { rewrite (drop_S _ _ _ Hi) in Hdrop. by injection Hdrop. }
    rewrite Hi. cbn [deliveriesReturn] in Hok.
    apply andb_true_iff in Hok as [Hthis Hrest]. apply negb_true_iff in Hthis.
    unfold bind. rewrite deliverClient_returns by done.
    rewrite deliveredToAll_cons in Hfault |- *.
    apply IH; try done. cbn in Hlen. lia.
Qed.

Lemma update_forced_removal_fault fidelity h before clientId rest e e' e1 e2 :
  ws_clientIds ws (m_worldServer h) = before ++ clientId :: rest →
  otherThreads h = [] →
  deliveriesReturn ws before h = true →
  ws_handleIncomingPackets ws clientId
    (queueAt (m_incomingPacketQueue (deliveredToAll ws before h)) clientId)
    (m_worldServer (deliveredToAll ws before h)) = (Throw e, e1) →
  ws_removeClient ws clientId e1 = (Throw e', e2) →
  update ws fidelity h
  = (Throw e',
     withWorldServer e2 (faultLogged clientId e (deliveredToAll ws before h))).
Proof.
  intros Hids Hquiet Hok Hfault Hremove.
  unfold update. unfold bind at 1. cbn.
  unfold bind at 1.
  rewrite (deliverLoop_forced_removal_fault
             (ws_clientIds ws (m_worldServer h)) clientId rest e e' e1 e2 before);
    try done.
  rewrite Hids, length_app. cbn. lia.
Qed.

(** X14. A fault inside the handler of a delivery fault ends the tick
    and the loop.  While no other thread touches the queues: when the
    deliveries to the clients listed before [clientId] return, the
    delivery for [clientId] raises, and the engine's removal of that client
    raises too, the second fault leaves [update].  The clients listed after
    it are not served, the engine is given no fidelity level and no update
    step, nothing is collected and the update hook is not run; the handler
    of [run] logs the second fault and sets the error flag, and [run]
    returns without another iteration. *)
Theorem tick_ends_on_fault_in_forced_removal
    fidelity h before clientId rest e e' e1 e2 :
  ws_clientIds ws (m_worldServer h) = before ++ clientId :: rest →
  otherThreads h = [] →
  deliveriesReturn ws before h = true →
  ws_handleIncomingPackets ws clientId
    (queueAt (m_incomingPacketQueue (deliveredToAll ws before h)) clientId)
    (m_worldServer (deliveredToAll ws before h)) = (Throw e, e1) →
  ws_removeClient ws clientId e1 = (Throw e', e2) →
  tick ws fidelity h
    = (Ok tt,
       flagged e'
         (withWorldServer e2 (faultLogged clientId e (deliveredToAll ws before h))))
  ∧ ∀ cfg locked env envs,
      lockedFidelityOf fidelityNames cfg = Ok locked →
      stopRequested env = false → m_stop h = false → m_errorOccurred h = false →
      run ws fidelityNames (Ok cfg) (env :: envs) h
      = (Ok tt,
         flagged e'
           (withWorldServer e2 (faultLogged clientId e (deliveredToAll ws before h)))).
Proof.
  intros Hids Hquiet Hok Hfault Hremove. split.
  - unfold tick, tryCatch.
    by rewrite (update_forced_removal_fault fidelity h before clientId rest e e' e1 e2).
  - intros cfg locked env envs Hlocked Hreq Hstop Herr.
    unfold run, tryCatch. rewrite Hlocked. unfold bind.
    rewrite runLoop_cons, Hreq. cbv zeta. rewrite Hstop, Herr. cbn [negb andb].
    by rewrite (update_forced_removal_fault _ h before clientId rest e e' e1 e2).
Qed.
End RunEnds.

(** ** Faults at the boundary of the public operations *)

Section Containment.
Context {Packet SpawnTarget WorldChunks E : Type}.
Context (ws : WorldServer Packet SpawnTarget WorldChunks E).
Context (noChunks : WorldChunks).
Context (fidelityNames : string → option WorldServerFidelity).

Implicit Types (h : Host Packet E) (clientId : ConnectionId).




End Containment.

(** ** The pause flag *)

Section Pause.
Context {Packet SpawnTarget WorldChunks E : Type}.
Context (ws : WorldServer Packet SpawnTarget WorldChunks E).
Context (fidelityNames : string → option WorldServerFidelity).
Implicit Types (h : Host Packet E) (op : E → Res unit * E).

Lemma deliverLoop_withUpdateStep op remaining : ∀ i ids h,
  deliverLoop (withUpdateStep op ws) remaining i ids h = deliverLoop ws remaining i ids h.
Proof.
  induction remaining as [|n IH]; intros i ids h; [done|].
  cbn. destruct (slots ids !! i) as [clientId|]; [|done].
  unfold bind.
  change (deliverClient (withUpdateStep op ws) clientId ids h)
    with (deliverClient ws clientId ids h).
  destruct (deliverClient ws clientId ids h) as [[ids'|e] h1]; [apply IH | done].
Qed.

Lemma collectLoop_withUpdateStep op ids : ∀ h,
  collectLoop (withUpdateStep op ws) ids h = collectLoop ws ids h.
Proof.
  induction ids as [|clientId rest IH]; intros h; [done|].
  cbn. unfold bind.
  change (collectClient (withUpdateStep op ws) clientId h)
    with (collectClient ws clientId h).
  destruct (collectClient ws clientId h) as [[[]|e] h1]; [apply IH | done].
Qed.

Lemma deliverLoop_pause remaining i ids h :
  m_pause (snd (deliverLoop ws remaining i ids h)) = m_pause h.
Proof.
  apply (deliverLoop_stable ws (λ h', m_pause h' = m_pause h)); [|done].
  intros clientId ids'. apply deliverClient_stable.
  - by apply lockQueue_kept.
  - by intros h0.
  - intros packets. by apply stable_engine.
  - intros e. by apply stable_modify.
  - by apply stable_modify.
  - by apply stable_engine.
  - intros packets. by apply stable_modify.
Qed.

Lemma update_pause fidelity h : m_pause (snd (update ws fidelity h)) = m_pause h.
Proof.
  apply (update_stable_by ws (λ h', m_pause h' = m_pause h)); [| | | | | |done].
  - by apply lockQueue_kept.
  - by intros id h0.
  - intros id. by apply stable_modify.
  - intros id l. by apply stable_modify.
  - done.
  - done.
Qed.

Lemma update_withUpdateStep_paused op fidelity h :
  m_pause h = Some true →
  update (withUpdateStep op ws) fidelity h = update ws fidelity h.
Proof.
  intros Hpause.
  unfold update. unfold bind at 1 6. cbn.
  unfold bind at 1 5. rewrite deliverLoop_withUpdateStep.
  pose proof (deliverLoop_pause (length (ws_clientIds ws (m_worldServer h))) 0
                (idListFrom (ws_clientIds ws (m_worldServer h))) h) as Hp.
  destruct (deliverLoop ws _ 0 _ h) as [[ids|e] h1]; [|done].
  cbn in Hp. unfold bind at 1 4. unfold engine at 1 2. cbn.
  destruct (ws_setFidelity ws fidelity (m_worldServer h1)) as [[[]|e] e1]; [|done].
  unfold bind at 1 3. unfold stepEngine, bind, gets. cbn. rewrite Hp, Hpause. cbn.
  rewrite collectLoop_withUpdateStep.
  by destruct (collectLoop ws (idListValues ids) (withWorldServer e1 h1)) as [[[]|e] h2].
Qed.

Lemma runLoop_withUpdateStep_paused op cfg locked envs : ∀ st h,
  m_pause h = Some true →
  runLoop (withUpdateStep op ws) cfg locked envs st h = runLoop ws cfg locked envs st h.
Proof.
  induction envs as [|env envs IH]; intros st h Hpause; [done|].
  rewrite !runLoop_cons. cbv zeta.
  set (h0 := if stopRequested env then withStop true h else h).
  assert (Hpause0 : m_pause h0 = Some true) by (unfold h0; by destruct (stopRequested env)).
  destruct (negb (m_stop h0) && negb (m_errorOccurred h0)); [|done].
  rewrite update_withUpdateStep_paused by done.
  pose proof (update_pause (default (automaticFidelity st) locked) h0) as Hpause1.
  destruct (update ws _ h0) as [[[]|e] h1]; [|done]. cbn in Hpause1.
  change (sync (withUpdateStep op ws)) with (sync ws).
  assert (Hpause2 : m_pause (snd ((if storageTimeUp env then sync ws else ret ()) h1))
                    = m_pause h1).
  { destruct (storageTimeUp env); [|done].
    unfold sync, bind, logError, modify, engine. cbn.
    by destruct (ws_sync ws (m_worldServer h1)) as [[[]|e] e']. }
  destruct ((if storageTimeUp env then sync ws else ret ()) h1) as [[[]|e] h2]; [|done].
  apply IH. cbn in Hpause2. by rewrite Hpause2, Hpause1.
Qed.

Lemma update_paused fidelity h :
  m_pause h = Some true →
  update ws fidelity h = pausedUpdate ws fidelity h.
Proof.
  intros Hpause.
  unfold update, pausedUpdate. unfold bind at 1 6. cbn.
  unfold bind at 1 5.
  pose proof (deliverLoop_pause (length (ws_clientIds ws (m_worldServer h))) 0
                (idListFrom (ws_clientIds ws (m_worldServer h))) h) as Hp.
  destruct (deliverLoop ws _ 0 _ h) as [[ids|e] h1]; [|done].
  cbn in Hp. unfold bind at 1 4. unfold engine at 1 2. cbn.
  destruct (ws_setFidelity ws fidelity (m_worldServer h1)) as [[[]|e] e1]; [|done].
  unfold bind at 1. unfold stepEngine, bind, gets. cbn. by rewrite Hp, Hpause.
Qed.

(** X8. While the pause flag reads true the update step of the engine is
    left out and nothing else is.  A tick is [update] without that step
    ([pausedUpdate]): the deliveries, the fidelity setting, the collection
    and the update hook, in that order; an iteration of the run loop is
    that tick followed by the periodic sync when the storage timer is up.
    Whatever the update step would do, return, change or raise, the
    outcome and the host of a tick and of the whole run loop are the
    same. *)
Theorem paused_tick_skips_engine_update op fidelity h :
  m_pause h = Some true →
  update ws fidelity h = pausedUpdate ws fidelity h
  ∧ tick ws fidelity h = tryCatch (pausedUpdate ws fidelity) caught h
  ∧ (∀ cfg locked env envs st,
       stopRequested env = false → m_stop h = false → m_errorOccurred h = false →
       runLoop ws cfg locked (env :: envs) st h
       = bind (pausedUpdate ws (default (automaticFidelity st) locked)) (λ _,
         bind (if storageTimeUp env then sync ws else ret tt) (λ _,
         runLoop ws cfg locked envs
           (adjustFidelity (fidelityDecrementScore cfg) (fidelityIncrementScore cfg)
              (spareTime env) st))) h)
  ∧ tick (withUpdateStep op ws) fidelity h = tick ws fidelity h
  ∧ (∀ config envs,
       run (withUpdateStep op ws) fidelityNames config envs h
       = run ws fidelityNames config envs h).
Proof.
  intros Hpause. split; [|split; [|split; [|split]]].
  - by apply update_paused.
  - unfold tick, tryCatch. by rewrite update_paused.
  - intros cfg locked env envs st Hreq Hstop Herr.
    rewrite runLoop_cons, Hreq. cbv zeta. rewrite Hstop, Herr. cbn [negb andb].
    unfold bind. by rewrite update_paused.
  - unfold tick, tryCatch. by rewrite update_withUpdateStep_paused.
  - intros config envs. unfold run, tryCatch.
    destruct config as [cfg|e]; [|done].
    destruct (lockedFidelityOf fidelityNames cfg) as [locked|e]; [|done].
    unfold bind. by rewrite runLoop_withUpdateStep_paused.
Qed.
End Pause.

(** ** The update hook *)

Section Hook.
Context {Packet SpawnTarget WorldChunks E : Type}.
Context (ws : WorldServer Packet SpawnTarget WorldChunks E).
Implicit Types (h : Host Packet E) (hook : option (WorldServerAction E)).

(** [c] neither reads nor writes the update hook. *)
Local Abbreviation hookFree c :=
  (∀ hook h, c (setUpdateAction hook h)
             = (fst (c h), setUpdateAction hook (snd (c h)))).

Lemma hookFree_bind {A B} (c : M Packet E A) (k : A → M Packet E B) :
  hookFree c → (∀ a, hookFree (k a)) → hookFree (bind c k).
Proof.
  intros Hc Hk hook h. unfold bind. rewrite Hc.
  destruct (c h) as [[a|e] h1]; cbn; [apply Hk | done].
Qed.

Lemma hookFree_tryCatch {A} (body : M Packet E A) (handler : exception → M Packet E A) :
  hookFree body → (∀ e, hookFree (handler e)) → hookFree (tryCatch body handler).
Proof.
  intros Hb Hh hook h. unfold tryCatch. rewrite Hb.
  destruct (body h) as [[a|e] h1]; cbn; [done | apply Hh].
Qed.

Lemma hookFree_engine {A} (op : E → Res A * E) : hookFree (engine op).
Proof.
  intros hook h. unfold engine. cbn. by destruct (op (m_worldServer h)).
Qed.

Lemma hookFree_runQueueCalls (qs : list (QueueCall Packet)) :
  hookFree (runQueueCalls (E:=E) qs).
Proof.
  induction qs as [|q qs IH]; [done|]. cbn [runQueueCalls].
  apply hookFree_bind; [|intros _; apply IH].
  by destruct q.
Qed.

Lemma hookFree_lockQueue : hookFree (lockQueue (Packet:=Packet) (E:=E)).
Proof.
  intros hook h. unfold lockQueue. cbn.
  destruct (otherThreads h) as [|batch later]; [done|].
  apply (hookFree_runQueueCalls batch hook (withOtherThreads later h)).
Qed.

Lemma hookFree_deliverClient clientId ids : hookFree (deliverClient ws clientId ids).
Proof.
  unfold deliverClient.
  apply hookFree_bind; [apply hookFree_lockQueue|]. intros _.
  apply hookFree_bind; [done|]. intros incoming.
  apply hookFree_tryCatch.
  - apply hookFree_bind; [apply hookFree_engine | done].
  - intros e.
    apply hookFree_bind; [done|]. intros _.
    apply hookFree_bind; [apply hookFree_lockQueue|]. intros _.
    apply hookFree_bind; [done|]. intros _.
    apply hookFree_bind; [apply hookFree_engine|]. intros final.
    by apply hookFree_bind.
Qed.

Lemma hookFree_deliverLoop remaining : ∀ i ids, hookFree (deliverLoop ws remaining i ids).
Proof.
  induction remaining as [|n IH]; intros i ids; [done|]. cbn [deliverLoop].
  destruct (slots ids !! i) as [clientId|]; [|done].
  apply hookFree_bind; [apply hookFree_deliverClient | intros ids'; apply IH].
Qed.

Lemma hookFree_collectLoop ids : hookFree (collectLoop ws ids).
Proof.
  induction ids as [|clientId rest IH]; [done|]. cbn [collectLoop].
  apply hookFree_bind; [|intros _; apply IH].
  unfold collectClient.
  apply hookFree_bind; [apply hookFree_engine|]. intros packets.
  apply hookFree_bind; [apply hookFree_lockQueue | done].
Qed.

Lemma hookFree_beforeHook fidelity : hookFree (beforeHook ws fidelity).
Proof.
  unfold beforeHook.
  apply hookFree_bind; [done|]. intros ids0.
  apply hookFree_bind; [apply hookFree_deliverLoop|]. intros ids.
  apply hookFree_bind; [apply hookFree_engine|]. intros _.
  apply hookFree_bind; [|intros _; apply hookFree_collectLoop].
  intros hook h. unfold stepEngine, bind, gets. cbn.
  destruct (notPaused (m_pause h)); [apply hookFree_engine | done].
Qed.

Lemma update_beforeHook fidelity h :
  update ws fidelity h = bind (beforeHook ws fidelity) (λ _, runUpdateAction) h.
Proof.
  unfold update, beforeHook, bind. cbn.
  destruct (deliverLoop ws _ 0 _ h) as [[ids|e] h1]; [|done].
  destruct (engine (ws_setFidelity ws fidelity) h1) as [[[]|e] h2]; [|done].
  destruct ((if notPaused (m_pause h2) then engine (ws_update ws) else ret ()) h2)
    as [[[]|e] h3]; [|done].
  by destruct (collectLoop ws (idListValues ids) h3) as [[[]|e] h4].
Qed.

(** X22. The update hook is run once, last, on the engine as the rest of
    [update] left it, and only when nothing before it raised: an [update]
    with a hook set is the [update] without a hook followed by the hook,
    and a fault that leaves the hookless [update] leaves it just the same
    with the hook unrun.  A fault of the hook itself leaves [update] with
    all the queue work of the tick done. *)
Theorem update_runs_hook_last fidelity action h :
  update ws fidelity (setUpdateAction (Some action) h)
  = match update ws fidelity (setUpdateAction None h) with
    | (Ok _, h1) => engine action (setUpdateAction (Some action) h1)
    | (Throw e, h1) => (Throw e, setUpdateAction (Some action) h1)
    end.
Proof.
  rewrite !update_beforeHook. unfold bind.
  rewrite !(hookFree_beforeHook fidelity).
  destruct (beforeHook ws fidelity h) as [[[]|e] h1]; cbn; [|done].
  unfold engine. cbn. by destruct (action (m_worldServer h1)).
Qed.
End Hook.

(** ** The guarded accessors *)

Section Accessors.
Context {Packet SpawnTarget WorldChunks E : Type}.
Context (ws : WorldServer Packet SpawnTarget WorldChunks E).
Context (noChunks : WorldChunks).
Implicit Types (h : Host Packet E) (clientId : ConnectionId).

(** [h'] differs from [h] in the engine at most, or in the engine, the
    log and the error flag when a fault was caught. *)
Local Abbreviation sameButEngine h h' :=
  (m_clients h' = m_clients h
   ∧ m_incomingPacketQueue h' = m_incomingPacketQueue h
   ∧ m_outgoingPacketQueue h' = m_outgoingPacketQueue h
   ∧ m_stop h' = m_stop h
   ∧ m_pause h' = m_pause h
   ∧ m_updateAction h' = m_updateAction h).

Lemma guarded_sameButEngine {A} (op : E → Res A * E) (safe : A) h :
  sameButEngine h (snd (tryCatch (engine op) (λ e, bind (caught e) (λ _, ret safe)) h)).
Proof.
  rewrite guarded_eq. unfold engine. by destruct (op (m_worldServer h)) as [[a|e] e'].
Qed.

(** X23. [spawnTargetValid], [playerRevivePosition], [pullNewPlanetType]
    and [readChunks] hand back what the engine answers when it answers,
    with nothing logged and no flag touched; [playerRevivePosition] is the
    position of the client's player plus its feet offset, each component
    the binary32 sum, and nothing when the engine has no player for the
    client.  Whatever the engine does,
    none of them touches the registry, a queue, the stop request, the
    pause flag or the update hook. *)
Theorem accessors_answer_for_the_engine h :
  (∀ target b e',
     ws_spawnTargetValid ws target (m_worldServer h) = (Ok b, e') →
     spawnTargetValid ws target h = (Ok b, withWorldServer e' h))
  ∧ (∀ clientId player e',
       ws_clientPlayer ws clientId (m_worldServer h) = (Ok player, e') →
       playerRevivePosition ws clientId h
       = (Ok ((λ p, vec2Add (position p) (feetOffset p)) <$> player),
          withWorldServer e' h))
  ∧ (∀ planet e',
       ws_pullNewPlanetType ws (m_worldServer h) = (Ok planet, e') →
       pullNewPlanetType ws h = (Ok planet, withWorldServer e' h))
  ∧ (∀ chunks e',
       ws_readChunks ws (m_worldServer h) = (Ok chunks, e') →
       readChunks ws noChunks h = (Ok chunks, withWorldServer e' h))
  ∧ (∀ target, sameButEngine h (snd (spawnTargetValid ws target h)))
  ∧ (∀ clientId, sameButEngine h (snd (playerRevivePosition ws clientId h)))
  ∧ sameButEngine h (snd (pullNewPlanetType ws h))
  ∧ sameButEngine h (snd (readChunks ws noChunks h)).
Proof.
  split; [|split; [|split; [|split; [|split; [|split; [|split]]]]]].
  - intros target b e' Hop. unfold spawnTargetValid. rewrite guarded_eq.
    unfold engine. by rewrite Hop.
  - intros clientId player e' Hop. unfold playerRevivePosition. rewrite guarded_eq.
    unfold bind, engine. rewrite Hop. by destruct player.
  - intros planet e' Hop. unfold pullNewPlanetType. rewrite guarded_eq.
    unfold engine. by rewrite Hop.
  - intros chunks e' Hop. unfold readChunks. rewrite guarded_eq.
    unfold engine. by rewrite Hop.
  - intros target. apply guarded_sameButEngine.
  - intros clientId. unfold playerRevivePosition. rewrite guarded_eq.
    unfold bind, engine.
    by destruct (ws_clientPlayer ws clientId (m_worldServer h)) as [[[p|]|e] e'].
  - apply guarded_sameButEngine.
  - apply guarded_sameButEngine.
Qed.
End Accessors.

(** ** The levels the loop hands to the engine *)

Section Automatic.
Context {Packet SpawnTarget WorldChunks E : Type}.
Context (ws : WorldServer Packet SpawnTarget WorldChunks E).
Context (fidelityNames : string → option WorldServerFidelity).
Implicit Types (h : Host Packet (Traced Packet E)).

(** The engine has been handed the levels [F], and the hook is an action
    on the engine proper. *)
Local Abbreviation handed F :=
  (λ h : Host Packet (Traced Packet E),
     fidelities (m_worldServer h) = F ∧ hookUntraced h).

Lemma handed_frame F h h' :
  fidelities (m_worldServer h') = fidelities (m_worldServer h) →
  m_updateAction h' = m_updateAction h →
  handed F h → handed F h'.
Proof. unfold hookUntraced. intros -> ->. done. Qed.

Lemma handed_untraced {A} F (op : E → Res A * E) : stable (handed F) (engine (untraced op)).
Proof.
  apply stable_engine. intros h. apply handed_frame; [|done].
  cbn. unfold untraced. by destruct (op (inner (m_worldServer h))).
Qed.

Lemma handed_producing F id (op : E → Res (list Packet) * E) :
  stable (handed F) (engine (producing id op)).
Proof.
  apply stable_engine. intros h. apply handed_frame; [|done].
  cbn. unfold producing. by destruct (op (inner (m_worldServer h))) as [[packets|e] e'].
Qed.

Lemma handed_modify F (g : Host Packet (Traced Packet E) → Host Packet (Traced Packet E)) :
  (∀ h, m_worldServer (g h) = m_worldServer h) →
  (∀ h, m_updateAction (g h) = m_updateAction h) →
  stable (handed F) (modify g).
Proof.
  intros Hw Hu. apply stable_modify. intros h.
  apply handed_frame; [by rewrite Hw | by rewrite Hu].
Qed.

Lemma handed_lockQueue F : stable (handed F) lockQueue.
Proof.
  apply lockQueue_kept.
  split; [|split; [|split]]; intros; (eapply handed_frame; [| |eassumption]; done).
Qed.

Lemma handed_deliverLoop F remaining i ids :
  stable (handed F) (deliverLoop (traced ws) remaining i ids).
Proof.
  apply deliverLoop_stable. intros clientId ids'. apply deliverClient_stable.
  - apply handed_lockQueue.
  - intros h. by apply handed_frame.
  - intros packets. apply stable_engine. intros h. apply handed_frame; [|done].
    cbn. unfold untraced. cbn.
    by destruct (ws_handleIncomingPackets ws clientId packets (inner (m_worldServer h))).
  - intros e. by apply handed_modify.
  - by apply handed_modify.
  - apply handed_producing.
  - intros packets. by apply handed_modify.
Qed.

Lemma handed_afterFidelity F ids :
  stable (handed F)
    (bind (stepEngine (traced ws)) (λ _,
     bind (collectLoop (traced ws) ids) (λ _, runUpdateAction))).
Proof.
  apply stable_bind.
  { unfold stepEngine. apply stable_bind; [apply stable_gets|]. intros pause.
    apply stable_if; [apply handed_untraced | apply stable_ret]. }
  intros _. apply stable_bind.
  { apply collectLoop_stable. intros clientId. apply collectClient_stable.
    - apply handed_lockQueue.
    - apply handed_producing.
    - intros packets. by apply handed_modify. }
  intros _ h HI. pose proof HI as (_ & Hhook).
  unfold runUpdateAction, bind, gets. unfold hookUntraced in Hhook.
  destruct (m_updateAction h) as [action|] eqn:Haction; [|done].
  destruct Hhook as [a ->]. apply handed_untraced.
  destruct HI as [HF _]. split; [done|]. unfold hookUntraced. rewrite Haction. by exists a.
Qed.

(** One [update] hands the engine its level once: always when it returns,
    and at most once when it raises. *)
Lemma update_hands_level F f :
  hoare (handed F) (update (traced ws) f)
    (λ r h, hookUntraced h
            ∧ match r with
              | Ok _ => fidelities (m_worldServer h) = F ++ [f]
              | Throw _ => fidelities (m_worldServer h) = F
                           ∨ fidelities (m_worldServer h) = F ++ [f]
              end).
Proof.
  unfold update.
  apply hoare_bind with (R := λ _, handed F); [by intros h|]. intros ids0.
  apply hoare_bind with (R := λ _, handed F).
  { intros h HI. pose proof (handed_deliverLoop F (count ids0) 0 ids0 h HI) as [HF Hh].
    destruct (deliverLoop (traced ws) (count ids0) 0 ids0 h) as [[ids|e] h1]; cbn in *.
    - done.
    - split; [done | by left]. }
  intros ids.
  apply hoare_bind with (R := λ _, handed (F ++ [f])).
  { intros h [HF Hh]. unfold engine. cbn. unfold untraced. cbn.
    destruct (ws_setFidelity ws f (inner (m_worldServer h))) as [[[]|e] e']; cbn.
    - by rewrite HF.
    - split; [done|]. right. by rewrite HF. }
  intros _ h HI.
  pose proof (handed_afterFidelity (F ++ [f]) (idListValues ids) h HI) as [HF Hh].
  destruct (bind (stepEngine (traced ws)) _ h) as [[[]|e] h1]; cbn in *.
  - done.
  - split; [done | by right].
Qed.

Lemma appliedLevels_automatic cfg envs : ∀ st,
  appliedLevels cfg None envs st = controllerLevels cfg envs st.
Proof. induction envs as [|env envs IH]; intros st; cbn; [done | by rewrite IH]. Qed.

Lemma appliedLevels_locked cfg f envs : ∀ st,
  appliedLevels cfg (Some f) envs st = replicate (length envs) f.
Proof. induction envs as [|env envs IH]; intros st; cbn; [done | by rewrite IH]. Qed.

Lemma runLoop_hands_levels cfg locked envs : ∀ st h,
  hookUntraced h →
  hookUntraced (snd (runLoop (traced ws) cfg locked envs st h))
  ∧ ∃ levels,
      fidelities (m_worldServer (snd (runLoop (traced ws) cfg locked envs st h)))
        = fidelities (m_worldServer h) ++ levels
      ∧ levels `prefix_of` appliedLevels cfg locked envs st
      ∧ (isThrow (fst (runLoop (traced ws) cfg locked envs st h)) = false →
         m_stop h = false → m_errorOccurred h = false →
         Forall (λ env, stopRequested env = false) envs →
         levels = appliedLevels cfg locked envs st)
      ∧ m_errorOccurred (snd (runLoop (traced ws) cfg locked envs st h)) = m_errorOccurred h.
Proof.
  induction envs as [|env envs IH]; intros st h Hhook.
  - cbn. split; [done|]. exists []. by rewrite app_nil_r.
  - rewrite runLoop_cons. cbv zeta.
    set (h0 := if stopRequested env then withStop true h else h).
    assert (Hhook0 : hookUntraced h0) by (unfold h0; by destruct (stopRequested env)).
    assert (Hfid0 : fidelities (m_worldServer h0) = fidelities (m_worldServer h))
      by (unfold h0; by destruct (stopRequested env)).
    assert (Herr0 : m_errorOccurred h0 = m_errorOccurred h)
      by (unfold h0; by destruct (stopRequested env)).
    destruct (negb (m_stop h0) && negb (m_errorOccurred h0)) eqn:Hcontinue.
    + set (f := default (automaticFidelity st) locked).
      pose proof (update_hands_level (fidelities (m_worldServer h)) f
                    h0 (conj Hfid0 Hhook0)) as [Hhook1 Hlevel].
      pose proof (update_keeps_flags (traced ws) f h0)
        as [Hstop1 Herr1].
      destruct (update (traced ws) f h0) as [[[]|e] h1]; cbn in *.
      * assert (Hsync : handed (fidelities (m_worldServer h) ++ [f])
                  (snd ((if storageTimeUp env then sync (traced ws) else ret ()) h1))
                ∧ m_stop (snd ((if storageTimeUp env then sync (traced ws) else ret ()) h1))
                  = m_stop h1
                ∧ m_errorOccurred
                    (snd ((if storageTimeUp env then sync (traced ws) else ret ()) h1))
                  = m_errorOccurred h1).
        { destruct (storageTimeUp env); [|done]. split.
          - apply (stable_bind (handed _)); [by apply handed_modify | | done].
            intros _. apply handed_untraced.
          - unfold sync, bind, logError, modify, engine. cbn. unfold untraced.
            by destruct (ws_sync ws (inner (m_worldServer h1))) as [[[]|e] e']. }
        destruct Hsync as ([Hfid2 Hhook2] & Hstop2 & Herr2).
        destruct ((if storageTimeUp env then sync (traced ws) else ret ()) h1)
          as [[[]|e] h2]; cbn in *.
        -- destruct (IH (adjustFidelity (fidelityDecrementScore cfg)
                           (fidelityIncrementScore cfg) (spareTime env) st) h2 Hhook2)
             as (Hhook3 & levels & Hfid3 & Hprefix & Hfull & Herr3).
           split; [done|]. exists (f :: levels).
           split; [by rewrite Hfid3, Hfid2, <-(assoc_L (++))|].
           split; [by apply prefix_cons|].
           split; [|by rewrite Herr3, Herr2, Herr1].
           intros Hok Hstop Herr Hnostop.
           apply Forall_cons in Hnostop as [Hthis Hnostop].
           rewrite Hfull; [done|done| | |done].
           ++ rewrite Hstop2, Hstop1. unfold h0. by rewrite Hthis.
           ++ by rewrite Herr2, Herr1, Herr0.
        -- split; [done|]. exists [f].
           split; [done|]. split; [by apply prefix_cons, prefix_nil|].
           split; [done | by rewrite Herr2, Herr1].
      * split; [done|]. destruct Hlevel as [Hlevel|Hlevel].
        -- exists []. rewrite app_nil_r. split; [done|].
           split; [apply prefix_nil|]. split; [done | by rewrite Herr1].
        -- exists [f]. split; [done|].
           split; [by apply prefix_cons, prefix_nil|]. split; [done | by rewrite Herr1].
    + cbn. split; [done|]. exists []. rewrite app_nil_r. split; [done|].
      split; [apply prefix_nil|]. split; [|done].
      intros _ Hstop Herr Hnostop. apply Forall_cons in Hnostop as [Hthis _].
      unfold h0 in Hcontinue. rewrite Hthis, Hstop, Herr in Hcontinue. done.
Qed.

(** X15. With the fidelity left to the controller (a [serverFidelity] of
    "automatic" in any letter case), the levels [run] hands to the engine
    are the controller's own: at each tick the level the controller holds
    at that moment, starting from Medium and moved by [adjustFidelity]
    after every iteration.  The levels handed over are always an initial
    part of that sequence, and the whole of it when no stop is requested
    and the loop ends without the error flag. *)
Theorem automatic_levels_are_the_controllers cfg envs h :
  lockedFidelityOf fidelityNames cfg = Ok None →
  hookUntraced h →
  (∃ levels,
     fidelities (m_worldServer (snd (run (traced ws) fidelityNames (Ok cfg) envs h)))
       = fidelities (m_worldServer h) ++ levels
     ∧ levels `prefix_of`
         controllerLevels cfg envs {| fidelityScore := 0%float; automaticFidelity := Medium |})
  ∧ (m_stop h = false →
     Forall (λ env, stopRequested env = false) envs →
     m_errorOccurred (snd (run (traced ws) fidelityNames (Ok cfg) envs h)) = false →
     fidelities (m_worldServer (snd (run (traced ws) fidelityNames (Ok cfg) envs h)))
       = fidelities (m_worldServer h)
           ++ controllerLevels cfg envs
                {| fidelityScore := 0%float; automaticFidelity := Medium |}).
Proof.
  intros Hlocked Hhook. unfold run. rewrite Hlocked. unfold tryCatch, bind.
  destruct (runLoop_hands_levels cfg None envs
              {| fidelityScore := 0%float; automaticFidelity := Medium |} h Hhook)
    as (_ & levels & Hfid & Hprefix & Hfull & Herr).
  rewrite appliedLevels_automatic in Hprefix, Hfull.
  destruct (runLoop (traced ws) cfg None envs _ h) as [[st|e] h1]; cbn in *.
  - split; [by exists levels|].
    intros Hstop Hnostop Hflag. rewrite Hfid, Hfull; [done|done|done| |done].
    by rewrite <-Herr.
  - split; [by exists levels|]. by intros _ _ [=].
Qed.

(** C6, as the code has it.  With a fixed fidelity configured, the level
    [run] hands to the engine at every tick is that fidelity: the levels
    handed over during the run are copies of it, one for each iteration at
    most, and exactly one for each iteration when no stop is requested and
    the loop ends without the error flag.  The controller is not skipped:
    an iteration of the loop that is entered and completes leaves the
    accumulated score and the automatic level as [adjustFidelity] computes
    them, whether or not a fidelity is fixed; the automatic level merely
    goes unused. *)
Theorem override_applied_controller_still_runs
    (cfg : RunConfig) (f : WorldServerFidelity) (envs : list TickEnv)
    (h : Host Packet (Traced Packet E)) :
  lockedFidelityOf fidelityNames cfg = Ok (Some f) →
  hookUntraced h →
  (∃ n, n ≤ length envs
        ∧ fidelities (m_worldServer (snd (run (traced ws) fidelityNames (Ok cfg) envs h)))
          = fidelities (m_worldServer h) ++ replicate n f)
  ∧ (m_stop h = false →
     Forall (λ env, stopRequested env = false) envs →
     m_errorOccurred (snd (run (traced ws) fidelityNames (Ok cfg) envs h)) = false →
     fidelities (m_worldServer (snd (run (traced ws) fidelityNames (Ok cfg) envs h)))
       = fidelities (m_worldServer h) ++ replicate (length envs) f)
  ∧ (∀ h0 h1,
       hookUntraced h0 →
       update (traced ws) f h0 = (Ok tt, h1) →
       fidelities (m_worldServer h1) = fidelities (m_worldServer h0) ++ [f])
  ∧ (∀ (locked : option WorldServerFidelity) (env : TickEnv) (st st' : FidelityState)
       (h0 h1 : Host Packet E),
       stopRequested env = false → m_stop h0 = false → m_errorOccurred h0 = false →
       runLoop ws cfg locked [env] st h0 = (Ok st', h1) →
       st' = adjustFidelity (fidelityDecrementScore cfg) (fidelityIncrementScore cfg)
               (spareTime env) st).
Proof.
  intros Hlocked Hhook.
  assert (Hrun : ∃ levels,
             fidelities (m_worldServer (snd (run (traced ws) fidelityNames (Ok cfg) envs h)))
               = fidelities (m_worldServer h) ++ levels
             ∧ levels `prefix_of` replicate (length envs) f
             ∧ (m_stop h = false →
                Forall (λ env, stopRequested env = false) envs →
                m_errorOccurred (snd (run (traced ws) fidelityNames (Ok cfg) envs h))
                  = false →
                levels = replicate (length envs) f)).
  { unfold run. rewrite Hlocked. unfold tryCatch, bind.
    destruct (runLoop_hands_levels cfg (Some f) envs
                {| fidelityScore := 0%float; automaticFidelity := Medium |} h Hhook)
      as (_ & levels & Hfid & Hprefix & Hfull & Herr).
    rewrite appliedLevels_locked in Hprefix, Hfull.
    destruct (runLoop (traced ws) cfg (Some f) envs _ h) as [[st|e] h1]; cbn in *.
    - exists levels. split; [done|]. split; [done|].
      intros Hstop Hnostop Hflag. apply Hfull; [done|done| |done]. by rewrite <-Herr.
    - exists levels. split; [done|]. split; [done|]. by intros _ _ [=]. }
  destruct Hrun as (levels & Hfid & [rest Hprefix] & Hfull).
  split; [|split; [|split]].
  - assert (Hlen : length levels ≤ length envs).
    { apply (f_equal length) in Hprefix.
      rewrite length_replicate, length_app in Hprefix. lia. }
    exists (length levels). split; [done|].
    rewrite Hfid. f_equal.
    apply (f_equal (take (length levels))) in Hprefix.
    rewrite take_replicate, take_app_length, Nat.min_l in Hprefix by done.
    done.
  - intros Hstop Hnostop Hflag. by rewrite Hfid, Hfull.
  - intros h0 h1 Hhook0 Hupdate.
    pose proof (update_hands_level (fidelities (m_worldServer h0)) f h0
                  (conj eq_refl Hhook0)) as Hlevel.
    rewrite Hupdate in Hlevel. by destruct Hlevel as [_ Hlevel].
  - intros locked env st st' h0 h1 Hreq Hstop Herr.
    cbn [runLoop]. unfold bind at 1, modify. rewrite Hreq.
    unfold bind at 1, gets. rewrite Hstop, Herr. cbn [negb andb].
    unfold bind at 1.
    destruct (update ws (default (automaticFidelity st) locked) h0) as [[[]|e] h2];
      [|intros [=]].
    unfold bind at 1.
    destruct ((if storageTimeUp env then sync ws else ret ()) h2) as [[[]|e] h3];
      [|intros [=]].
    cbn. by intros [= <- _].
Qed.
End Automatic.

(** ** Further evaluations on the echo world *)

(** C6, on the echo world: three iterations under a fidelity fixed at
    Minimum hand the engine Minimum three times, while the controller
    would have moved from Medium to High. *)
Lemma override_applied_witness :
  fidelities (m_worldServer
    (snd (run (traced Echo.server) Echo.names (Ok fixedMinimum)
            [mkTickEnv false false 2%float; mkTickEnv false true 2%float;
             mkTickEnv false false (-4)%float]
            freshTracedEcho)))
  = [Minimum; Minimum; Minimum]
  ∧ controllerLevels fixedMinimum
      [mkTickEnv false false 2%float; mkTickEnv false true 2%float;
       mkTickEnv false false (-4)%float]
      {| fidelityScore := 0%float; automaticFidelity := Medium |}
    = [Medium; High; High].
Proof.
  split; [|by vm_compute].
  destruct (override_applied_controller_still_runs Echo.server Echo.names
              fixedMinimum Minimum
              [mkTickEnv false false 2%float; mkTickEnv false true 2%float;
               mkTickEnv false false (-4)%float]
              freshTracedEcho eq_refl I) as (_ & Hall & _).
  apply Hall; [done | by repeat constructor | by vm_compute].
Defined.

(** X1, on the echo world: client 1 has 7 pending for output and 8
    pending for input; its removal returns 7 and then the farewell packet,
    and the engine was handed 8. *)
Lemma removeClient_returns_pending_then_final_witness :
  fst (removeClient Echo.server 1 pendingBothWays) = Ok [7; 1001]%N
  ∧ Echo.inbox (m_worldServer (snd (removeClient Echo.server 1 pendingBothWays)))
    = [(1, [7]); (1, [8])]%N.
Proof.
  assert (Hreg : 1%N ∈ m_clients pendingBothWays) by by vm_compute.
  rewrite (removeClient_returns_pending_then_final Echo.server 1 pendingBothWays
             (snd (Echo.handleIncomingPackets 1 [8%N] (m_worldServer pendingBothWays)))
             (snd (Echo.removeClient 1
                     (snd (Echo.handleIncomingPackets 1 [8%N]
                             (m_worldServer pendingBothWays)))))
             [1001%N] Hreg eq_refl eq_refl eq_refl eq_refl).
  by vm_compute.
Defined.

(** X2, on an echo world whose removal raises: the 7 that was pending for
    output is returned all the same, and the flag is set. *)
Lemma removeClient_removal_fault_returns_pending_witness :
  fst (removeClient stuckRemoval 1 pendingBothWays) = Ok [7%N]
  ∧ m_errorOccurred (snd (removeClient stuckRemoval 1 pendingBothWays)) = true.
Proof.
  assert (Hreg : 1%N ∈ m_clients pendingBothWays) by by vm_compute.
  rewrite (removeClient_removal_fault_returns_pending stuckRemoval 1 pendingBothWays
             (snd (Echo.handleIncomingPackets 1 [8%N] (m_worldServer pendingBothWays)))
             (snd (Echo.handleIncomingPackets 1 [8%N] (m_worldServer pendingBothWays)))
             (StdException "removal failed") Hreg eq_refl eq_refl eq_refl eq_refl).
  by vm_compute.
Defined.

(** X3, on the echo world: client 1 was isolated by a tick; its removal
    returns the farewell packet the tick had queued, and it is no longer
    listed as errored. *)
Lemma removeClient_unknown_to_engine_witness :
  erroredClients Echo.server (snd (tick Echo.server Medium oneMalformed)) = [1%N]
  ∧ fst (removeClient Echo.server 1 (snd (tick Echo.server Medium oneMalformed)))
    = Ok [1001%N]
  ∧ (1%N ∈ erroredClients Echo.server
             (snd (removeClient Echo.server 1 (snd (tick Echo.server Medium oneMalformed))))
     ↔ 1%N ∈ erroredClients Echo.server (snd (tick Echo.server Medium oneMalformed))
       ∧ 1%N ≠ 1%N).
Proof.
  split; [by vm_compute|].
  assert (Hreg : 1%N ∈ m_clients (snd (tick Echo.server Medium oneMalformed)))
    by by vm_compute.
  destruct (removeClient_unknown_to_engine Echo.server 1
              (snd (tick Echo.server Medium oneMalformed)) Hreg eq_refl) as [Heq Herr].
  split; [by rewrite Heq | apply Herr].
Defined.

(** X5, on the echo world: attaching client 1 to a fresh host and removing
    it at once returns the farewell packet alone and leaves registry and
    queue maps empty. *)
Lemma addClient_then_removeClient_witness :
  fst (bind (addClient Echo.server 1 tt false) (λ _, removeClient Echo.server 1) freshEcho)
    = Ok [1001%N]
  ∧ m_clients (snd (bind (addClient Echo.server 1 tt false)
                      (λ _, removeClient Echo.server 1) freshEcho)) = ∅.
Proof.
  assert (Hfresh : 1%N ∉ m_clients freshEcho) by by vm_compute.
  rewrite (addClient_then_removeClient Echo.server 1 tt false freshEcho
             (snd (Echo.addClient 1 Echo.empty))
             (snd (Echo.handleIncomingPackets 1 [] (snd (Echo.addClient 1 Echo.empty))))
             (snd (Echo.removeClient 1
                (snd (Echo.handleIncomingPackets 1 [] (snd (Echo.addClient 1 Echo.empty))))))
             [1001%N] Hfresh eq_refl eq_refl eq_refl eq_refl eq_refl eq_refl eq_refl).
  done.
Defined.

(** X6, on the echo world: a host whose loop ended on a fault still reads
    faulted after clients attach and send. *)
Lemma error_flag_is_sticky_witness :
  serverErrorOccurred (snd (performAll Echo.server tt Echo.threeClients faultedEcho)) = true
  ∧ serverErrorOccurred (start faultedEcho) = false.
Proof.
  destruct (error_flag_is_sticky Echo.server tt Echo.names faultedEcho eq_refl)
    as (Hcalls & _ & _ & Hstart).
  split; [apply Hcalls | exact Hstart].
Defined.

(** X8, on the echo world: with the pause flag set, a tick over an engine
    whose update step raises ends as over the plain echo world, with
    nothing logged; the engine was handed the packets of clients 1 and 2
    and the level, and what it returned for client 1 is queued. *)
Lemma paused_tick_skips_engine_update_witness :
  tick (withUpdateStep failingUpdate Echo.server) Medium (setPause (Some true) twoWaiting)
  = tick Echo.server Medium (setPause (Some true) twoWaiting)
  ∧ logged (snd (tick Echo.server Medium (setPause (Some true) twoWaiting))) = []
  ∧ Echo.inbox (m_worldServer
                  (snd (tick Echo.server Medium (setPause (Some true) twoWaiting))))
    = [(1, [10; 11]); (2, [20])]%N
  ∧ Echo.level (m_worldServer
                  (snd (tick Echo.server Medium (setPause (Some true) twoWaiting))))
    = Some Medium
  ∧ m_outgoingPacketQueue
      (snd (tick Echo.server Medium (setPause (Some true) twoWaiting))) !! 1%N
    = Some [10; 11]%N.
Proof.
  destruct (paused_tick_skips_engine_update Echo.server Echo.names failingUpdate Medium
              (setPause (Some true) twoWaiting) eq_refl)
    as (_ & Htick & _ & Hsame & _).
  split; [exact Hsame|]. rewrite Htick. by vm_compute.
Defined.

(** X23, on an echo world with a player at (16777216, 0.5) whose feet
    are at (1, 0.25): the revive position is (16777216, 0.75), the first
    component rounded to binary32. *)
Lemma accessors_answer_for_the_engine_witness :
  playerRevivePosition farPlayerWorld 1 freshEcho
  = (Ok (Some (S754_finite false 8388608 1, S754_finite false 12582912 (-24))),
     freshEcho).
Proof.
  destruct (accessors_answer_for_the_engine farPlayerWorld tt freshEcho)
    as (_ & Hposition & _).
  rewrite (Hposition 1%N (Some farPlayer) (m_worldServer freshEcho) eq_refl).
  by vm_compute.
Defined.


(** X10, on the traced echo world: the tick hands the engine 10 and 11
    for client 1, and nothing for the stray id 5. *)
Lemma tick_hands_over_each_queue_once_witness :
  queueAt (delivered (m_worldServer
             (snd (tick (traced Echo.server) Medium twoWaitingTraced)))) 1%N = [10; 11]%N
  ∧ queueAt (delivered (m_worldServer
               (snd (tick (traced Echo.server) Medium twoWaitingTraced)))) 5%N = [].
Proof.
  assert (Hreturn : deliveriesReturn (traced Echo.server)
                      (ws_clientIds Echo.server (inner (m_worldServer twoWaitingTraced)))
                      twoWaitingTraced
                    = true) by by vm_compute.
  split.
  - rewrite (tick_hands_over_each_queue_once Echo.server Medium twoWaitingTraced 1 eq_refl
               I Hreturn).
    by vm_compute.
  - rewrite (tick_hands_over_each_queue_once Echo.server Medium twoWaitingTraced 5 eq_refl
               I Hreturn).
    by vm_compute.
Defined.


(** X13, on the echo world: the second iteration finds the stop
    requested; the run leaves the host as the first iteration left it,
    with the stop recorded, and the third observation plays no part. *)
Lemma run_ends_at_stop_request_witness :
  run Echo.server Echo.names (Ok fixedMinimum)
    [mkTickEnv false false 2%float; mkTickEnv true false 2%float;
     mkTickEnv false true 2%float] twoWaiting
  = (Ok tt,
     stop (snd (run Echo.server Echo.names (Ok fixedMinimum)
                  [mkTickEnv false false 2%float] twoWaiting))).
Proof.
  assert (Hflag : m_errorOccurred
                    (snd (run Echo.server Echo.names (Ok fixedMinimum)
                            [mkTickEnv false false 2%float] twoWaiting)) = false)
    by (vm_compute; reflexivity).
  pose proof (run_ends_at_stop_request Echo.server Echo.names (Ok fixedMinimum)
                [mkTickEnv false false 2%float] (mkTickEnv true false 2%float)
                [mkTickEnv false true 2%float] twoWaiting eq_refl eq_refl) as Hrun.
  rewrite Hflag in Hrun. exact Hrun.
Defined.

(** X14, on an echo world whose removal raises: the delivery for client
    2 raises and so does its forced removal; the tick ends flagged, the
    engine was handed the packet of client 1 and was given no level, and
    [run], given two iterations, ends in the first as that tick does. *)
Lemma tick_ends_on_fault_in_forced_removal_witness :
  m_errorOccurred (snd (tick stuckRemoval Medium secondMalformed)) = true
  ∧ Echo.inbox (m_worldServer (snd (tick stuckRemoval Medium secondMalformed)))
    = [(1, [10])]%N
  ∧ Echo.level (m_worldServer (snd (tick stuckRemoval Medium secondMalformed))) = None
  ∧ logged (snd (tick stuckRemoval Medium secondMalformed))
    = [LogClientException 2 (StdException "malformed packet");
       LogException (StdException "removal failed")]
  ∧ run stuckRemoval Echo.names (Ok fixedMinimum)
      [mkTickEnv false true 2%float; mkTickEnv false true 2%float] secondMalformed
    = tick stuckRemoval Medium secondMalformed.
Proof.
  assert (Hreturn : deliveriesReturn stuckRemoval [1%N] secondMalformed = true)
    by by vm_compute.
  destruct (tick_ends_on_fault_in_forced_removal stuckRemoval Echo.names Medium
              secondMalformed
              [1%N] 2 [] (StdException "malformed packet") (StdException "removal failed")
              (m_worldServer (deliveredToAll stuckRemoval [1%N] secondMalformed))
              (m_worldServer (deliveredToAll stuckRemoval [1%N] secondMalformed))
              eq_refl eq_refl Hreturn eq_refl eq_refl) as [Htick Hrun].
  rewrite (Hrun fixedMinimum (Some Minimum) (mkTickEnv false true 2%float)
             [mkTickEnv false true 2%float] eq_refl eq_refl eq_refl eq_refl).
  rewrite Htick. by vm_compute.
Defined.


(** ** Text: the loop of processText *)

Section TextScan.
Context (CmdEsc StartEsc EndEsc : ascii).

Local Abbreviation isEscape := (Text.isEscape CmdEsc StartEsc).
Local Abbreviation isEnd := (Text.isEnd EndEsc).
Local Abbreviation nextCommand := (Text.nextCommand CmdEsc StartEsc EndEsc).
Local Abbreviation scan := (Text.scan CmdEsc StartEsc EndEsc).

Lemma dropN_drop s : ∀ n, Text.dropN n s = drop (N.to_nat n) s.
Proof.
  induction s as [|c s IH]; intros n; cbn; [by rewrite drop_nil|].
  destruct (N.eqb_spec n 0) as [->|Hn]; [done|].
  rewrite IH. replace (N.to_nat n) with (S (N.to_nat (N.pred n))) by lia. done.
Qed.

Lemma takeN_take s : ∀ n, Text.takeN n s = take (N.to_nat n) s.
Proof.
  induction s as [|c s IH]; intros n; cbn; [by rewrite take_nil|].
  destruct (N.eqb_spec n 0) as [->|Hn]; [done|].
  rewrite IH. replace (N.to_nat n) with (S (N.to_nat (N.pred n))) by lia. done.
Qed.

Lemma substr_take_drop s pos n :
  (pos ≤ length s)%nat →
  Text.substr s (N.of_nat pos) n = Ok (take (N.to_nat n) (drop pos s)).
Proof.
  intros Hpos. unfold Text.substr, Text.size.
  destruct (N.ltb_spec (N.of_nat (length s)) (N.of_nat pos)) as [Hlt|_]; [lia|].
  by rewrite takeN_take, dropN_drop, Nat2N.id.
Qed.

Lemma findFrom_indexOf p s : ∀ i pos,
  Text.findFrom p s i pos
  = match Text.indexOf p (drop (N.to_nat (pos - i)) s) with
    | Some k => (N.max i pos + N.of_nat k)%N
    | None => Text.NPos
    end.
Proof.
  induction s as [|c s IH]; intros i pos; cbn [Text.findFrom]; [by rewrite drop_nil|].
  destruct (N.leb_spec pos i) as [Hle|Hlt]; cbn [andb].
  - replace (N.to_nat (pos - i)) with 0 by lia. cbn.
    destruct (p c); [lia|].
    rewrite IH. replace (N.to_nat (pos - N.succ i)) with 0 by lia.
    rewrite drop_0. destruct (Text.indexOf p s) as [k|]; cbn; [lia | done].
  - rewrite IH.
    replace (N.to_nat (pos - i)) with (S (N.to_nat (pos - N.succ i))) by lia. cbn.
    destruct (Text.indexOf p _) as [k|]; [lia | done].
Qed.

Lemma findFrom_0 p s pos :
  Text.findFrom p s 0 (N.of_nat pos)
  = match Text.indexOf p (drop pos s) with
    | Some k => N.of_nat (pos + k)
    | None => Text.NPos
    end.
Proof.
  rewrite findFrom_indexOf, N.sub_0_r, Nat2N.id.
  destruct (Text.indexOf p _) as [k|]; [lia | done].
Qed.

Lemma indexOf_Some p s : ∀ k,
  Text.indexOf p s = Some k →
  (∃ c, s !! k = Some c ∧ p c = true)
  ∧ ∀ i c, i < k → s !! i = Some c → p c = false.
Proof.
  induction s as [|c s IH]; intros k; cbn; [done|].
  destruct (p c) eqn:Hc.
  - intros [= <-]. split; [by exists c | lia].
  - destruct (Text.indexOf p s) as [k'|]; [|done]. cbn. intros [= <-].
    destruct (IH k' eq_refl) as [Hk Hbefore]. split; [done|].
    intros [|i] c' Hi; cbn; [by intros [= <-] | apply Hbefore; lia].
Qed.

Lemma indexOf_None p s :
  Text.indexOf p s = None → ∀ c, c ∈ s → p c = false.
Proof.
  induction s as [|c s IH]; cbn; [by intros _ c' ?%elem_of_nil|].
  destruct (p c) eqn:Hc; [done|].
  destruct (Text.indexOf p s) as [k'|]; [done|]. intros _ c'.
  intros [->|Hin]%elem_of_cons; [done | by apply IH].
Qed.

Lemma indexOf_lt p s k : Text.indexOf p s = Some k → k < length s.
Proof.
  intros [[c [Hc _]] _]%indexOf_Some. by apply lookup_lt_Some in Hc.
Qed.

(** What [nextCommand] finds. *)
Lemma nextCommand_Some str e j :
  nextCommand str = Some (e, j) →
  e + j < length str
  ∧ (∃ c, str !! e = Some c ∧ isEscape c = true)
  ∧ str !! (e + j) = Some EndEsc
  ∧ (∀ i c, i < j → str !! (e + i) = Some c → c ≠ EndEsc)
  ∧ (∀ c, str !! S e = Some c → isEscape c = false).
Proof.
  unfold Text.nextCommand.
  destruct (Text.indexOf isEscape str) as [f|] eqn:Hf; [|done].
  destruct (Text.indexOf _ (drop f str)) as [k|] eqn:Hk; [|done].
  destruct (Text.indexOf isEnd (drop (f + k - 1) str)) as [j'|] eqn:Hj; [|done].
  intros [= <- <-].
  pose proof (indexOf_lt _ _ _ Hj) as Hlen. rewrite length_drop in Hlen.
  apply indexOf_Some in Hf as [(c & Hc & Hesc) _].
  apply indexOf_Some in Hk as [(d & Hd & Hnot) Hrun].
  apply indexOf_Some in Hj as [(x & Hx & Hend) Hnoend].
  rewrite lookup_drop in Hd, Hx.
  assert (Hk1 : k ≠ 0).
  { intros ->. rewrite Nat.add_0_r, Hc in Hd. injection Hd as <-.
    by rewrite Hesc in Hnot. }
  apply bool_decide_eq_true in Hend. subst x.
  split; [lia|]. split; [|split; [done|split]].
  - destruct (decide (k = 1)) as [->|Hk2].
    + replace (f + 1 - 1) with f by lia. by exists c.
    + destruct (lookup_lt_is_Some_2 str (f + (k - 1))) as [y Hy].
      { apply lookup_lt_Some in Hd. lia. }
      specialize (Hrun (k - 1) y). rewrite lookup_drop in Hrun.
      replace (f + k - 1) with (f + (k - 1)) by lia. exists y. split; [done|].
      apply negb_false_iff, Hrun; [lia | done].
  - intros i y Hi Hy Heq. specialize (Hnoend i y Hi). rewrite lookup_drop in Hnoend.
    specialize (Hnoend Hy). apply bool_decide_eq_false in Hnoend. done.
  - intros y Hy. replace (S (f + k - 1)) with (f + k) in Hy by lia.
    rewrite Hy in Hd. injection Hd as <-. by apply negb_true_iff.
Qed.

Lemma nextCommand_None str :
  nextCommand str = None →
  (∀ c, c ∈ str → isEscape c = false)
  ∨ (∃ f, (∀ i c, f ≤ i → str !! i = Some c → isEscape c = true) ∧ f < length str)
  ∨ (∃ e, e < length str ∧ ∀ i c, e ≤ i → str !! i = Some c → c ≠ EndEsc).
Proof.
  unfold Text.nextCommand.
  destruct (Text.indexOf isEscape str) as [f|] eqn:Hf;
    [|intros _; left; by apply indexOf_None].
  destruct (Text.indexOf _ (drop f str)) as [k|] eqn:Hk.
  - destruct (Text.indexOf isEnd (drop (f + k - 1) str)) as [j'|] eqn:Hj; [done|].
    intros _. right. right. exists (f + k - 1).
    apply indexOf_lt in Hk. rewrite length_drop in Hk. split; [lia|].
    intros i c Hi Hc ->.
    assert (Hin : EndEsc ∈ drop (f + k - 1) str).
    { apply list_elem_of_lookup. exists (i - (f + k - 1)).
      rewrite lookup_drop. by replace (f + k - 1 + (i - (f + k - 1))) with i by lia. }
    apply (indexOf_None _ _ Hj) in Hin. unfold Text.isEnd in Hin.
    by apply bool_decide_eq_false in Hin.
  - intros _. right. left. exists f. apply indexOf_lt in Hf. split; [|done].
    intros i c Hi Hc. apply negb_false_iff.
    apply (indexOf_None _ _ Hk). apply list_elem_of_lookup. exists (i - f).
    rewrite lookup_drop. by replace (f + (i - f)) with i by lia.
Qed.

Lemma sizeSub_small (a b : nat) :
  b ≤ a → (N.of_nat a < 2 ^ 64)%N →
  Text.sizeSub (N.of_nat a) (N.of_nat b) = N.of_nat (a - b).
Proof.
  intros Hle Hlt. unfold Text.sizeSub.
  replace (N.of_nat a + 2 ^ 64 - N.of_nat b)%N with (N.of_nat (a - b) + 1 * 2 ^ 64)%N by lia.
  rewrite N.Div0.mod_add. apply N.mod_small. lia.
Qed.

Lemma sizeAdd_small (a b : nat) :
  (N.of_nat (a + b) < 2 ^ 64)%N →
  Text.sizeAdd (N.of_nat a) (N.of_nat b) = N.of_nat (a + b).
Proof. intros Hlt. unfold Text.sizeAdd. rewrite N.mod_small; lia. Qed.

Section Step.
Context {St : Type}.
Implicit Types (f : Text.Callback (St:=St)) (g : option (Text.Callback (St:=St))).

(** One iteration of the loop, read on lists. *)
Lemma processTextLoop_step fuel str f g sides (st : St) :
  (Text.size str < Text.NPos)%N →
  Text.processTextLoop CmdEsc StartEsc EndEsc (S fuel) str f g sides st
  = match nextCommand str with
    | None => Some (Text.finish f str st)
    | Some (e, j) =>
        match (if e =? 0 then (Ok true, st) else f (take e str) st) with
        | (Ok true, st1) =>
            match (match g with
                   | None => (Ok true, st1)
                   | Some g' =>
                       match Text.commandsAt sides str e j with
                       | [] => (Ok true, st1)
                       | commands => g' commands st1
                       end
                   end) with
            | (Ok true, st2) =>
                Text.processTextLoop CmdEsc StartEsc EndEsc fuel (drop (S (e + j)) str)
                  f g sides st2
            | stopped => Some stopped
            end
        | stopped => Some stopped
        end
    end.
Proof.
  unfold Text.size, Text.NPos. intros Hsize.
  assert (H64 : (2 ^ 64 = 18446744073709551616)%N) by done.
  cbn [Text.processTextLoop]. unfold Text.nextCommand.
  unfold Text.find_first_of, Text.find_first_not_of, Text.find_char.
  change (λ c, bool_decide (c ∈ Text.escapeChars CmdEsc StartEsc)) with isEscape.
  change (λ c, negb (bool_decide (c ∈ Text.escapeChars CmdEsc StartEsc)))
    with (λ c, negb (isEscape c)).
  change (λ c, bool_decide (c = EndEsc)) with isEnd.
  pose proof (findFrom_0 isEscape str 0) as Hfirst. rewrite drop_0 in Hfirst.
  change (N.of_nat 0) with 0%N in Hfirst. rewrite !Hfirst. clear Hfirst.
  destruct (Text.indexOf isEscape str) as [f0|] eqn:Hf; [|done].
  pose proof (indexOf_lt _ _ _ Hf) as Hf0. cbn [Nat.add].
  destruct (N.eqb_spec (N.of_nat f0) Text.NPos) as [Heq|_]; [unfold Text.NPos in Heq; lia|].
  rewrite findFrom_0.
  destruct (Text.indexOf (λ c, negb (isEscape c)) (drop f0 str)) as [k|] eqn:Hk.
  - pose proof (indexOf_lt _ _ _ Hk) as Hk0. rewrite length_drop in Hk0.
    assert (Hk1 : k ≠ 0).
    { intros ->. apply indexOf_Some in Hf as [(c & Hc & Hesc) _].
      apply indexOf_Some in Hk as [(d & Hd & Hnot) _].
      rewrite lookup_drop, Nat.add_0_r, Hc in Hd. injection Hd as <-.
      by rewrite Hesc in Hnot. }
    change 1%N with (N.of_nat 1). rewrite sizeSub_small by lia.
    rewrite findFrom_0.
    destruct (Text.indexOf isEnd (drop (f0 + k - 1) str)) as [j|] eqn:Hj; [|done].
    pose proof (indexOf_lt _ _ _ Hj) as Hj0. rewrite length_drop in Hj0.
    set (e := f0 + k - 1) in *.
    destruct (N.eqb_spec (N.of_nat (e + j)) Text.NPos) as [Heq|_];
      [unfold Text.NPos in Heq; lia|].
    pose proof (substr_take_drop str 0 (N.of_nat e)) as Htext.
    change (N.of_nat 0) with 0%N in Htext.
    rewrite Htext by lia. clear Htext. rewrite drop_0, Nat2N.id.
    rewrite (sizeSub_small (e + j) e) by lia.
    replace (e + j - e) with j by lia.
    rewrite (sizeAdd_small j 1), (sizeAdd_small e 1), (sizeAdd_small (e + j) 1) by lia.
    rewrite !substr_take_drop by lia.
    replace (e + j + 1) with (S (e + j)) by lia.
    replace (take (N.to_nat Text.NPos) (drop (S (e + j)) str)) with (drop (S (e + j)) str).
    2: { rewrite take_ge; [done|]. rewrite length_drop. unfold Text.NPos. lia. }
    assert (Hcommands :
              (if sides
               then Ok (take (N.to_nat (N.of_nat (j + 1))) (drop e str))
               else Ok (take (N.to_nat (Text.sizeSub (N.of_nat j) (N.of_nat 1)))
                          (drop (e + 1) str)))
              = Ok (Text.commandsAt sides str e j)).
    { unfold Text.commandsAt. destruct sides; [by rewrite Nat2N.id|].
      destruct (Nat.eqb_spec j 0) as [->|Hj1].
      - change (Text.sizeSub (N.of_nat 0) (N.of_nat 1)) with Text.NPos.
        rewrite take_ge; [done|]. rewrite length_drop. unfold Text.NPos. lia.
      - rewrite sizeSub_small by lia. by rewrite Nat2N.id. }
    rewrite Hcommands. clear Hcommands.
    destruct (N.eqb_spec (N.of_nat e) 0) as [He|He];
      destruct (Nat.eqb_spec e 0) as [He'|He']; try lia.
    + destruct g as [g'|]; [|done].
      destruct (Text.commandsAt sides str e j) as [|c commands]; [done|].
      by destruct (g' (c :: commands) st) as [[[|]|x] st2].
    + destruct (f (take e str) st) as [[[|]|x] st1]; [|done|done].
      destruct g as [g'|]; [|done].
      destruct (Text.commandsAt sides str e j) as [|c commands]; [done|].
      by destruct (g' (c :: commands) st1) as [[[|]|x] st2].
  - change (Text.sizeSub Text.NPos 1) with 18446744073709551614%N.
    rewrite findFrom_indexOf, N.sub_0_r, drop_ge; [done|]. lia.
Qed.

(** The loop hands the callbacks the pieces of the list-level reading. *)
Lemma processTextLoop_feeds fuel : ∀ str f g sides (st : St),
  (Text.size str < Text.NPos)%N →
  length str < fuel →
  Text.processTextLoop CmdEsc StartEsc EndEsc fuel str f g sides st
  = Some (Text.feed f (default Text.ignoreCommands g) (scan fuel sides str) st).
Proof.
  induction fuel as [|fuel IH]; intros str f g sides st Hsize Hfuel; [lia|].
  rewrite processTextLoop_step by done. cbn [Text.scan].
  destruct (nextCommand str) as [[e j]|] eqn:Hnext.
  - apply nextCommand_Some in Hnext as (Hlen & _).
    assert (Hrest : ∀ st2,
              Text.processTextLoop CmdEsc StartEsc EndEsc fuel (drop (S (e + j)) str)
                f g sides st2
              = Some (Text.feed f (default Text.ignoreCommands g)
                        (scan fuel sides (drop (S (e + j)) str)) st2)).
    { intros st2. apply IH.
      - unfold Text.size in *. rewrite length_drop. lia.
      - rewrite length_drop. lia. }
    destruct (e =? 0); cbn [app Text.feed].
    + destruct g as [g'|]; cbn [default id].
      * destruct (Text.commandsAt sides str e j) as [|c commands]; cbn [app Text.feed];
          [by rewrite Hrest|].
        destruct (g' (c :: commands) st) as [[[|]|x] st2]; [by rewrite Hrest|done|done].
      * destruct (Text.commandsAt sides str e j) as [|c commands]; cbn [app Text.feed];
          by rewrite Hrest.
    + destruct (f (take e str) st) as [[[|]|x] st1]; [|done|done].
      destruct g as [g'|]; cbn [default id].
      * destruct (Text.commandsAt sides str e j) as [|c commands]; cbn [app Text.feed];
          [by rewrite Hrest|].
        destruct (g' (c :: commands) st1) as [[[|]|x] st2]; [by rewrite Hrest|done|done].
      * destruct (Text.commandsAt sides str e j) as [|c commands]; cbn [app Text.feed];
          by rewrite Hrest.
  - destruct str as [|c str]; [done|]. cbn.
    by destruct (f (c :: str) st) as [[[|]|x] st1].
Qed.
End Step.
End TextScan.

Section TextPieces.
Context (CmdEsc StartEsc EndEsc : ascii).

Local Abbreviation isEscape := (Text.isEscape CmdEsc StartEsc).
Local Abbreviation nextCommand := (Text.nextCommand CmdEsc StartEsc EndEsc).
Local Abbreviation scan := (Text.scan CmdEsc StartEsc EndEsc).
Local Abbreviation pieces := (Text.pieces CmdEsc StartEsc EndEsc).
Local Abbreviation processText := (Text.processText CmdEsc StartEsc EndEsc).

Lemma feed_record ps : ∀ seen,
  Text.feed Text.recordText Text.recordCommands ps seen = (Ok true, seen ++ ps).
Proof.
  induction ps as [|p ps IH]; intros seen; cbn; [by rewrite app_nil_r|].
  destruct p; cbn; by rewrite IH, <-(assoc_L (++)).
Qed.

Lemma pieces_scan text sides :
  (Text.size text < Text.NPos)%N →
  pieces text sides = scan (S (length text)) sides text.
Proof.
  intros Hsize. unfold Text.pieces, Text.processText.
  rewrite processTextLoop_feeds; [|done|lia]. cbn [default].
  by rewrite feed_record.
Qed.

Lemma indexOf_None_intro p s :
  (∀ c, c ∈ s → p c = false) → Text.indexOf p s = None.
Proof.
  induction s as [|c s IH]; intros Hall; [done|]. cbn.
  rewrite (Hall c) by apply list_elem_of_here.
  rewrite IH; [done|]. intros c' Hc'. by apply Hall, list_elem_of_further.
Qed.

Lemma scan_concat fuel : ∀ str,
  length str < fuel →
  concat (Text.pieceBytes <$> scan fuel true str) = str.
Proof.
  induction fuel as [|fuel IH]; intros str Hfuel; [lia|]. cbn [Text.scan].
  destruct (nextCommand str) as [[e j]|] eqn:Hnext.
  - apply nextCommand_Some in Hnext as (Hlen & _).
    rewrite !fmap_app, !concat_app, IH by (rewrite length_drop; lia).
    assert (Htext : concat (Text.pieceBytes <$>
                              (if e =? 0 then [] else [Text.TextPiece (take e str)]))
                    = take e str).
    { destruct (Nat.eqb_spec e 0) as [->|_]; cbn; [done | by rewrite app_nil_r]. }
    assert (Hcommands :
              concat (Text.pieceBytes <$>
                        match Text.commandsAt true str e j with
                        | [] => []
                        | commands => [Text.CommandsPiece commands]
                        end)
              = take (j + 1) (drop e str)).
    { unfold Text.commandsAt.
      destruct (take (j + 1) (drop e str)); cbn; [done | by rewrite app_nil_r]. }
    rewrite Htext, Hcommands.
    replace (S (e + j)) with (e + (j + 1)) by lia.
    by rewrite <-drop_drop, take_drop, take_drop.
  - destruct str; cbn; [done | by rewrite app_nil_r].
Qed.

Lemma scan_nonempty fuel sides : ∀ str,
  Forall (λ p, Text.pieceBytes p ≠ []) (scan fuel sides str).
Proof.
  induction fuel as [|fuel IH]; intros str; [constructor|]. cbn [Text.scan].
  destruct (nextCommand str) as [[e j]|] eqn:Hnext.
  - apply nextCommand_Some in Hnext as (Hlen & _).
    apply Forall_app. split; [|apply Forall_app; split; [|apply IH]].
    + destruct (Nat.eqb_spec e 0) as [->|He]; [constructor|].
      apply Forall_singleton. cbn. intros Hnil.
      apply (f_equal length) in Hnil. rewrite length_take in Hnil. cbn in Hnil. lia.
    + destruct (Text.commandsAt sides str e j); [constructor | by apply Forall_singleton].
  - destruct str; [constructor | by apply Forall_singleton].
Qed.

(** X16. The loop terminates without raising, and the callbacks see the
    pieces of the text: for any callbacks, [processText] ends within the
    iterations it is given, raises no [std::out_of_range], hands the
    pieces of the text to the two callbacks in order up to the first
    refusal, and returns false exactly when a callback refused.  An empty
    commands callback stands for one that accepts everything and does
    nothing. *)
Theorem processText_hands_over_pieces {St} text (textFunc : Text.Callback (St:=St))
    (commandsFunc : option (Text.Callback (St:=St))) includeCommandSides (st : St) :
  (Text.size text < Text.NPos)%N →
  processText text textFunc commandsFunc includeCommandSides st
  = Some (Text.feed textFunc (default Text.ignoreCommands commandsFunc)
            (pieces text includeCommandSides) st).
Proof.
  intros Hsize. rewrite pieces_scan by done. unfold Text.processText.
  apply processTextLoop_feeds; [done | lia].
Qed.

(** X17. With the command sides included, the pieces handed to the
    callbacks, put together in the order of the calls, are the text; and
    with or without the sides no callback is ever handed an empty piece. *)
Theorem processText_pieces_reassemble text :
  (Text.size text < Text.NPos)%N →
  concat (Text.pieceBytes <$> pieces text true) = text
  ∧ ∀ includeCommandSides,
      Forall (λ p, Text.pieceBytes p ≠ []) (pieces text includeCommandSides).
Proof.
  intros Hsize. split.
  - rewrite pieces_scan by done. apply scan_concat. lia.
  - intros sides. rewrite pieces_scan by done. apply scan_nonempty.
Qed.

Lemma nextCommand_without_escape str :
  CmdEsc ∉ str → StartEsc ∉ str → nextCommand str = None.
Proof.
  intros Hcmd Hstart. unfold Text.nextCommand.
  rewrite indexOf_None_intro; [done|].
  intros c Hc. apply bool_decide_eq_false. unfold Text.escapeChars.
  intros [->|[->|[]%elem_of_nil]%elem_of_cons]%elem_of_cons; done.
Qed.

Lemma nextCommand_without_end str : EndEsc ∉ str → nextCommand str = None.
Proof.
  intros Hend. unfold Text.nextCommand.
  destruct (Text.indexOf isEscape str) as [f|]; [|done].
  destruct (Text.indexOf _ (drop f str)) as [k|]; [|done].
  rewrite indexOf_None_intro; [done|].
  intros c Hc. apply bool_decide_eq_false. intros ->.
  apply Hend. apply list_elem_of_lookup in Hc as [i Hi]. rewrite lookup_drop in Hi.
  by eapply list_elem_of_lookup_2.
Qed.

(** X18. A text that holds no escape byte, or that holds no [EndEsc], is
    handed to [textFunc] whole, in one call whose answer is the result; the
    commands callback is not called.  For the empty text no callback is
    called and the result is true. *)
Theorem processText_without_command {St} text (textFunc : Text.Callback (St:=St))
    (commandsFunc : option (Text.Callback (St:=St))) includeCommandSides (st : St) :
  (Text.size text < Text.NPos)%N →
  ((CmdEsc ∉ text) ∧ (StartEsc ∉ text)) ∨ (EndEsc ∉ text) →
  processText text textFunc commandsFunc includeCommandSides st
  = Some (Text.finish textFunc text st).
Proof.
  intros Hsize Hplain. unfold Text.processText.
  rewrite processTextLoop_step by done.
  destruct Hplain as [[Hcmd Hstart]|Hend].
  - by rewrite nextCommand_without_escape.
  - by rewrite nextCommand_without_end.
Qed.

Lemma nextCommand_apart str e j :
  EndEsc ≠ CmdEsc → EndEsc ≠ StartEsc →
  nextCommand str = Some (e, j) → j ≠ 0.
Proof.
  intros Hcmd Hstart (_ & (c & Hc & Hesc) & Hend & _)%nextCommand_Some ->.
  rewrite Nat.add_0_r, Hc in Hend. injection Hend as ->.
  apply bool_decide_eq_true in Hesc. unfold Text.escapeChars in Hesc.
  by apply elem_of_cons in Hesc as [?|[?|[]%elem_of_nil]%elem_of_cons].
Qed.

Lemma commandsAt_sides str e j :
  e + j < length str → j ≠ 0 →
  take (length (Text.commandsAt true str e j) - 2) (drop 1 (Text.commandsAt true str e j))
  = Text.commandsAt false str e j.
Proof.
  intros Hlen Hj. unfold Text.commandsAt.
  destruct (Nat.eqb_spec j 0) as [?|_]; [done|].
  rewrite length_take, length_drop.
  replace (j + 1) with (1 + j) by lia.
  rewrite <-take_drop_commute, drop_drop, take_take.
  f_equal. lia.
Qed.

Lemma scan_sides fuel : ∀ str,
  EndEsc ≠ CmdEsc → EndEsc ≠ StartEsc →
  scan fuel false str = omap Text.withoutSides (scan fuel true str).
Proof.
  induction fuel as [|fuel IH]; intros str Hcmd Hstart; [done|]. cbn [Text.scan].
  destruct (nextCommand str) as [[e j]|] eqn:Hnext; [|by destruct str].
  pose proof (nextCommand_apart _ _ _ Hcmd Hstart Hnext) as Hj.
  apply nextCommand_Some in Hnext as (Hlen & _).
  rewrite !omap_app, <-IH by done. f_equal; [by destruct (e =? 0)|]. f_equal.
  pose proof (commandsAt_sides str e j Hlen Hj) as Hsides.
  assert (Hwith : Text.commandsAt true str e j ≠ []).
  { unfold Text.commandsAt. intros Hnil. apply (f_equal length) in Hnil.
    rewrite length_take, length_drop in Hnil. cbn in Hnil. lia. }
  destruct (Text.commandsAt true str e j) as [|c commands] eqn:Hwith'; [done|].
  cbn [omap list_omap Text.withoutSides]. rewrite Hsides.
  by destruct (Text.commandsAt false str e j).
Qed.

(** X19. Leaving out the command sides changes nothing but the commands
    pieces: each is handed over without its first and its last byte, and
    a command with nothing in between is not handed over at all.  The text
    pieces and the order of the calls are the same. *)
Theorem processText_sides_only_trim_commands text :
  (Text.size text < Text.NPos)%N →
  EndEsc ≠ CmdEsc → EndEsc ≠ StartEsc →
  pieces text false = omap Text.withoutSides (pieces text true).
Proof.
  intros Hsize Hcmd Hstart. rewrite !pieces_scan by done. by apply scan_sides.
Qed.

Lemma commandsAt_whole str e j :
  EndEsc ≠ CmdEsc → EndEsc ≠ StartEsc →
  nextCommand str = Some (e, j) →
  Text.wholeCommand CmdEsc StartEsc EndEsc (Text.commandsAt true str e j).
Proof.
  intros Hcmd Hstart Hnext.
  pose proof (nextCommand_apart _ _ _ Hcmd Hstart Hnext) as Hj.
  apply nextCommand_Some in Hnext as (Hlen & (c & Hc & Hesc) & Hend & Hbody & Hafter).
  destruct j as [|j]; [done|]. clear Hj.
  exists c, (take j (drop (S e) str)). unfold Text.commandsAt.
  split; [|split; [by apply bool_decide_eq_true in Hesc|split]].
  - rewrite (drop_S _ _ _ Hc). replace (S j + 1) with (S (S j)) by lia.
    cbn [take]. f_equal. apply take_S_r. rewrite lookup_drop.
    by replace (S e + j) with (e + S j) by lia.
  - intros [i [Hi Hlt]]%elem_of_take. rewrite lookup_drop in Hi.
    apply (Hbody (S i) EndEsc); [lia| |done].
    by replace (e + S i) with (S e + i) by lia.
  - intros d Hd. rewrite head_lookup, lookup_take_Some in Hd. destruct Hd as [Hd _].
    rewrite lookup_drop, Nat.add_0_r in Hd.
    specialize (Hafter d Hd). by apply bool_decide_eq_false in Hafter.
Qed.

Lemma scan_whole fuel : ∀ str,
  EndEsc ≠ CmdEsc → EndEsc ≠ StartEsc →
  Forall (λ p, match p with
               | Text.TextPiece _ => True
               | Text.CommandsPiece s => Text.wholeCommand CmdEsc StartEsc EndEsc s
               end) (scan fuel true str).
Proof.
  induction fuel as [|fuel IH]; intros str Hcmd Hstart; [constructor|]. cbn [Text.scan].
  destruct (nextCommand str) as [[e j]|] eqn:Hnext.
  - apply Forall_app. split; [|apply Forall_app; split; [|by apply IH]].
    + destruct (e =? 0); [constructor | by apply Forall_singleton].
    + pose proof (commandsAt_whole str e j Hcmd Hstart Hnext) as Hwhole.
      destruct (Text.commandsAt true str e j); [constructor | by apply Forall_singleton].
  - destruct str; [constructor | by apply Forall_singleton].
Qed.

(** X20. Every commands piece handed over with its sides is one whole
    escape code: a single escape byte, then a body that holds no [EndEsc]
    and does not begin with an escape byte, then [EndEsc]. *)
Theorem processText_commands_are_whole text :
  (Text.size text < Text.NPos)%N →
  EndEsc ≠ CmdEsc → EndEsc ≠ StartEsc →
  Forall (λ p, match p with
               | Text.TextPiece _ => True
               | Text.CommandsPiece s => Text.wholeCommand CmdEsc StartEsc EndEsc s
               end) (pieces text true).
Proof.
  intros Hsize Hcmd Hstart. rewrite pieces_scan by done. by apply scan_whole.
Qed.

Lemma nextCommand_run str e j :
  nextCommand str = Some (e, j) →
  ∃ f, f ≤ e
       ∧ (∀ i c, i < f → str !! i = Some c → isEscape c = false)
       ∧ (∀ i c, f ≤ i → i ≤ e → str !! i = Some c → isEscape c = true).
Proof.
  unfold Text.nextCommand.
  destruct (Text.indexOf isEscape str) as [f|] eqn:Hf; [|done].
  destruct (Text.indexOf _ (drop f str)) as [k|] eqn:Hk; [|done].
  destruct (Text.indexOf _ (drop (f + k - 1) str)) as [j'|]; [|done].
  intros [= <- <-]. exists f.
  apply indexOf_Some in Hf as [(c & Hc & Hesc) Hbefore].
  apply indexOf_Some in Hk as [(d & Hd & Hnot) Hrun].
  assert (Hk1 : k ≠ 0).
  { intros ->. rewrite lookup_drop, Nat.add_0_r, Hc in Hd. injection Hd as <-.
    by rewrite Hesc in Hnot. }
  split; [lia|]. split; [done|].
  intros i y Hfi Hie Hy. apply negb_false_iff, (Hrun (i - f)); [lia|].
  rewrite lookup_drop. by replace (f + (i - f)) with i by lia.
Qed.

Lemma nextCommand_take str e j :
  nextCommand str = Some (e, j) → nextCommand (take e str) = None.
Proof.
  intros Hnext. pose proof Hnext as (Hlen & _)%nextCommand_Some.
  apply nextCommand_run in Hnext as (f & Hfe & Hbefore & Hrun).
  unfold Text.nextCommand.
  destruct (Text.indexOf isEscape (take e str)) as [f'|] eqn:Hf'; [|done].
  apply indexOf_Some in Hf' as [(c & Hc & Hesc) _].
  apply lookup_take_Some in Hc as [Hc Hlt].
  assert (Hff : f ≤ f').
  { destruct (decide (f ≤ f')) as [|Hgt]; [done|].
    rewrite (Hbefore f' c) in Hesc; [done | lia | done]. }
  rewrite indexOf_None_intro; [done|].
  intros d [i Hi]%list_elem_of_lookup. rewrite lookup_drop in Hi.
  apply lookup_take_Some in Hi as [Hi Hlt']. apply negb_false_iff.
  apply (Hrun (f' + i)); [lia | lia | done].
Qed.

Lemma scan_text_pieces fuel sides : ∀ str,
  Forall (λ p, match p with
               | Text.TextPiece s => nextCommand s = None ∧ s ≠ [] ∧ length s ≤ length str
               | Text.CommandsPiece _ => True
               end) (scan fuel sides str).
Proof.
  induction fuel as [|fuel IH]; intros str; [constructor|]. cbn [Text.scan].
  destruct (nextCommand str) as [[e j]|] eqn:Hnext.
  - pose proof Hnext as (Hlen & _)%nextCommand_Some.
    apply Forall_app. split; [|apply Forall_app; split].
    + destruct (Nat.eqb_spec e 0) as [->|He]; [constructor|].
      apply Forall_singleton. split; [by eapply nextCommand_take|].
      rewrite length_take. split; [|lia].
      intros Hnil. apply (f_equal length) in Hnil. rewrite length_take in Hnil.
      cbn in Hnil. lia.
    + destruct (Text.commandsAt sides str e j); [constructor | by apply Forall_singleton].
    + eapply Forall_impl; [apply IH|]. intros [s|s]; [|done].
      rewrite length_drop. intros (? & ? & ?). split; [done|]. split; [done | lia].
  - destruct str as [|c str]; [constructor|]. by apply Forall_singleton.
Qed.

(** X24. No text piece holds a command: handed to [processText] again,
    with or without the sides, a text piece comes back whole, as the one
    text piece. *)
Theorem processText_text_pieces_hold_no_command text includeCommandSides :
  (Text.size text < Text.NPos)%N →
  Forall (λ p, match p with
               | Text.TextPiece s => ∀ sides, pieces s sides = [Text.TextPiece s]
               | Text.CommandsPiece _ => True
               end) (pieces text includeCommandSides).
Proof.
  intros Hsize. rewrite pieces_scan by done.
  eapply Forall_impl; [apply scan_text_pieces|].
  intros [s|s]; [|done]. intros (Hnone & Hne & Hlen) sides.
  rewrite pieces_scan by (unfold Text.size in *; lia).
  cbn [Text.scan]. rewrite Hnone. by destruct s.
Qed.
End TextPieces.

Section TextPreprocess.
Context (isEscapeCode belowSpecialCharLimit equalsStartEsc equalsEndEsc : ascii → bool).
Context (StartEsc : ascii).

Local Abbreviation preprocessAt :=
  (Text.preprocessAt isEscapeCode belowSpecialCharLimit equalsStartEsc equalsEndEsc StartEsc).
Local Abbreviation preprocessFrom :=
  (Text.preprocessFrom isEscapeCode belowSpecialCharLimit equalsStartEsc equalsEndEsc
     StartEsc).
Local Abbreviation preprocessEscapeCodes :=
  (Text.preprocessEscapeCodes isEscapeCode belowSpecialCharLimit equalsStartEsc
     equalsEndEsc StartEsc).

Local Abbreviation rewrites := (rewrites isEscapeCode StartEsc).

Lemma preprocessAt_rewrites s i l : rewrites s l → rewrites s (preprocessAt i l).
Proof.
  intros (Hlen & Hbytes & Hidx). unfold Text.preprocessAt.
  destruct (Text.result l !! i) as [c|] eqn:Hc; [|done].
  assert (Hhere : isEscapeCode c = true → ∃ c0, s !! i = Some c0 ∧ isEscapeCode c0 = true).
  { intros Hesc. destruct (lookup_lt_is_Some_2 s i) as [c0 Hc0].
    { rewrite <-Hlen. by eapply lookup_lt_Some. }
    exists c0. split; [done|].
    destruct (Hbytes i c0 Hc0) as [Hsame|[Hesc0 _]]; [|done].
    rewrite Hsame in Hc. by injection Hc as ->. }
  set (l1 := if isEscapeCode c then Text.mkPreprocessing true i (Text.result l) else l).
  assert (H1 : rewrites s l1).
  { unfold l1. destruct (isEscapeCode c) eqn:Hesc; [|done].
    split; [done|]. split; [done|]. intros _. by apply Hhere. }
  set (l2 := if belowSpecialCharLimit c && negb (equalsStartEsc c)
             then Text.mkPreprocessing false (Text.escapeStartIdx l1) (Text.result l1)
             else l1).
  assert (H2 : rewrites s l2).
  { unfold l2. destruct (belowSpecialCharLimit c && negb (equalsStartEsc c)); [|done].
    destruct H1 as (Hlen1 & Hbytes1 & _). split; [done|]. by split. }
  destruct (equalsEndEsc c && Text.escape l2) eqn:Hwrite; [|done].
  apply andb_true_iff in Hwrite as [_ Hescape].
  destruct H2 as (Hlen2 & Hbytes2 & Hidx2).
  destruct (Hidx2 Hescape) as (c0 & Hc0 & Hesc0).
  split; [|split; [|done]]; cbn.
  - by rewrite length_insert.
  - intros k d Hd. destruct (decide (k = Text.escapeStartIdx l2)) as [->|Hne].
    + right. rewrite Hc0 in Hd. injection Hd as <-. split; [done|].
      apply list_lookup_insert_eq. rewrite Hlen2. by eapply lookup_lt_Some.
    + rewrite list_lookup_insert_ne by done. by apply Hbytes2.
Qed.

Lemma preprocessFrom_rewrites s fuel : ∀ i l,
  rewrites s l → rewrites s (preprocessFrom fuel i l).
Proof.
  induction fuel as [|fuel IH]; intros i l Hl; [done|]. cbn.
  case_decide; [|done]. by apply IH, preprocessAt_rewrites.
Qed.

Lemma preprocessAt_length i l :
  length (Text.result (preprocessAt i l)) = length (Text.result l).
Proof.
  unfold Text.preprocessAt. destruct (Text.result l !! i) as [c|]; [|done].
  destruct (isEscapeCode c), (belowSpecialCharLimit c && negb (equalsStartEsc c)); cbn;
    match goal with |- context [if ?b then _ else _] => destruct b end; cbn;
    by rewrite ?length_insert.
Qed.

(** The loop is over when [i] reaches the length: more iterations than
    that change nothing. *)
Lemma preprocessFrom_enough fuel extra : ∀ i l,
  length (Text.result l) ≤ i + fuel →
  preprocessFrom (fuel + extra) i l = preprocessFrom fuel i l.
Proof.
  induction fuel as [|fuel IH]; intros i l Hlen; cbn.
  - destruct extra; [done|]. cbn. case_decide; [lia | done].
  - case_decide; [|done]. apply IH. rewrite preprocessAt_length. lia.
Qed.

(** X21. [preprocessEscapeCodes] keeps the length of the text and rewrites
    nothing but escape codes: every byte of the result is the byte of the
    text at that place, unless that byte is an escape code, which may have
    become [StartEsc].  A text without escape codes comes back as it is.
    The loop has ended after as many iterations as the text has bytes. *)
Theorem preprocessEscapeCodes_rewrites_escape_codes_only s :
  length (preprocessEscapeCodes s) = length s
  ∧ (∀ i c, s !! i = Some c →
       preprocessEscapeCodes s !! i = Some c
       ∨ (isEscapeCode c = true ∧ preprocessEscapeCodes s !! i = Some StartEsc))
  ∧ ((∀ c, c ∈ s → isEscapeCode c = false) → preprocessEscapeCodes s = s)
  ∧ (∀ extra,
       Text.result (preprocessFrom (length s + extra) 0 (Text.mkPreprocessing false 0 s))
       = preprocessEscapeCodes s).
Proof.
  assert (H : rewrites s (preprocessFrom (length s) 0 (Text.mkPreprocessing false 0 s))).
  { apply preprocessFrom_rewrites. split; [done|]. split; [by left | done]. }
  destruct H as (Hlen & Hbytes & _).
  split; [done|]. split; [done|]. split.
  - intros Hplain. apply list_eq_same_length with (length s); [done..|].
    intros i x y Hi Hx Hy.
    destruct (Hbytes i y Hy) as [Hsame|[Hesc _]].
    + unfold Text.preprocessEscapeCodes in Hx. rewrite Hsame in Hx. by injection Hx.
    + rewrite Hplain in Hesc; [done|]. by eapply list_elem_of_lookup_2.
  - intros extra. unfold Text.preprocessEscapeCodes.
    rewrite preprocessFrom_enough; [done|]. cbn. lia.
Qed.
End TextPreprocess.

(** ** Evaluations of the text functions *)

(** X16, on the sample text with a commands callback that refuses: the
    first text piece is handed over, the first command is refused, and
    nothing more is handed over. *)
Lemma processText_hands_over_pieces_witness :
  Text.processText caret esc semicolon markup Text.recordText (Some refuseCommands) true []
  = Some (Ok false, [Text.TextPiece (bytes "Hi ")]).
Proof.
  rewrite (processText_hands_over_pieces caret esc semicolon markup Text.recordText
             (Some refuseCommands) true [] eq_refl).
  by vm_compute.
Defined.

(** X17, on the sample text: the pieces with their sides, which put
    together are the text. *)
Lemma processText_pieces_reassemble_witness :
  Text.pieces caret esc semicolon markup true
    = [Text.TextPiece (bytes "Hi "); Text.CommandsPiece (bytes "^red;");
       Text.TextPiece (bytes "there^"); Text.CommandsPiece (bytes "^blue;");
       Text.CommandsPiece (bytes "^;"); Text.TextPiece (bytes "!^")]
  ∧ concat (Text.pieceBytes <$> Text.pieces caret esc semicolon markup true) = markup.
Proof.
  split; [by vm_compute|].
  apply (processText_pieces_reassemble caret esc semicolon markup eq_refl).
Defined.

(** X18, on a text that ends in a caret and holds no semicolon: it is
    handed over whole. *)
Lemma processText_without_command_witness :
  Text.processText caret esc semicolon (bytes "abc^") Text.recordText
    (Some Text.recordCommands) false []
  = Some (Ok true, [Text.TextPiece (bytes "abc^")]).
Proof.
  rewrite (processText_without_command caret esc semicolon (bytes "abc^") Text.recordText
             (Some Text.recordCommands) false [] eq_refl).
  - done.
  - right. by intros [[=]|[[=]|[[=]|[[=]|[]%elem_of_nil]%elem_of_cons]%elem_of_cons]%elem_of_cons]%elem_of_cons.
Defined.

Lemma semicolon_apart : semicolon ≠ caret ∧ semicolon ≠ esc.
Proof. by split. Defined.

(** X19, on the sample text: without the sides the commands are red and
    blue, and the empty command is not handed over. *)
Lemma processText_sides_only_trim_commands_witness :
  Text.pieces caret esc semicolon markup false
    = omap Text.withoutSides (Text.pieces caret esc semicolon markup true)
  ∧ Text.pieces caret esc semicolon markup false
    = [Text.TextPiece (bytes "Hi "); Text.CommandsPiece (bytes "red");
       Text.TextPiece (bytes "there^"); Text.CommandsPiece (bytes "blue");
       Text.TextPiece (bytes "!^")].
Proof.
  split; [|by vm_compute].
  apply (processText_sides_only_trim_commands caret esc semicolon markup eq_refl);
    apply semicolon_apart.
Defined.

(** X20, on the sample text. *)
Lemma processText_commands_are_whole_witness :
  Forall (λ p, match p with
               | Text.TextPiece _ => True
               | Text.CommandsPiece s => Text.wholeCommand caret esc semicolon s
               end) (Text.pieces caret esc semicolon markup true).
Proof.
  apply (processText_commands_are_whole caret esc semicolon markup eq_refl);
    apply semicolon_apart.
Defined.

(** X15, on the traced echo world: with the level left to the controller
    and two seconds to spare in the first two iterations, the engine is
    handed Medium and then High twice. *)
Lemma automatic_levels_are_the_controllers_witness :
  fidelities (m_worldServer
     (snd (run (traced Echo.server) Echo.names (Ok automaticConfig)
             [mkTickEnv false false 2%float; mkTickEnv false true 2%float;
              mkTickEnv false false (-4)%float]
             freshTracedEcho)))
  = [Medium; High; High].
Proof.
  assert (Hlocked : lockedFidelityOf Echo.names automaticConfig = Ok None) by by vm_compute.
  destruct (automatic_levels_are_the_controllers Echo.server Echo.names automaticConfig
              [mkTickEnv false false 2%float; mkTickEnv false true 2%float;
               mkTickEnv false false (-4)%float]
              freshTracedEcho Hlocked I) as [_ Hfull].
  rewrite Hfull; [by vm_compute | done | by repeat constructor | by vm_compute].
Defined.

(** X24, on the sample text: the text piece with the caret at its end
    comes back whole. *)
Lemma processText_text_pieces_hold_no_command_witness :
  Text.pieces caret esc semicolon (bytes "there^") true
  = [Text.TextPiece (bytes "there^")].
Proof.
  pose proof (processText_text_pieces_hold_no_command caret esc semicolon markup true
                eq_refl) as Hall.
  assert (Hpieces : Text.pieces caret esc semicolon markup true
            = [Text.TextPiece (bytes "Hi "); Text.CommandsPiece (bytes "^red;");
               Text.TextPiece (bytes "there^"); Text.CommandsPiece (bytes "^blue;");
               Text.CommandsPiece (bytes "^;"); Text.TextPiece (bytes "!^")])
    by by vm_compute.
  rewrite Hpieces in Hall.
  apply Forall_cons in Hall as [_ Hall]. apply Forall_cons in Hall as [_ Hall].
  apply Forall_cons in Hall as [Hthis _]. apply Hthis.
Defined.
